(** * libtorrent: byte codec, disk job record and session delegate

    A shallow embedding of three headers of the repository:
    - the big-endian integer codec ([read_impl], [write_impl], their
      adaptors and [write_string]);
    - [libtorrent/aux_/disk_io_job.hpp] (the job record);
    - [sirius_drive/session_delegate.h] (the delegate's default methods
      and the hexadecimal strings [toString] and [toHex]).

    Integers are mathematical [Z] values together with the C++ type they
    have; every conversion between types is written out as [static_cast]. *)

From stdpp Require Import base option list gmap.
From Stdlib Require Import ZArith Lia.

#[local] Set Warnings "-clear-no-such-hyp".
Local Open Scope Z_scope.

(** The two properties of a build that the headers depend on:
    [TORRENT_USE_ASSERTS] (whether [TORRENT_ASSERT] is compiled in) and the
    signedness of plain [char], which the language leaves to the platform. *)
Class BuildConfig := {
  TORRENT_USE_ASSERTS : bool;
  char_is_signed : bool;
}.

(** A debug build on a platform with signed [char]. *)
Definition debug_build : BuildConfig :=
  {| TORRENT_USE_ASSERTS := true; char_is_signed := true |}.

(** ** The codec *)
Module Io.

(** The fixed-width types of [<cstdint>] the adaptors instantiate. *)
Inductive int_type : Set :=
| int8_t | uint8_t | int16_t | uint16_t
| int32_t | uint32_t | int64_t | uint64_t.

#[global] Instance int_type_eq_dec : EqDecision int_type.
Proof. solve_decision. Defined.

Definition sizeof (T : int_type) : nat :=
  match T with
  | int8_t | uint8_t => 1
  | int16_t | uint16_t => 2
  | int32_t | uint32_t => 4
  | int64_t | uint64_t => 8
  end.

Definition is_signed (T : int_type) : bool :=
  match T with
  | int8_t | int16_t | int32_t | int64_t => true
  | uint8_t | uint16_t | uint32_t | uint64_t => false
  end.

Definition bits (T : int_type) : Z := 8 * Z.of_nat (sizeof T).

Definition min_value (T : int_type) : Z :=
  if is_signed T then - 2 ^ (bits T - 1) else 0.

Definition max_value (T : int_type) : Z :=
  if is_signed T then 2 ^ (bits T - 1) - 1 else 2 ^ bits T - 1.

(** [x] is a value of type [T]. *)
Definition representable (T : int_type) (x : Z) : Prop :=
  min_value T ≤ x ≤ max_value T.

#[global] Instance representable_dec T x : Decision (representable T x).
Proof. unfold representable. apply _. Defined.

(** Every value of [T] is a value of [In]. *)
Definition includes (In T : int_type) : bool :=
  (min_value In <=? min_value T) && (max_value T <=? max_value In).

(** Integral conversion: the value of [T] congruent to [x] modulo
    [2^bits] (two's complement, as C++20 fixes it). *)
Definition static_cast (T : int_type) (x : Z) : Z :=
  let m := x mod 2 ^ bits T in
  if is_signed T && (2 ^ (bits T - 1) <=? m) then m - 2 ^ bits T else m.

(** [int] is 32 bits wide on every platform the library builds for. *)
Definition int_t : int_type := int32_t.

(** The one-byte type of the given signedness; plain [char] is one of
    the two, by the build. *)
Definition byte_type (sg : bool) : int_type := if sg then int8_t else uint8_t.

Definition byte_type_size (sg : bool) : sizeof (byte_type sg) = 1%nat :=
  match sg with true => eq_refl | false => eq_refl end.

Definition char_t {cfg : BuildConfig} : int_type := byte_type char_is_signed.

(** *** Outcomes

    Neither function checks its cursor: stepping outside the buffer is
    undefined behaviour, reported here as [out_of_bounds]. A failed
    [TORRENT_ASSERT] aborts the call. *)
Inductive fault : Set := assertion_failed | out_of_bounds.

Inductive result (A : Type) : Type :=
| Ok (a : A)
| Fault (f : fault).
#[global] Arguments Ok {A} a.
#[global] Arguments Fault {A} f.

#[global] Instance result_ret : MRet result := @Ok.
#[global] Instance result_bind : MBind result :=
  λ A B f r, match r with Ok a => f a | Fault e => Fault e end.

(** *** Iterators

    [InIt]: [*start] followed by [++start].
    [OutIt]: [*start = b] followed by [++start]; the assignment converts
    [b] to the element type. [Byte] is the type [write_impl] computes
    from the iterator's [value_type]; [Byte_size] is its
    [static_assert(sizeof(Byte) == 1)]. *)
Class InIt (It : Type) := deref_incr : It → result (Z * It).

Class OutIt (It : Type) := {
  Byte : int_type;
  Byte_size : sizeof Byte = 1%nat;
  assign_incr : Z → It → result It;
}.

(** A pointer into a contiguous buffer of one-byte objects of
    signedness [sg]; a cell holds the value of the object. *)
Record pointer (sg : bool) : Type := Pointer {
  buffer : list Z;
  offset : nat;
}.
#[global] Arguments Pointer {sg} buffer offset.
#[global] Arguments buffer {sg} p.
#[global] Arguments offset {sg} p.

#[global] Instance pointer_InIt sg : InIt (pointer sg) := λ p,
  match buffer p !! offset p with
  | Some c => Ok (c, Pointer (buffer p) (S (offset p)))
  | None => Fault out_of_bounds
  end.

#[global] Instance pointer_OutIt sg : OutIt (pointer sg) := {
  Byte := byte_type sg;
  Byte_size := byte_type_size sg;
  assign_incr b p :=
    if decide (offset p < length (buffer p))%nat
    then Ok (Pointer (<[offset p := static_cast (byte_type sg) b]> (buffer p))
                     (S (offset p)))
    else Fault out_of_bounds;
}.

(** [std::back_insert_iterator] over a container of one-byte elements
    of signedness [sg]: its [value_type] is [void], so [Byte] is [char];
    assigning appends. *)
Record back_insert_iterator (sg : bool) : Type := BackInserter {
  container : list Z;
}.
#[global] Arguments BackInserter {sg} container.
#[global] Arguments container {sg} b.

#[global] Instance back_insert_OutIt {cfg : BuildConfig} sg :
  OutIt (back_insert_iterator sg) := {
  Byte := char_t;
  Byte_size := byte_type_size char_is_signed;
  assign_incr b it :=
    Ok (BackInserter (container it ++ [static_cast (byte_type sg) b]));
}.

(** *** [read_impl] *)

(** The loop of the primary template, [n] iterations left. *)
Fixpoint read_loop {It : Type} {in_it : InIt It} (T : int_type) (n : nat)
    (ret : Z) (start : It) : result (Z * It) :=
  match n with
  | O => Ok (ret, start)
  | S n' =>
      let ret := static_cast T (Z.shiftl ret 8) in
      '(c, start) ← deref_incr start;
      let ret := static_cast T (Z.lor ret (static_cast uint8_t c)) in
      read_loop T n' ret start
  end.

Definition read_impl_primary {It : Type} {in_it : InIt It} (T : int_type) (start : It)
  : result (Z * It) :=
  read_loop T (sizeof T) 0 start.

Definition read_impl_uint8 {It : Type} {in_it : InIt It} (start : It)
  : result (Z * It) :=
  '(c, start) ← deref_incr start; Ok (static_cast uint8_t c, start).

Definition read_impl_int8 {It : Type} {in_it : InIt It} (start : It)
  : result (Z * It) :=
  '(c, start) ← deref_incr start; Ok (static_cast int8_t c, start).

(** Overload resolution on the tag [type<T>]. *)
Definition read_impl {It : Type} {in_it : InIt It} (T : int_type) (start : It)
  : result (Z * It) :=
  match T with
  | uint8_t => read_impl_uint8 start
  | int8_t => read_impl_int8 start
  | _ => read_impl_primary T start
  end.

(** *** [write_impl] *)

(** The condition of [TORRENT_ASSERT(data == static_cast<In>(val))]. *)
Definition write_assertion (T In : int_type) (data : Z) : bool :=
  data =? static_cast In (static_cast T data).

(** The loop, entered with [i = sizeof(T)]: the body runs for
    [i - 1], ..., [0]. *)
Fixpoint write_loop {It : Type} {out_it : OutIt It} (val : Z) (i : nat)
    (start : It) : result It :=
  match i with
  | O => Ok start
  | S i' =>
      start ← assign_incr
        (static_cast Byte (Z.land (Z.shiftr val (Z.of_nat i' * 8)) 255)) start;
      write_loop val i' start
  end.

Definition write_impl {cfg : BuildConfig} {It : Type} {out_it : OutIt It}
    (T In : int_type) (data : Z) (start : It) : result It :=
  let val := static_cast T data in
  if TORRENT_USE_ASSERTS && negb (write_assertion T In data)
  then Fault assertion_failed
  else write_loop val (sizeof T) start.

(** The assertion does not stop the call: it holds, or the build has
    assertions compiled out. *)
Definition assertion_passes {cfg : BuildConfig} (T In : int_type) (data : Z) : Prop :=
  TORRENT_USE_ASSERTS = true → write_assertion T In data = true.

(** The overload for [bool]. *)
Definition write_impl_bool {cfg : BuildConfig} {It : Type} {out_it : OutIt It}
    (T : int_type) (val : bool) (start : It) : result It :=
  write_impl T int_t (if val then 1 else 0) start.

(** *** Adaptors *)

Definition read_int64 {It : Type} {in_it : InIt It} (start : It) :=
  read_impl int64_t start.
Definition read_uint64 {It : Type} {in_it : InIt It} (start : It) :=
  read_impl uint64_t start.
Definition read_uint32 {It : Type} {in_it : InIt It} (start : It) :=
  read_impl uint32_t start.
Definition read_int32 {It : Type} {in_it : InIt It} (start : It) :=
  read_impl int32_t start.
Definition read_int16 {It : Type} {in_it : InIt It} (start : It) :=
  read_impl int16_t start.
Definition read_uint16 {It : Type} {in_it : InIt It} (start : It) :=
  read_impl uint16_t start.
Definition read_int8 {It : Type} {in_it : InIt It} (start : It) :=
  read_impl int8_t start.
Definition read_uint8 {It : Type} {in_it : InIt It} (start : It) :=
  read_impl uint8_t start.

Definition write_uint64 {cfg : BuildConfig} {It : Type} {out_it : OutIt It}
    (T : int_type) (val : Z) (start : It) : result It :=
  write_impl uint64_t T val start.
Definition write_int64 {cfg : BuildConfig} {It : Type} {out_it : OutIt It}
    (T : int_type) (val : Z) (start : It) : result It :=
  write_impl int64_t T val start.
Definition write_uint32 {cfg : BuildConfig} {It : Type} {out_it : OutIt It}
    (T : int_type) (val : Z) (start : It) : result It :=
  write_impl uint32_t T val start.
Definition write_int32 {cfg : BuildConfig} {It : Type} {out_it : OutIt It}
    (T : int_type) (val : Z) (start : It) : result It :=
  write_impl int32_t T val start.
Definition write_uint16 {cfg : BuildConfig} {It : Type} {out_it : OutIt It}
    (T : int_type) (val : Z) (start : It) : result It :=
  write_impl uint16_t T val start.
Definition write_int16 {cfg : BuildConfig} {It : Type} {out_it : OutIt It}
    (T : int_type) (val : Z) (start : It) : result It :=
  write_impl int16_t T val start.
Definition write_uint8 {cfg : BuildConfig} {It : Type} {out_it : OutIt It}
    (T : int_type) (val : Z) (start : It) : result It :=
  write_impl uint8_t T val start.
Definition write_int8 {cfg : BuildConfig} {It : Type} {out_it : OutIt It}
    (T : int_type) (val : Z) (start : It) : result It :=
  write_impl int8_t T val start.

(** The adaptor pair of each width and signedness. *)
Definition read_adaptor {It : Type} {in_it : InIt It} (T : int_type)
  : It → result (Z * It) :=
  match T with
  | int8_t => read_int8 | uint8_t => read_uint8
  | int16_t => read_int16 | uint16_t => read_uint16
  | int32_t => read_int32 | uint32_t => read_uint32
  | int64_t => read_int64 | uint64_t => read_uint64
  end.

Definition write_adaptor {cfg : BuildConfig} {It : Type} {out_it : OutIt It}
    (T : int_type) : int_type → Z → It → result It :=
  match T with
  | int8_t => write_int8 | uint8_t => write_uint8
  | int16_t => write_int16 | uint16_t => write_uint16
  | int32_t => write_int32 | uint32_t => write_uint32
  | int64_t => write_int64 | uint64_t => write_uint64
  end.

(** *** [write_string]

    A [std::string] is the list of its [char] values. *)

(** The overload for [char*&]: [memcpy], then [start += str.size()]. *)
Definition write_string_ptr {cfg : BuildConfig}
    (str : list Z) (start : pointer char_is_signed)
  : result (Z * pointer char_is_signed) :=
  let size := length str in
  if decide (offset start + size ≤ length (buffer start))%nat
  then Ok (static_cast int_t (Z.of_nat size),
           Pointer (take (offset start) (buffer start) ++ str
                      ++ drop (offset start + size) (buffer start))
                   (offset start + size))
  else Fault out_of_bounds.

(** The overload for any output iterator: [*out++ = c] for each [c]. *)
Fixpoint write_string_loop {It : Type} {out_it : OutIt It} (val : list Z) (out : It)
  : result It :=
  match val with
  | [] => Ok out
  | c :: val' => out ← assign_incr c out; write_string_loop val' out
  end.

Definition write_string {It : Type} {out_it : OutIt It} (val : list Z) (out : It)
  : result (Z * It) :=
  out ← write_string_loop val out;
  Ok (static_cast int_t (Z.of_nat (length val)), out).

End Io.

(** ** The job record *)
Module DiskIoJob.

Inductive job_action_t : Set :=
| read
| write
| hash
| hash2
| move_storage
| release_files
| delete_files
| check_fastresume
| rename_file
| stop_torrent
| file_priority
| clear_piece
| partial_read
| num_job_ids.

#[global] Instance job_action_eq_dec : EqDecision job_action_t.
Proof. solve_decision. Defined.

(** Index and hash types of other headers: [piece_index_t] and
    [file_index_t] wrap a 32-bit integer, a hash is its bytes. *)
Definition piece_index_t : Type := Z.
Definition file_index_t : Type := Z.
Definition sha1_hash : Type := list Z.
Definition sha256_hash : Type := list Z.

(** Modelled from the spec: [move_flags_t] is declared in a header that
    is not among the sources. The job record names one enumerator,
    [always_replace_files] ("always replace existing files"); the other
    policies are kept apart from it by a number. *)
Inductive move_flags_t : Set :=
| always_replace_files
| other_move_flags (n : nat).

(** Modelled from the spec: [status_t], likewise; the record names
    [no_error]. *)
Inductive status_t : Set :=
| no_error
| other_status (n : nat).

(** Modelled from the spec: [storage_error], "an error-or-success value,
    carrying an operation-specific error kind plus, on failure, the file
    path implicated", with the "distinguished operation aborted error". *)
Inductive storage_error : Set :=
| success
| operation_aborted
| failure (kind : Z) (path : list Z).

(** Modelled from the spec: [disk_job_flags_t] and the literal [n_bit]
    are declared in a header that is not among the sources; [flags] is
    "an independent bit set", and [n_bit] is taken as the value with bit
    [n] alone set. *)
Definition disk_job_flags_t : Type := Z.
Definition bit (n : Z) : disk_job_flags_t := Z.shiftl 1 n.

Definition fence : disk_job_flags_t := bit 1.
Definition in_progress : disk_job_flags_t := bit 2.
Definition aborted : disk_job_flags_t := bit 6.

(** The payload variant. A buffer holder is its buffer, or nothing. *)
Inductive argument_t : Type :=
| arg_disk_buffer_holder (buffer : option (list Z))
| arg_string (s : list Z)
| arg_add_torrent_params (p : option nat)
| arg_priorities (prios : list Z)
| arg_remove_flags (f : Z).

(** A [std::function]: empty, or a callable known by a name. *)
Definition handler : Type := option nat.

(** The callback variant, one alternative per handler type. *)
Inductive callback_t : Type :=
| read_handler (h : handler)
| write_handler (h : handler)
| hash_handler (h : handler)
| hash2_handler (h : handler)
| move_handler (h : handler)
| release_handler (h : handler)
| check_handler (h : handler)
| rename_handler (h : handler)
| clear_piece_handler (h : handler)
| set_file_prio_handler (h : handler).

(** The index of the alternative a callback holds. *)
Inductive handler_kind : Set :=
| k_read | k_write | k_hash | k_hash2 | k_move
| k_release | k_check | k_rename | k_clear_piece | k_set_file_prio.

#[global] Instance handler_kind_eq_dec : EqDecision handler_kind.
Proof. solve_decision. Defined.

Definition callback_index (c : callback_t) : handler_kind :=
  match c with
  | read_handler _ => k_read
  | write_handler _ => k_write
  | hash_handler _ => k_hash
  | hash2_handler _ => k_hash2
  | move_handler _ => k_move
  | release_handler _ => k_release
  | check_handler _ => k_check
  | rename_handler _ => k_rename
  | clear_piece_handler _ => k_clear_piece
  | set_file_prio_handler _ => k_set_file_prio
  end.

(** [union un]. *)
Record io_args : Set := {
  offset : Z;
  buffer_size : Z;
  buffer_offset : Z;
}.

Inductive un : Type :=
| un_h (piece_hash : sha1_hash) (block_hashes : list sha256_hash)
| un_piece_hash2 (h : sha256_hash)
| un_links (links : option nat)
| un_io (io : io_args).

(** [struct disk_io_job]. The queue link is a member of the base class
    [tailqueue_node]. A member without an initializer of its own ([d] and
    the anonymous union of [piece] and [file_index]) has no value until
    it is given one: [None]. *)
Record disk_io_job : Type := {
  argument : argument_t;
  storage : option nat;
  callback : callback_t;
  error : storage_error;
  d : option un;
  piece : option Z;
  action : job_action_t;
  ret : status_t;
  flags : disk_job_flags_t;
  move_flags : move_flags_t;
  in_use : bool;
  job_posted : bool;
  callback_called : bool;
  blocked : bool;
}.

(** The record after default initialization: each member with a default
    member initializer has that value, a variant holds its first
    alternative, value-initialized, and the shared pointer is null. *)
Definition default_initialized : disk_io_job := {|
  argument := arg_disk_buffer_holder None;
  storage := None;
  callback := read_handler None;
  error := success;
  d := None;
  piece := None;
  action := read;
  ret := no_error;
  flags := 0;
  move_flags := always_replace_files;
  in_use := false;
  job_posted := false;
  callback_called := false;
  blocked := false;
|}.

(** What a constructor (its member initializers, then the assignments of
    its body) may set: a member and the value it gets. *)
Inductive member_init : Type :=
| init_argument (v : argument_t)
| init_storage (v : option nat)
| init_callback (v : callback_t)
| init_error (v : storage_error)
| init_d (v : un)
| init_piece (v : Z)
| init_action (v : job_action_t)
| init_ret (v : status_t)
| init_flags (v : disk_job_flags_t)
| init_move_flags (v : move_flags_t)
| init_in_use (v : bool)
| init_job_posted (v : bool)
| init_callback_called (v : bool)
| init_blocked (v : bool).

Definition apply_init (j : disk_io_job) (i : member_init) : disk_io_job :=
  match i with
  | init_argument v =>
      {| argument := v; storage := storage j; callback := callback j;
         error := error j; d := d j; piece := piece j; action := action j;
         ret := ret j; flags := flags j; move_flags := move_flags j;
         in_use := in_use j; job_posted := job_posted j;
         callback_called := callback_called j; blocked := blocked j |}
  | init_storage v =>
      {| argument := argument j; storage := v; callback := callback j;
         error := error j; d := d j; piece := piece j; action := action j;
         ret := ret j; flags := flags j; move_flags := move_flags j;
         in_use := in_use j; job_posted := job_posted j;
         callback_called := callback_called j; blocked := blocked j |}
  | init_callback v =>
      {| argument := argument j; storage := storage j; callback := v;
         error := error j; d := d j; piece := piece j; action := action j;
         ret := ret j; flags := flags j; move_flags := move_flags j;
         in_use := in_use j; job_posted := job_posted j;
         callback_called := callback_called j; blocked := blocked j |}
  | init_error v =>
      {| argument := argument j; storage := storage j; callback := callback j;
         error := v; d := d j; piece := piece j; action := action j;
         ret := ret j; flags := flags j; move_flags := move_flags j;
         in_use := in_use j; job_posted := job_posted j;
         callback_called := callback_called j; blocked := blocked j |}
  | init_d v =>
      {| argument := argument j; storage := storage j; callback := callback j;
         error := error j; d := Some v; piece := piece j; action := action j;
         ret := ret j; flags := flags j; move_flags := move_flags j;
         in_use := in_use j; job_posted := job_posted j;
         callback_called := callback_called j; blocked := blocked j |}
  | init_piece v =>
      {| argument := argument j; storage := storage j; callback := callback j;
         error := error j; d := d j; piece := Some v; action := action j;
         ret := ret j; flags := flags j; move_flags := move_flags j;
         in_use := in_use j; job_posted := job_posted j;
         callback_called := callback_called j; blocked := blocked j |}
  | init_action v =>
      {| argument := argument j; storage := storage j; callback := callback j;
         error := error j; d := d j; piece := piece j; action := v;
         ret := ret j; flags := flags j; move_flags := move_flags j;
         in_use := in_use j; job_posted := job_posted j;
         callback_called := callback_called j; blocked := blocked j |}
  | init_ret v =>
      {| argument := argument j; storage := storage j; callback := callback j;
         error := error j; d := d j; piece := piece j; action := action j;
         ret := v; flags := flags j; move_flags := move_flags j;
         in_use := in_use j; job_posted := job_posted j;
         callback_called := callback_called j; blocked := blocked j |}
  | init_flags v =>
      {| argument := argument j; storage := storage j; callback := callback j;
         error := error j; d := d j; piece := piece j; action := action j;
         ret := ret j; flags := v; move_flags := move_flags j;
         in_use := in_use j; job_posted := job_posted j;
         callback_called := callback_called j; blocked := blocked j |}
  | init_move_flags v =>
      {| argument := argument j; storage := storage j; callback := callback j;
         error := error j; d := d j; piece := piece j; action := action j;
         ret := ret j; flags := flags j; move_flags := v;
         in_use := in_use j; job_posted := job_posted j;
         callback_called := callback_called j; blocked := blocked j |}
  | init_in_use v =>
      {| argument := argument j; storage := storage j; callback := callback j;
         error := error j; d := d j; piece := piece j; action := action j;
         ret := ret j; flags := flags j; move_flags := move_flags j;
         in_use := v; job_posted := job_posted j;
         callback_called := callback_called j; blocked := blocked j |}
  | init_job_posted v =>
      {| argument := argument j; storage := storage j; callback := callback j;
         error := error j; d := d j; piece := piece j; action := action j;
         ret := ret j; flags := flags j; move_flags := move_flags j;
         in_use := in_use j; job_posted := v;
         callback_called := callback_called j; blocked := blocked j |}
  | init_callback_called v =>
      {| argument := argument j; storage := storage j; callback := callback j;
         error := error j; d := d j; piece := piece j; action := action j;
         ret := ret j; flags := flags j; move_flags := move_flags j;
         in_use := in_use j; job_posted := job_posted j;
         callback_called := v; blocked := blocked j |}
  | init_blocked v =>
      {| argument := argument j; storage := storage j; callback := callback j;
         error := error j; d := d j; piece := piece j; action := action j;
         ret := ret j; flags := flags j; move_flags := move_flags j;
         in_use := in_use j; job_posted := job_posted j;
         callback_called := callback_called j; blocked := v |}
  end.

(** Whether an initializer names [move_flags]. *)
Definition sets_move_flags (i : member_init) : bool :=
  match i with init_move_flags _ => true | _ => false end.

(** The members, and the one an initializer names. *)
Inductive member : Set :=
| m_argument | m_storage | m_callback | m_error | m_d | m_piece | m_action
| m_ret | m_flags | m_move_flags | m_in_use | m_job_posted | m_callback_called
| m_blocked.

Definition names (i : member_init) : member :=
  match i with
  | init_argument _ => m_argument
  | init_storage _ => m_storage
  | init_callback _ => m_callback
  | init_error _ => m_error
  | init_d _ => m_d
  | init_piece _ => m_piece
  | init_action _ => m_action
  | init_ret _ => m_ret
  | init_flags _ => m_flags
  | init_move_flags _ => m_move_flags
  | init_in_use _ => m_in_use
  | init_job_posted _ => m_job_posted
  | init_callback_called _ => m_callback_called
  | init_blocked _ => m_blocked
  end.

(** A construction: default initialization, then what the constructor
    sets, in order. *)
Definition construct (inits : list member_init) : disk_io_job :=
  foldl apply_init default_initialized inits.

End DiskIoJob.

(** ** The job system

    The header declares the job record and [call_callback], and names in
    its comments the queues a record is chained into; the queue type,
    the disk thread, the fence of a storage and the body of
    [call_callback] are defined in files that are not among the sources.
    This module is the system the spec describes around the record
    (its sections 2 to 5): a transition system whose states hold the
    records of the header. *)
Module JobSystem.
Import DiskIoJob.

(** [bool(flags & f)], [flags |= f], [flags &= ~f]. *)
Definition has_flag (f fl : disk_job_flags_t) : bool := negb (Z.land fl f =? 0).
Definition set_flag (f fl : disk_job_flags_t) : disk_job_flags_t := Z.lor fl f.
Definition clear_flag (f fl : disk_job_flags_t) : disk_job_flags_t :=
  Z.land fl (Z.lnot f).

(** Assignments to a member of a record. *)
Definition with_error (r : disk_io_job) (v : storage_error) : disk_io_job :=
  apply_init r (init_error v).
Definition with_ret (r : disk_io_job) (v : status_t) : disk_io_job :=
  apply_init r (init_ret v).
Definition with_d (r : disk_io_job) (v : un) : disk_io_job :=
  apply_init r (init_d v).
Definition with_flags (r : disk_io_job) (v : disk_job_flags_t) : disk_io_job :=
  apply_init r (init_flags v).
Definition with_in_use (r : disk_io_job) (v : bool) : disk_io_job :=
  apply_init r (init_in_use v).
Definition with_job_posted (r : disk_io_job) (v : bool) : disk_io_job :=
  apply_init r (init_job_posted v).
Definition with_blocked (r : disk_io_job) (v : bool) : disk_io_job :=
  apply_init r (init_blocked v).

(** Modelled from the spec: the kinds that raise a fence, which the
    sources do not say: "Operations that must raise a fence (by nature,
    destructive/structural): move_storage, release_files, delete_files,
    rename_file, file_priority changes that may invalidate open file
    handles, and stop_torrent/check_fastresume". *)
Definition raises_fence (a : job_action_t) : bool :=
  match a with
  | move_storage | release_files | delete_files | rename_file
  | file_priority | stop_torrent | check_fastresume => true
  | read | write | hash | hash2 | clear_piece | partial_read | num_job_ids => false
  end.

(** The fence a job raises when it begins execution: that of its
    storage, if its kind raises one. *)
Definition fence_of (r : disk_io_job) : option nat :=
  if raises_fence (action r) then storage r else None.

(** Modelled from the spec: the callback shape of a kind, which the
    sources do not say: "one callback shape per kind family (read,
    write, hash, hash2, move, release, check, rename, clear-piece,
    set-file-priority)". The family of a kind is the one that bears its
    name; for [delete_files], [stop_torrent] and [partial_read] (and the
    count [num_job_ids]) the spec names none. *)
Definition family_of (a : job_action_t) : option handler_kind :=
  match a with
  | read => Some k_read
  | write => Some k_write
  | hash => Some k_hash
  | hash2 => Some k_hash2
  | move_storage => Some k_move
  | release_files => Some k_release
  | check_fastresume => Some k_check
  | rename_file => Some k_rename
  | clear_piece => Some k_clear_piece
  | file_priority => Some k_set_file_prio
  | delete_files | stop_torrent | partial_read | num_job_ids => None
  end.

(** A pairing of kinds and callback alternatives that gives each kind
    of a named family the alternative of that family. *)
Definition respects_families (handler_for : job_action_t → handler_kind) : Prop :=
  ∀ a k, family_of a = Some k → handler_for a = k.

(** The callback variant holding the handler [h] in alternative [k]. *)
Definition make_callback (k : handler_kind) (h : handler) : callback_t :=
  match k with
  | k_read => read_handler h
  | k_write => write_handler h
  | k_hash => hash_handler h
  | k_hash2 => hash2_handler h
  | k_move => move_handler h
  | k_release => release_handler h
  | k_check => check_handler h
  | k_rename => rename_handler h
  | k_clear_piece => clear_piece_handler h
  | k_set_file_prio => set_file_prio_handler h
  end.

(** Modelled from the spec: how a job ends in the execution context,
    which the sources do not define: the operation was performed and
    gave an error or success, a status and the operation's output
    ("fills result/error"), or the job was aborted and short-circuited
    "to a failure completion without performing the underlying storage
    operation". *)
Inductive outcome : Type :=
| performed (err : storage_error) (st : status_t) (data : un)
| short_circuited (st : status_t).

(** The record holds the outcome: [error], [ret] and the result data
    [d] are those of the operation; for an aborted job the error is
    "operation aborted" (and no result was computed). *)
Definition carries (r : disk_io_job) (o : outcome) : Prop :=
  match o with
  | performed err st data => error r = err ∧ ret r = st ∧ d r = Some data
  | short_circuited st => error r = operation_aborted ∧ ret r = st
  end.

(** Modelled from the spec: the state of the job layer, which the
    sources do not define. Records are named by their address; a queue
    ("a singly-linked, FIFO-appending, pop-from-front list of Job
    Records") is the list of the records linked into it, first to last.
    The state holds the records in use; the pending-work queue; the jobs
    waiting on cache pieces and the jobs waiting for a fence, each
    family of queues kept as one list in arrival order, an entry naming
    its piece or storage; the holder of each raised fence; the jobs
    being performed; the completed jobs not yet dispatched; and three
    histories: the callbacks invoked (the record, the alternative
    invoked and the record as the callback received it), the jobs
    submitted (the record and its kind) and the jobs ended by the
    execution context (the record and the outcome). *)
Record system : Type := {
  jobs : gmap nat disk_io_job;
  pending : list nat;
  cache_wait : list (Z * nat);
  fence_wait : list (nat * nat);
  fences : gmap nat nat;
  executing : list nat;
  completed : list nat;
  calls : list (nat * (handler_kind * disk_io_job));
  submitted : list (nat * job_action_t);
  finished : list (nat * outcome);
}.

Definition initial : system := {|
  jobs := ∅; pending := []; cache_wait := []; fence_wait := [];
  fences := ∅; executing := []; completed := []; calls := []; submitted := [];
  finished := [];
|}.

Definition set_jobs (v : gmap nat disk_io_job) (s : system) : system :=
  {| jobs := v; pending := pending s; cache_wait := cache_wait s;
     fence_wait := fence_wait s; fences := fences s; executing := executing s;
     completed := completed s; calls := calls s; submitted := submitted s;
     finished := finished s |}.
Definition set_pending (v : list nat) (s : system) : system :=
  {| jobs := jobs s; pending := v; cache_wait := cache_wait s;
     fence_wait := fence_wait s; fences := fences s; executing := executing s;
     completed := completed s; calls := calls s; submitted := submitted s;
     finished := finished s |}.
Definition set_cache_wait (v : list (Z * nat)) (s : system) : system :=
  {| jobs := jobs s; pending := pending s; cache_wait := v;
     fence_wait := fence_wait s; fences := fences s; executing := executing s;
     completed := completed s; calls := calls s; submitted := submitted s;
     finished := finished s |}.
Definition set_fence_wait (v : list (nat * nat)) (s : system) : system :=
  {| jobs := jobs s; pending := pending s; cache_wait := cache_wait s;
     fence_wait := v; fences := fences s; executing := executing s;
     completed := completed s; calls := calls s; submitted := submitted s;
     finished := finished s |}.
Definition set_fences (v : gmap nat nat) (s : system) : system :=
  {| jobs := jobs s; pending := pending s; cache_wait := cache_wait s;
     fence_wait := fence_wait s; fences := v; executing := executing s;
     completed := completed s; calls := calls s; submitted := submitted s;
     finished := finished s |}.
Definition set_executing (v : list nat) (s : system) : system :=
  {| jobs := jobs s; pending := pending s; cache_wait := cache_wait s;
     fence_wait := fence_wait s; fences := fences s; executing := v;
     completed := completed s; calls := calls s; submitted := submitted s;
     finished := finished s |}.
Definition set_completed (v : list nat) (s : system) : system :=
  {| jobs := jobs s; pending := pending s; cache_wait := cache_wait s;
     fence_wait := fence_wait s; fences := fences s; executing := executing s;
     completed := v; calls := calls s; submitted := submitted s;
     finished := finished s |}.
Definition set_calls (v : list (nat * (handler_kind * disk_io_job))) (s : system)
  : system :=
  {| jobs := jobs s; pending := pending s; cache_wait := cache_wait s;
     fence_wait := fence_wait s; fences := fences s; executing := executing s;
     completed := completed s; calls := v; submitted := submitted s;
     finished := finished s |}.
Definition set_submitted (v : list (nat * job_action_t)) (s : system) : system :=
  {| jobs := jobs s; pending := pending s; cache_wait := cache_wait s;
     fence_wait := fence_wait s; fences := fences s; executing := executing s;
     completed := completed s; calls := calls s; submitted := v;
     finished := finished s |}.
Definition set_finished (v : list (nat * outcome)) (s : system) : system :=
  {| jobs := jobs s; pending := pending s; cache_wait := cache_wait s;
     fence_wait := fence_wait s; fences := fences s; executing := executing s;
     completed := completed s; calls := calls s; submitted := submitted s;
     finished := v |}.

(** The three kinds of queue, and the records linked into one. *)
Inductive queue : Type :=
| pending_work
| cache_piece_wait (p : Z)
| fence_wait_of (st : nat).

Definition queue_contents (s : system) (q : queue) : list nat :=
  match q with
  | pending_work => pending s
  | cache_piece_wait p => (filter (λ e, e.1 = p) (cache_wait s)).*2
  | fence_wait_of st => (filter (λ e, e.1 = st) (fence_wait s)).*2
  end.

(** The records being performed ("currently executing or pinned to a
    cache piece"), the records still to complete that no fence blocks,
    and every record held somewhere between submission and dispatch. *)
Definition running (s : system) : list nat :=
  (cache_wait s).*2 ++ executing s.

Definition active (s : system) : list nat :=
  pending s ++ (cache_wait s).*2 ++ executing s.

Definition held (s : system) : list nat :=
  active s ++ (fence_wait s).*2 ++ completed s.

(** A job taken from the pool. *)
Definition add_job (j : nat) (r : disk_io_job) (s : system) : system :=
  set_submitted (submitted s ++ [(j, action r)])
    (set_jobs (<[j := with_in_use r true]> (jobs s)) s).

(** Modelled from the spec: the beginning of a job's execution, which
    the sources do not define: the job is in progress, and a job of a
    kind that raises a fence raises the fence of its storage and holds
    it ("this job raised/holds a per-storage exclusion gate"). *)
Definition begin (j : nat) (r : disk_io_job) (s : system) : system :=
  let fl := set_flag in_progress (flags r) in
  match fence_of r with
  | Some st =>
      set_fences (<[st := j]> (fences s))
        (set_jobs (<[j := with_flags r (set_flag fence fl)]> (jobs s)) s)
  | None => set_jobs (<[j := with_flags r fl]> (jobs s)) s
  end.

(** A record of storage [st] is no longer blocked. *)
Definition unblock (st : nat) (r : disk_io_job) : disk_io_job :=
  if decide (storage r = Some st) then with_blocked r false else r.

(** Modelled from the spec: lowering the fence of a storage, which the
    sources do not define: "the entire wait queue for that storage is
    released back onto the pending-work queue in arrival order". *)
Definition lower_fence (st : nat) (s : system) : system :=
  set_jobs (unblock st <$> jobs s)
    (set_fences (delete st (fences s))
       (set_fence_wait (filter (λ e, e.1 ≠ st) (fence_wait s))
          (set_pending (pending s ++ (filter (λ e, e.1 = st) (fence_wait s)).*2) s))).

(** [r'] is [r] with, at most, other flags than the fence flag and
    other debug fields than [callback_called] and [job_posted]. *)
Definition same_job (r r' : disk_io_job) : Prop :=
  callback r' = callback r ∧ action r' = action r ∧ storage r' = storage r
  ∧ callback_called r' = callback_called r ∧ job_posted r' = job_posted r
  ∧ has_flag fence (flags r') = has_flag fence (flags r)
  ∧ error r' = error r ∧ ret r' = ret r ∧ d r' = d r.

(** The result fields of a record filled in from an outcome: the error,
    the status and, for an operation that was performed, its output. *)
Definition store_result (r : disk_io_job) (o : outcome) : disk_io_job :=
  match o with
  | performed err st data => with_d (with_ret (with_error r err) st) data
  | short_circuited st => with_ret (with_error r operation_aborted) st
  end.

(** The record of a completed job: the result filled in, [in_progress]
    and [fence] cleared, [job_posted] set. *)
Definition posted (r : disk_io_job) (o : outcome) : disk_io_job :=
  with_job_posted
    (with_flags (store_result r o)
       (clear_flag fence (clear_flag in_progress (flags r)))) true.

(** Modelled from the spec: completion of a job, which the sources do
    not define: the execution context "fills result/error", the record
    is posted to the completed jobs, and the fence bit "is cleared
    exactly once, on that job's completion", lowering the fence. *)
Definition complete (j : nat) (o : outcome) (s : system) : system :=
  match jobs s !! j with
  | None => s
  | Some r =>
      let s1 := set_finished (finished s ++ [(j, o)])
                  (set_completed (completed s ++ [j])
                     (set_jobs (<[j := posted r o]> (jobs s)) s)) in
      if has_flag fence (flags r)
      then match storage r with
           | Some sto => lower_fence sto s1
           | None => s1
           end
      else s1
  end.

(** Modelled from the spec: [call_callback], declared by the header and
    defined elsewhere: it "invokes the matching completion variant" with
    "the value held in result_data/result_error". The event is the
    alternative invoked and the record handed over. *)
Definition call_callback (r : disk_io_job) : handler_kind * disk_io_job :=
  (callback_index (callback r), r).

(** How many times the callback of [j] was invoked. *)
Definition times_called (s : system) (j : nat) : nat :=
  length (filter (λ c, c.1 = j) (calls s)).

(** The measure of the work left: a weight per held record, by where it
    is held; a record that has not begun weighs more the more records
    are still to complete, since each of those may raise a fence that
    defers it once more. *)
Definition unfinished (s : system) : nat :=
  length (pending s) + length (fence_wait s) + length (executing s)
  + length (cache_wait s).

Definition work_left (s : system) : nat :=
  (4 * unfinished s + 4) * length (pending s)
  + (4 * unfinished s + 2) * length (fence_wait s)
  + 3 * length (executing s) + 2 * length (cache_wait s) + length (completed s).

(** Modelled from the spec: what the control context gives to submit a
    job, which the sources do not define: the "kind + payload +
    callback", the storage and target the job applies to, and the
    arguments of the operation. *)
Record request : Type := {
  rq_action : job_action_t;
  rq_argument : argument_t;
  rq_storage : option nat;
  rq_handler : handler;
  rq_target : option Z;
  rq_d : option un;
  rq_move_flags : move_flags_t;
}.

Section Steps.

(** The alternative of the callback variant each kind of job is
    constructed with ("fully determined by kind"). *)
Variable handler_for : job_action_t → handler_kind.

(** Modelled from the spec: the record the control context constructs
    for a request, which the sources do not define: "construction binds
    kind to one payload shape and one completion shape"; the handler is
    stored in the alternative of the job's kind. *)
Definition new_job (q : request) : disk_io_job :=
  construct
    ([init_action (rq_action q); init_argument (rq_argument q);
      init_storage (rq_storage q);
      init_callback (make_callback (handler_for (rq_action q)) (rq_handler q));
      init_move_flags (rq_move_flags q)]
     ++ option_list (init_piece <$> rq_target q)
     ++ option_list (init_d <$> rq_d q)).

Definition fresh (j : nat) (s : system) : Prop :=
  jobs s !! j = None ∧ ¬ (j ∈ (submitted s).*1).

(** Modelled from the spec: the steps of the control context, which the
    sources do not define: it "constructs a Job Record (kind + payload +
    callback)" and "enqueues it (possibly deferred behind a Fence
    Synchronizer)": enqueued on the pending-work queue, or, "arriving
    for a fenced storage", queued on the wait queue of that storage; and
    it marks a job aborted. *)
Inductive external_step : system → system → Prop :=
| submit_pending s j q :
    fresh j s →
    (∀ st, rq_storage q = Some st → fences s !! st = None) →
    external_step s
      (set_pending (pending s ++ [j]) (add_job j (new_job q) s))
| submit_blocked s j q st h :
    fresh j s →
    rq_storage q = Some st → fences s !! st = Some h →
    external_step s
      (set_fence_wait (fence_wait s ++ [(st, j)])
         (add_job j (with_blocked (new_job q) true) s))
| abort s j r :
    jobs s !! j = Some r →
    external_step s
      (set_jobs (<[j := with_flags r (set_flag aborted (flags r))]> (jobs s)) s).

(** Modelled from the spec: the steps of the execution context and of
    the dispatcher, which the sources do not define. The execution
    context "dequeues, performs the operation, fills result/error". A
    job begins execution only while no fence is raised on its storage
    ("while a fence is raised by job J, no other job targeting the same
    storage begins execution until J completes and lowers the fence"),
    and a job that raises a fence only while no other job of its storage
    is being performed ("no job for that storage may run concurrently
    with the fencing job"); a job dequeued while its storage is fenced
    is queued on the wait queue of the storage. An aborted job, when
    dequeued, "must short-circuit to a failure completion without
    performing the underlying storage operation"; a job being performed
    may be left waiting on a cache piece, and is completed from there;
    the dispatcher "delivers the typed callback" and the record "is
    released to its pool". *)
Inductive internal_step : system → system → Prop :=
| dequeue_run s j rest r :
    pending s = j :: rest → jobs s !! j = Some r →
    has_flag aborted (flags r) = false →
    (∀ st, storage r = Some st → fences s !! st = None) →
    (∀ st i ri, fence_of r = Some st → i ∈ running s → jobs s !! i = Some ri →
                storage ri ≠ Some st) →
    internal_step s
      (set_executing (executing s ++ [j]) (begin j r (set_pending rest s)))
| defer s j rest r st h :
    pending s = j :: rest → jobs s !! j = Some r →
    has_flag aborted (flags r) = false →
    storage r = Some st → fences s !! st = Some h →
    internal_step s
      (set_fence_wait (fence_wait s ++ [(st, j)])
         (set_jobs (<[j := with_blocked r true]> (jobs s)) (set_pending rest s)))
| dequeue_aborted s j rest r st :
    pending s = j :: rest → jobs s !! j = Some r →
    has_flag aborted (flags r) = true →
    internal_step s (complete j (short_circuited st) (set_pending rest s))
| park s pre j post r p :
    executing s = pre ++ j :: post → jobs s !! j = Some r → piece r = Some p →
    internal_step s
      (set_cache_wait (cache_wait s ++ [(p, j)]) (set_executing (pre ++ post) s))
| perform s pre j post err st data :
    executing s = pre ++ j :: post →
    internal_step s
      (complete j (performed err st data) (set_executing (pre ++ post) s))
| flush s pre p j post err st data :
    cache_wait s = pre ++ (p, j) :: post → p ∉ pre.*1 →
    internal_step s
      (complete j (performed err st data) (set_cache_wait (pre ++ post) s))
| dispatch s j rest r :
    completed s = j :: rest → jobs s !! j = Some r →
    internal_step s
      (set_calls (calls s ++ [(j, call_callback r)])
         (set_jobs (delete j (jobs s)) (set_completed rest s))).

(** What holds of every state the system can reach: a record is held in
    one place at a time, and not again once its callback was invoked; the
    records in use are the held ones; a submitted job is held or was
    called back, and was submitted once; a record keeps the kind it was
    submitted with and the callback alternative of that kind, has not
    been called back, and once completed is posted and carries the
    outcome the execution context ended it with; every invocation was
    of the alternative the record held, that of its kind, on a posted
    record that carried its outcome; a job was ended once, and is then
    completed or called back; a fence with waiting jobs has a holder,
    which is being performed, and the fence flag marks the holders; while
    a fence is raised no other job of the storage is being performed; and
    a job of a kind that raises a fence holds it while it is
    performed. *)
Record invariant (s : system) : Prop := {
  inv_nodup : NoDup (held s ++ (calls s).*1);
  inv_live : ∀ j, is_Some (jobs s !! j) ↔ j ∈ held s;
  inv_submitted : ∀ j, j ∈ (submitted s).*1 ↔ j ∈ held s ∨ j ∈ (calls s).*1;
  inv_submitted_once : NoDup (submitted s).*1;
  inv_record : ∀ j r, jobs s !! j = Some r →
    (j, action r) ∈ submitted s
    ∧ callback_index (callback r) = handler_for (action r)
    ∧ callback_called r = false
    ∧ (j ∈ completed s →
       job_posted r = true ∧ ∃ o, (j, o) ∈ finished s ∧ carries r o);
  inv_calls : ∀ j k r, (j, (k, r)) ∈ calls s →
    (j, action r) ∈ submitted s
    ∧ k = callback_index (callback r)
    ∧ k = handler_for (action r)
    ∧ job_posted r = true ∧ callback_called r = false
    ∧ ∃ o, (j, o) ∈ finished s ∧ carries r o;
  inv_finished_once : NoDup (finished s).*1;
  inv_finished : ∀ j, j ∈ (finished s).*1 → j ∈ completed s ∨ j ∈ (calls s).*1;
  inv_wait : ∀ st j, (st, j) ∈ fence_wait s → is_Some (fences s !! st);
  inv_holder : ∀ st h, fences s !! st = Some h →
    h ∈ running s
    ∧ ∃ r, jobs s !! h = Some r ∧ storage r = Some st
           ∧ has_flag fence (flags r) = true;
  inv_fence_flag : ∀ j r, jobs s !! j = Some r →
    has_flag fence (flags r) = true →
    ∃ st, storage r = Some st ∧ fences s !! st = Some j;
  inv_exclusive : ∀ st h i r, fences s !! st = Some h →
    i ∈ running s → jobs s !! i = Some r → storage r = Some st → i = h;
  inv_fencing : ∀ st i r, i ∈ running s → jobs s !! i = Some r →
    fence_of r = Some st → fences s !! st = Some i;
}.

Definition step (s s' : system) : Prop :=
  external_step s s' ∨ internal_step s s'.

Definition reachable (s : system) : Prop := rtc step initial s.

(** No step of the execution context or the dispatcher is possible. *)
Definition quiescent (s : system) : Prop := ∀ s', ¬ internal_step s s'.

End Steps.

(** One pairing of kinds and callback alternatives, for the examples. *)
Definition example_handler_for (a : job_action_t) : handler_kind :=
  match a with
  | read | partial_read => k_read
  | write | delete_files => k_write
  | hash => k_hash
  | hash2 => k_hash2
  | move_storage => k_move
  | release_files | stop_torrent | num_job_ids => k_release
  | check_fastresume => k_check
  | rename_file => k_rename
  | file_priority => k_set_file_prio
  | clear_piece => k_clear_piece
  end.

(** A write job for piece 5, and the state after it is submitted. *)
Definition example_job : disk_io_job :=
  construct [init_action write; init_callback (write_handler (Some 0%nat));
             init_piece 5].

Definition example_state : system :=
  set_pending (pending initial ++ [0%nat]) (add_job 0 example_job initial).

(** The request that submits [example_job]. *)
Definition example_request : request :=
  {| rq_action := write; rq_argument := arg_disk_buffer_holder None;
     rq_storage := None; rq_handler := Some 0%nat; rq_target := Some 5;
     rq_d := None; rq_move_flags := always_replace_files |}.

End JobSystem.

(** ** The session delegate *)
Module SessionDelegate.

Section Delegate.

(** Everything a member function of a delegate could change: the data
    members of the object of the derived class and whatever else the
    program holds. The base class has no data members. *)
Variable World : Type.

(** The body of [session_delegate::checkDownloadLimit]: [return true]. *)
Definition checkDownloadLimit_base (w : World) (reciept : list Z)
    (downloadChannelId : DiskIoJob.sha256_hash) (downloadedSize : Z)
  : bool * World :=
  (true, w).

(** The body of [session_delegate::onPiece]: empty. *)
Definition onPiece_base (w : World) (pieceSize : Z) : World := w.

(** A class derived from [session_delegate]: for each of the two virtual
    functions that have a body in the base class, its override, if it
    has one. *)
Record derived_class : Type := {
  override_checkDownloadLimit :
    option (World → list Z → DiskIoJob.sha256_hash → Z → bool * World);
  override_onPiece : option (World → Z → World);
}.

(** A virtual call: the final overrider. *)
Definition checkDownloadLimit (cls : derived_class)
  : World → list Z → DiskIoJob.sha256_hash → Z → bool * World :=
  match override_checkDownloadLimit cls with
  | Some f => f
  | None => checkDownloadLimit_base
  end.

Definition onPiece (cls : derived_class) : World → Z → World :=
  match override_onPiece cls with
  | Some f => f
  | None => onPiece_base
  end.

End Delegate.

End SessionDelegate.

(** ** Big-endian representation

    The reference notions the codec is compared with: the digit of weight
    [256^i] of a value, the [n] digits most significant first, and the
    value a sequence of cells denotes when the first is the most
    significant (a cell counts by its eight bits, [c mod 256]). *)
Module BigEndian.

Definition be_digit (val : Z) (i : nat) : Z :=
  Z.shiftr val (8 * Z.of_nat i) mod 256.

Fixpoint be_bytes (val : Z) (n : nat) : list Z :=
  match n with
  | O => []
  | S i => be_digit val i :: be_bytes val i
  end.

Fixpoint be_value (cells : list Z) : Z :=
  match cells with
  | [] => 0
  | c :: cs => (c mod 256) * 2 ^ (8 * Z.of_nat (length cs)) + be_value cs
  end.

(** The buffer after the [n] digits of [val] are stored at offset [o]
    as bytes of signedness [sg]. *)
Definition written (sg : bool) (buf : list Z) (o : nat) (val : Z) (n : nat)
  : list Z :=
  take o buf ++ (Io.static_cast (Io.byte_type sg) <$> be_bytes val n)
    ++ drop (o + n) buf.

End BigEndian.

(** ** Hexadecimal strings

    The free functions of [session_delegate.h]: [toString] on a raw
    buffer, [toString] on a [std::array] and [toHex]. An access outside
    a buffer and an overflow of an [int] are undefined behaviour: the
    result is then [None]. The buffers [in] and [out] of the raw
    [toString] are separate objects, as they are in the other two. *)
Module HexString.
Import Io.

(** [std::size_t] is 64 bits wide on the platforms the library builds
    for. *)
Definition size_t : int_type := uint64_t.

(** The literal ["0123456789abcdef"], with its terminating zero. *)
Definition hex_chars : list Z :=
  [48; 49; 50; 51; 52; 53; 54; 55; 56; 57; 97; 98; 99; 100; 101; 102; 0].

(** [p[i]], read and written. *)
Definition index {sg : bool} (p : pointer sg) (i : nat) : option Z :=
  buffer p !! (offset p + i)%nat.

Definition store {sg : bool} (p : pointer sg) (i : nat) (v : Z)
  : option (pointer sg) :=
  if decide (offset p + i < length (buffer p))%nat
  then Some (Pointer (<[(offset p + i)%nat := static_cast (byte_type sg) v]> (buffer p))
                     (offset p))
  else None.

(** [idx++] on an [int]. *)
Definition post_incr (idx : nat) : option nat :=
  if decide (Z.of_nat idx + 1 ≤ max_value int_t) then Some (S idx) else None.

(** The loop of [toString], [n] iterations left. *)
Fixpoint toString_loop {cfg : BuildConfig} (n : nat) (in_ : pointer false)
    (i idx : nat) (out : pointer char_is_signed)
  : option (pointer char_is_signed) :=
  match n with
  | O => Some out
  | S n' =>
      b ← index in_ i;
      hi ← hex_chars !! Z.to_nat (Z.shiftr (static_cast uint8_t b) 4);
      out ← store out idx hi;
      idx ← post_incr idx;
      b ← index in_ i;
      lo ← hex_chars !! Z.to_nat (Z.land (static_cast uint8_t b) 15);
      out ← store out idx lo;
      idx ← post_incr idx;
      toString_loop n' in_ (S i) idx out
  end.

(** [toString(const uint8_t* in, int const len, char* out)]: the loop
    runs for [i = 0], ..., [len - 1], not at all when [len ≤ 0]. *)
Definition toString {cfg : BuildConfig} (in_ : pointer false) (len : Z)
    (out : pointer char_is_signed) : option (pointer char_is_signed) :=
  toString_loop (Z.to_nat len) in_ 0 0 out.

(** [toString(std::array<uint8_t,N> in)]: the array is its elements;
    [2*N] is computed in [std::size_t]; [resize] fills the string with
    zeros; [N] is passed as an [int]. *)
Definition toString_array {cfg : BuildConfig} (in_ : list Z) : option (list Z) :=
  let N := length in_ in
  if decide (0 < N)%nat
  then let ret := replicate (Z.to_nat (static_cast size_t (2 * Z.of_nat N))) 0 in
       out ← toString (Pointer in_ 0) (static_cast int_t (Z.of_nat N)) (Pointer ret 0);
       Some (buffer out)
  else Some [].

(** [toHex(const char* ptr, size_t len)]: the characters are read as
    [uint8_t] through the [reinterpret_cast]; [len] is passed on as an
    [int]. *)
Definition toHex {cfg : BuildConfig} (ptr : pointer char_is_signed) (len : nat)
  : option (list Z) :=
  if decide (0 < len)%nat
  then let ret := replicate (Z.to_nat (static_cast size_t (2 * Z.of_nat len))) 0 in
       out ← toString (Pointer (static_cast uint8_t <$> buffer ptr) (offset ptr))
                      (static_cast int_t (Z.of_nat len)) (Pointer ret 0);
       Some (buffer out)
  else Some [].

(** *** Reference notions

    The digit of a nibble, the two digits of a byte (a cell counts by
    its eight bits), the text of a sequence of bytes, and the reading of
    such a text. *)
Definition hex_digit (k : Z) : Z := if decide (k < 10) then 48 + k else 87 + k.

Definition hex_of_byte (c : Z) : list Z :=
  [hex_digit (c mod 256 / 16); hex_digit (c mod 256 mod 16)].

Definition hex_of (bytes : list Z) : list Z := bytes ≫= hex_of_byte.

Definition hex_value (c : Z) : option Z :=
  if decide (48 ≤ c ≤ 57) then Some (c - 48)
  else if decide (97 ≤ c ≤ 102) then Some (c - 87)
  else None.

Fixpoint unhex (s : list Z) : option (list Z) :=
  match s with
  | [] => Some []
  | [_] => None
  | h :: l :: rest =>
      hv ← hex_value h; lv ← hex_value l; bytes ← unhex rest;
      Some (16 * hv + lv :: bytes)
  end.

End HexString.

(** * Properties of the codec *)

Import Io BigEndian.

(** ** Examples *)

Example write_uint32_bytes :
  write_uint32 (cfg:=debug_build) uint32_t 16909060 (Pointer (sg:=false) [0; 0; 0; 0; 0] 1)
  = Ok (Pointer [0; 1; 2; 3; 4] 5).
Proof. reflexivity. Qed.

Example write_uint32_signed_cells :
  write_uint32 (cfg:=debug_build) uint32_t 4294967295 (Pointer (sg:=true) [0; 0; 0; 0] 0)
  = Ok (Pointer [-1; -1; -1; -1] 4).
Proof. reflexivity. Qed.

Example read_int16_negative :
  read_int16 (Pointer (sg:=false) [255; 254] 0) = Ok (-2, Pointer [255; 254] 2).
Proof. reflexivity. Qed.

Example write_uint8_assertion :
  write_uint8 (cfg:=debug_build) int32_t 300 (Pointer (sg:=false) [0] 0)
  = Fault assertion_failed.
Proof. reflexivity. Qed.

Example write_uint8_release_build :
  write_uint8 (cfg:={| TORRENT_USE_ASSERTS := false; char_is_signed := true |})
    int32_t 300 (Pointer (sg:=false) [0] 0)
  = Ok (Pointer [44] 1).
Proof. reflexivity. Qed.

Example write_past_the_end :
  write_uint16 (cfg:=debug_build) uint16_t 258 (Pointer (sg:=false) [0; 0] 1)
  = Fault out_of_bounds.
Proof. reflexivity. Qed.

(** ** Conversions *)

Lemma bits_ge_8 T : 8 ≤ bits T.
Proof. destruct T; unfold bits; simpl; lia. Qed.

Lemma modulus_pos T : 0 < 2 ^ bits T.
Proof. apply Z.pow_pos_nonneg; [lia | pose proof (bits_ge_8 T); lia]. Qed.

Lemma modulus_half T : 2 ^ bits T = 2 * 2 ^ (bits T - 1).
Proof.
  pose proof (bits_ge_8 T).
  rewrite <- Z.pow_succ_r by lia. f_equal. lia.
Qed.

(** The modulus of every type is a multiple of 256. *)
Lemma modulus_256 T : 2 ^ bits T = 256 * 2 ^ (bits T - 8).
Proof.
  pose proof (bits_ge_8 T).
  change 256 with (2 ^ 8). rewrite <- Z.pow_add_r by lia. f_equal. lia.
Qed.

Lemma static_cast_mod T x : static_cast T x mod 2 ^ bits T = x mod 2 ^ bits T.
Proof.
  pose proof (modulus_pos T). unfold static_cast; cbv zeta.
  destruct (is_signed T && _).
  - replace (x mod 2 ^ bits T - 2 ^ bits T)
      with (x mod 2 ^ bits T + (-1) * 2 ^ bits T) by lia.
    rewrite Z_mod_plus_full. apply Z.mod_mod. lia.
  - apply Z.mod_mod. lia.
Qed.

Lemma static_cast_congr T x y :
  x mod 2 ^ bits T = y mod 2 ^ bits T → static_cast T x = static_cast T y.
Proof. unfold static_cast. by intros ->. Qed.

Lemma static_cast_representable T x : representable T (static_cast T x).
Proof.
  pose proof (modulus_pos T). pose proof (modulus_half T).
  pose proof (Z.mod_pos_bound x (2 ^ bits T)).
  unfold representable, min_value, max_value, static_cast; cbv zeta.
  destruct (is_signed T); simpl; [|lia].
  destruct (Z.leb_spec (2 ^ (bits T - 1)) (x mod 2 ^ bits T)); lia.
Qed.

Lemma static_cast_id T x : representable T x → static_cast T x = x.
Proof.
  pose proof (modulus_pos T). pose proof (modulus_half T).
  unfold representable, min_value, max_value, static_cast; cbv zeta.
  destruct (is_signed T); simpl; intros Hx.
  - destruct (Z.le_gt_cases 0 x).
    + rewrite Z.mod_small by lia.
      destruct (Z.leb_spec (2 ^ (bits T - 1)) x); lia.
    + rewrite <- (Z_mod_plus_full x 1 (2 ^ bits T)), Z.mod_small by lia.
      destruct (Z.leb_spec (2 ^ (bits T - 1)) (x + 1 * 2 ^ bits T)); lia.
  - apply Z.mod_small. lia.
Qed.

Lemma static_cast_idemp T x : static_cast T (static_cast T x) = static_cast T x.
Proof. apply static_cast_id, static_cast_representable. Qed.

(** Converting to a narrower-or-equal modulus after a wider one. *)
Lemma static_cast_mod_256 T x : static_cast T x mod 256 = x mod 256.
Proof.
  pose proof (bits_ge_8 T). pose proof (modulus_pos T).
  pose proof (static_cast_mod T x) as Hm.
  assert (Hpow : 0 < 2 ^ (bits T - 8)) by (apply Z.pow_pos_nonneg; lia).
  rewrite (modulus_256 T) in Hm.
  rewrite !Z.rem_mul_r in Hm by lia.
  pose proof (Z.mod_pos_bound (static_cast T x) 256).
  pose proof (Z.mod_pos_bound x 256).
  pose proof (Z.mod_pos_bound (static_cast T x / 256) (2 ^ (bits T - 8))).
  pose proof (Z.mod_pos_bound (x / 256) (2 ^ (bits T - 8))).
  nia.
Qed.

Lemma static_cast_uint8 x : static_cast uint8_t x = x mod 256.
Proof. reflexivity. Qed.

(** Reading a stored byte back as [std::uint8_t] gives its eight bits. *)
Lemma uint8_of_byte B x :
  sizeof B = 1%nat → static_cast uint8_t (static_cast B x) = x mod 256.
Proof. intros _. rewrite static_cast_uint8. apply static_cast_mod_256. Qed.

(** ** Big-endian digits *)

Lemma land_255 x : Z.land x 255 = x mod 256.
Proof. change 255 with (Z.ones 8). by rewrite Z.land_ones. Qed.

Lemma be_bytes_length val n : length (be_bytes val n) = n.
Proof. induction n; simpl; congruence. Qed.

Lemma be_bytes_lookup val n i :
  (i < n)%nat → be_bytes val n !! i = Some (be_digit val (n - 1 - i)).
Proof.
  revert i. induction n as [|n IH]; intros i Hi; [lia|].
  destruct i as [|i]; simpl.
  - do 2 f_equal. lia.
  - rewrite IH by lia. do 2 f_equal. lia.
Qed.

Lemma be_digit_range val i : 0 ≤ be_digit val i < 256.
Proof. unfold be_digit. apply Z.mod_pos_bound. lia. Qed.

(** The digits depend on the value only modulo the width written. *)
Lemma be_digit_static_cast T x i :
  (i < sizeof T)%nat → be_digit (static_cast T x) i = be_digit x i.
Proof.
  intros Hi. unfold be_digit.
  rewrite !Z.shiftr_div_pow2 by lia.
  assert (Hsplit : 2 ^ bits T
                   = 2 ^ (8 * Z.of_nat i) * (256 * 2 ^ (bits T - 8 * Z.of_nat i - 8))).
  { change 256 with (2 ^ 8). unfold bits.
    rewrite <- !Z.pow_add_r by lia. f_equal. lia. }
  assert (0 < 2 ^ (8 * Z.of_nat i)) by (apply Z.pow_pos_nonneg; lia).
  assert (0 < 2 ^ (bits T - 8 * Z.of_nat i - 8))
    by (apply Z.pow_pos_nonneg; unfold bits; lia).
  pose proof (static_cast_mod T x) as Hm. rewrite Hsplit in Hm.
  rewrite !(Z.rem_mul_r _ (2 ^ (8 * Z.of_nat i))) in Hm by lia.
  rewrite !(Z.rem_mul_r _ 256) in Hm by lia.
  pose proof (Z.mod_pos_bound (static_cast T x) (2 ^ (8 * Z.of_nat i))).
  pose proof (Z.mod_pos_bound x (2 ^ (8 * Z.of_nat i))).
  pose proof (Z.mod_pos_bound (static_cast T x / 2 ^ (8 * Z.of_nat i)) 256).
  pose proof (Z.mod_pos_bound (x / 2 ^ (8 * Z.of_nat i)) 256).
  set (P := 2 ^ (8 * Z.of_nat i)) in *.
  set (a := static_cast T x mod P) in *. set (a' := x mod P) in *.
  set (d := (static_cast T x / P) mod 256) in *.
  set (d' := (x / P) mod 256) in *.
  set (e := 256 * _) in Hm. set (e' := 256 * _) in Hm.
  assert (a + P * d = a' + P * d' ∨ a + P * d ≠ a' + P * d') as [?|Hne] by lia.
  - assert (P * (d - d') = a' - a) by lia. nia.
  - exfalso. apply Hne.
    assert (Hmod : (a + P * (d + e)) mod (P * 256) = (a' + P * (d' + e')) mod (P * 256))
      by (f_equal; lia).
    replace (a + P * (d + e)) with (a + P * d + (e / 256) * (P * 256)) in Hmod.
    2:{ subst e. rewrite (Z.mul_comm 256 (_ mod _)), Z.div_mul by lia. lia. }
    replace (a' + P * (d' + e')) with (a' + P * d' + (e' / 256) * (P * 256)) in Hmod.
    2:{ subst e'. rewrite (Z.mul_comm 256 (_ mod _)), Z.div_mul by lia. lia. }
    rewrite !Z_mod_plus_full in Hmod.
    rewrite !Z.mod_small in Hmod by nia. done.
Qed.

Lemma be_value_be_bytes B val n :
  be_value (static_cast (byte_type B) <$> be_bytes val n)
  = val mod 2 ^ (8 * Z.of_nat n).
Proof.
  induction n as [|n IH]; simpl be_bytes.
  - simpl. by rewrite Z.mod_1_r.
  - rewrite fmap_cons. simpl be_value.
    rewrite IH, length_fmap, be_bytes_length.
    rewrite static_cast_mod_256.
    pose proof (be_digit_range val n). rewrite (Z.mod_small (be_digit val n)) by lia.
    unfold be_digit. rewrite Z.shiftr_div_pow2 by lia.
    replace (8 * Z.of_nat (S n)) with (8 * Z.of_nat n + 8) by lia.
    rewrite Z.pow_add_r by lia. change (2 ^ 8) with 256.
    assert (0 < 2 ^ (8 * Z.of_nat n)) by (apply Z.pow_pos_nonneg; lia).
    rewrite Z.rem_mul_r by lia. lia.
Qed.

Lemma be_value_range cells : 0 ≤ be_value cells < 2 ^ (8 * Z.of_nat (length cells)).
Proof.
  induction cells as [|c cs IH]; simpl be_value; simpl length.
  - simpl. lia.
  - replace (8 * Z.of_nat (S (length cs))) with (8 + 8 * Z.of_nat (length cs)) by lia.
    rewrite Z.pow_add_r by lia. change (2 ^ 8) with 256.
    pose proof (Z.mod_pos_bound c 256). nia.
Qed.

(** ** The write loop *)

(** The cells [write_loop] stores through an iterator of byte type [B]. *)
Lemma write_loop_value B val i :
  static_cast B (Z.land (Z.shiftr val (Z.of_nat i * 8)) 255)
  = static_cast B (be_digit val i).
Proof. unfold be_digit. by rewrite land_255, (Z.mul_comm _ 8). Qed.

Lemma write_loop_pointer sg val n buf o :
  (o + n ≤ length buf)%nat →
  write_loop val n (Pointer (sg:=sg) buf o)
  = Ok (Pointer (take o buf ++ (static_cast (byte_type sg) <$> be_bytes val n)
                   ++ drop (o + n) buf) (o + n)).
Proof.
  revert buf o. induction n as [|n IH]; intros buf o Hlen.
  - simpl. rewrite !Nat.add_0_r, take_drop. done.
  - cbn [write_loop]. cbn [assign_incr pointer_OutIt Byte buffer offset].
    rewrite decide_True by lia. cbn [mbind result_bind].
    rewrite IH by (rewrite length_insert; lia).
    rewrite write_loop_value, static_cast_idemp.
    rewrite insert_take_drop by lia.
    f_equal. f_equal; [|lia].
    replace (S o) with (o + 1)%nat by lia.
    rewrite take_app_add' by (rewrite length_take; lia).
    replace (o + 1 + n)%nat with (o + S n)%nat by lia.
    rewrite drop_app_add' by (rewrite length_take; lia).
    cbn [take drop be_bytes]. rewrite fmap_cons, drop_drop, <- app_assoc.
    rewrite take_0. cbn [app]. do 4 f_equal. lia.
Qed.

Lemma write_loop_back_insert {cfg : BuildConfig} sg val n c :
  write_loop val n (BackInserter (sg:=sg) c)
  = Ok (BackInserter (c ++ (static_cast (byte_type sg) <$> be_bytes val n))).
Proof.
  revert c. induction n as [|n IH]; intros c.
  - simpl. by rewrite app_nil_r.
  - cbn [write_loop]. cbn [assign_incr back_insert_OutIt Byte container].
    cbn [mbind result_bind]. rewrite IH, write_loop_value.
    cbn [be_bytes]. rewrite fmap_cons, <- app_assoc. cbn [app].
    do 4 f_equal. apply static_cast_congr.
    pose proof (modulus_256 (byte_type sg)) as Hm. pose proof (byte_type_size sg) as Hs.
    unfold bits in *. rewrite Hs in *. change (2 ^ (8 * Z.of_nat 1)) with 256.
    apply static_cast_mod_256.
Qed.

(** ** The read loop *)

Lemma mod_congr_mul_add M a b p v :
  M ≠ 0 → a mod M = b mod M → (a * p + v) mod M = (b * p + v) mod M.
Proof.
  intros HM Hab.
  rewrite (Z.add_mod (a * p)), (Z.add_mod (b * p)) by done.
  rewrite (Z.mul_mod a), (Z.mul_mod b) by done. by rewrite Hab.
Qed.

(** One iteration: shifting in a byte is [ret * 256 + byte] modulo the
    width. *)
Lemma read_step_congr T ret c :
  static_cast T (Z.lor (static_cast T (Z.shiftl ret 8)) (static_cast uint8_t c))
    mod 2 ^ bits T
  = (ret * 256 + c mod 256) mod 2 ^ bits T.
Proof.
  pose proof (modulus_pos T).
  rewrite static_cast_mod, static_cast_uint8.
  set (s := static_cast T (Z.shiftl ret 8)).
  assert (Hs : s mod 256 = 0).
  { subst s. rewrite static_cast_mod_256, Z.shiftl_mul_pow2 by lia.
    apply Z.mod_mul. lia. }
  assert (Hland : Z.land s (c mod 256) = 0).
  { apply Z.bits_inj'. intros n Hn. rewrite Z.land_spec, Z.bits_0.
    destruct (Z.lt_ge_cases n 8).
    - rewrite (Z.div_mod s 256), Hs, Z.add_0_r, Z.mul_comm by lia.
      change 256 with (2 ^ 8). by rewrite Z.mul_pow2_bits_low.
    - change 256 with (2 ^ 8). rewrite Z.mod_pow2_bits_high by lia.
      apply andb_false_r. }
  rewrite <- Z.add_nocarry_lor by done.
  rewrite Z.add_mod by lia. subst s.
  rewrite static_cast_mod, Z.shiftl_mul_pow2 by lia.
  rewrite <- Z.add_mod by lia. done.
Qed.

Lemma deref_incr_pointer sg buf o :
  deref_incr (Pointer (sg:=sg) buf o)
  = match buf !! o with
    | Some c => Ok (c, Pointer buf (S o))
    | None => Fault out_of_bounds
    end.
Proof. reflexivity. Qed.

Lemma read_loop_pointer sg T pre cells post ret :
  representable T ret →
  read_loop T (length cells) ret (Pointer (sg:=sg) (pre ++ cells ++ post) (length pre))
  = Ok (static_cast T (ret * 2 ^ (8 * Z.of_nat (length cells)) + be_value cells),
        Pointer (pre ++ cells ++ post) (length pre + length cells)).
Proof.
  revert pre ret. induction cells as [|c cs IH]; intros pre ret Hret.
  - simpl. rewrite Z.mul_1_r, Z.add_0_r, static_cast_id, Nat.add_0_r; done.
  - cbn [length read_loop]. rewrite deref_incr_pointer.
    replace (pre ++ (c :: cs) ++ post) with (pre ++ c :: cs ++ post) by done.
    rewrite list_lookup_middle by done.
    cbn [mbind result_bind].
    replace (pre ++ c :: cs ++ post) with ((pre ++ [c]) ++ cs ++ post)
      by (by rewrite <- app_assoc).
    replace (S (length pre)) with (length (pre ++ [c]))
      by (rewrite length_app; simpl; lia).
    rewrite IH by apply static_cast_representable.
    f_equal. f_equal.
    + apply static_cast_congr. cbn [be_value].
      pose proof (modulus_pos T).
      rewrite (mod_congr_mul_add (2 ^ bits T) _ (ret * 256 + c mod 256));
        [|lia|apply read_step_congr].
      f_equal.
      replace (8 * Z.of_nat (S (length cs))) with (8 + 8 * Z.of_nat (length cs)) by lia.
      rewrite Z.pow_add_r by lia. change (2 ^ 8) with 256. lia.
    + f_equal. rewrite length_app. simpl. lia.
Qed.

(** [read_impl], primary template or specialisation, decodes the
    [sizeof(T)] cells under the pointer as a big-endian number. *)
Lemma read_impl_pointer sg T pre cells post :
  length cells = sizeof T →
  read_impl T (Pointer (sg:=sg) (pre ++ cells ++ post) (length pre))
  = Ok (static_cast T (be_value cells),
        Pointer (pre ++ cells ++ post) (length pre + sizeof T)).
Proof.
  intros Hlen.
  assert (Hprim : read_impl_primary T (Pointer (sg:=sg) (pre ++ cells ++ post) (length pre))
          = Ok (static_cast T (be_value cells),
                Pointer (pre ++ cells ++ post) (length pre + sizeof T))).
  { unfold read_impl_primary. rewrite <- Hlen.
    rewrite read_loop_pointer by (by destruct T). by rewrite Z.mul_0_l, Z.add_0_l. }
  destruct T; try exact Hprim; clear Hprim;
    destruct cells as [|c [|??]]; try done;
    unfold read_impl, read_impl_int8, read_impl_uint8;
    rewrite deref_incr_pointer; cbn [app];
    rewrite list_lookup_middle by done; cbn [mbind result_bind sizeof];
    (f_equal; f_equal; [|f_equal; lia]);
    apply static_cast_congr; cbn [be_value length];
    change (2 ^ bits _) with 256; change (2 ^ (8 * Z.of_nat 0)) with 1;
    rewrite Z.mul_1_r, Z.add_0_r, Z.mod_mod; done.
Qed.

(** ** [write_impl] and [read_impl] through a pointer *)

Lemma write_assertion_representable T In data :
  representable In data → representable T data → write_assertion T In data = true.
Proof.
  intros HIn HT. unfold write_assertion.
  rewrite (static_cast_id T), (static_cast_id In) by done. apply Z.eqb_refl.
Qed.

Lemma assertion_passes_representable {cfg : BuildConfig} T In data :
  representable In data → representable T data → assertion_passes T In data.
Proof. intros ?? _. by apply write_assertion_representable. Qed.

Lemma write_impl_pointer {cfg : BuildConfig} sg T In data buf o :
  assertion_passes T In data →
  (o + sizeof T ≤ length buf)%nat →
  write_impl T In data (Pointer (sg:=sg) buf o)
  = Ok (Pointer (written sg buf o (static_cast T data) (sizeof T)) (o + sizeof T)).
Proof.
  intros Hassert Hlen. unfold write_impl, assertion_passes in *.
  destruct TORRENT_USE_ASSERTS; cbn [andb].
  - rewrite Hassert by done. cbn [negb]. by apply write_loop_pointer.
  - by apply write_loop_pointer.
Qed.

Lemma written_length sg buf o val n :
  (o + n ≤ length buf)%nat → length (written sg buf o val n) = length buf.
Proof.
  intros. unfold written.
  rewrite !length_app, length_take, length_fmap, be_bytes_length, length_drop. lia.
Qed.

Lemma written_lookup_outside sg buf o val n j :
  (o + n ≤ length buf)%nat → (j < o ∨ o + n ≤ j)%nat →
  written sg buf o val n !! j = buf !! j.
Proof.
  intros Hlen Hj. unfold written. destruct Hj as [Hj|Hj].
  - rewrite lookup_app_l by (rewrite length_take; lia). by apply lookup_take_lt.
  - rewrite lookup_app_r by (rewrite length_take; lia).
    rewrite lookup_app_r by (rewrite length_take, length_fmap, be_bytes_length; lia).
    rewrite lookup_drop, length_take, length_fmap, be_bytes_length. f_equal. lia.
Qed.

Lemma written_lookup_inside sg buf o val n i :
  (o + n ≤ length buf)%nat → (i < n)%nat →
  written sg buf o val n !! (o + i)%nat
  = Some (static_cast (byte_type sg) (be_digit val (n - 1 - i))).
Proof.
  intros Hlen Hi. unfold written.
  rewrite lookup_app_r by (rewrite length_take; lia).
  rewrite lookup_app_l by (rewrite length_fmap, be_bytes_length, length_take; lia).
  rewrite list_lookup_fmap, length_take.
  replace (o + i - o `min` length buf)%nat with i by lia.
  by rewrite be_bytes_lookup.
Qed.

(** Reading back what was written, at any width. *)
Lemma write_read_pointer {cfg : BuildConfig} sg T In data buf o :
  representable In data → representable T data →
  (o + sizeof T ≤ length buf)%nat →
  ∃ buf',
    write_impl T In data (Pointer (sg:=sg) buf o) = Ok (Pointer buf' (o + sizeof T))
    ∧ read_impl T (Pointer (sg:=sg) buf' o) = Ok (data, Pointer buf' (o + sizeof T)).
Proof.
  intros HIn HT Hlen. eexists. split.
  - apply write_impl_pointer; [by apply assertion_passes_representable | done].
  - rewrite (static_cast_id T data) by done. unfold written.
    pose proof (read_impl_pointer sg T (take o buf)
      (static_cast (byte_type sg) <$> be_bytes data (sizeof T))
      (drop (o + sizeof T) buf)) as Hread.
    rewrite length_take, Nat.min_l in Hread by lia.
    rewrite Hread by (by rewrite length_fmap, be_bytes_length).
    do 2 f_equal. rewrite be_value_be_bytes.
    rewrite <- (static_cast_id T data) at 2 by done.
    apply static_cast_congr. apply Z.mod_mod.
    pose proof (modulus_pos T). unfold bits in *. lia.
Qed.

(** ** The codec's claims *)

(** C1. Round trip of unsigned 32-bit values: for every [v] with
    [0 ≤ v ≤ 2^32 - 1], passed in any argument type [In] that holds it,
    [write_uint32] into a buffer with four cells of room succeeds, and
    [read_uint32] from the same position of the buffer it leaves returns
    [v]. *)
Theorem write_read_uint32_roundtrip {cfg : BuildConfig} (sg : bool) (In : int_type)
    (v : Z) (buf : list Z) (o : nat) :
  0 ≤ v ≤ 4294967295 →
  representable In v →
  (o + 4 ≤ length buf)%nat →
  ∃ buf',
    write_uint32 In v (Pointer (sg:=sg) buf o) = Ok (Pointer buf' (o + 4))
    ∧ read_uint32 (Pointer (sg:=sg) buf' o) = Ok (v, Pointer buf' (o + 4)).
Proof.
  intros Hv HIn Hlen.
  apply (write_read_pointer sg uint32_t In v buf o); [done| |done].
  exact Hv.
Qed.

Lemma write_read_uint32_roundtrip_max :
  ∃ buf',
    write_uint32 (cfg:=debug_build) uint32_t 4294967295
      (Pointer (sg:=true) [0; 0; 0; 0; 0] 1) = Ok (Pointer buf' (1 + 4))
    ∧ read_uint32 (Pointer (sg:=true) buf' 1) = Ok (4294967295, Pointer buf' (1 + 4)).
Proof.
  apply (write_read_uint32_roundtrip (cfg:=debug_build) true uint32_t 4294967295
           [0; 0; 0; 0; 0] 1).
  - lia.
  - compute_done.
  - simpl. lia.
Defined.

(** C9. Round trip at every width and signedness: for each adaptor pair
    and every value [v] of the pair's type (negative ones included),
    writing [v] and reading at the same position returns [v]. *)
Theorem write_read_adaptor_roundtrip {cfg : BuildConfig} (sg : bool) (T In : int_type)
    (v : Z) (buf : list Z) (o : nat) :
  representable T v →
  representable In v →
  (o + sizeof T ≤ length buf)%nat →
  ∃ buf',
    write_adaptor T In v (Pointer (sg:=sg) buf o) = Ok (Pointer buf' (o + sizeof T))
    ∧ read_adaptor T (Pointer (sg:=sg) buf' o) = Ok (v, Pointer buf' (o + sizeof T)).
Proof.
  intros HT HIn Hlen.
  destruct (write_read_pointer sg T In v buf o HIn HT Hlen) as (buf' & Hw & Hr).
  exists buf'. by destruct T.
Qed.

Lemma write_read_adaptor_roundtrip_negative :
  ∃ buf',
    write_adaptor (cfg:=debug_build) int16_t int16_t (-2)
      (Pointer (sg:=false) [9; 9; 9] 1) = Ok (Pointer buf' (1 + sizeof int16_t))
    ∧ read_adaptor int16_t (Pointer (sg:=false) buf' 1)
      = Ok (-2, Pointer buf' (1 + sizeof int16_t)).
Proof.
  apply (write_read_adaptor_roundtrip (cfg:=debug_build) false int16_t int16_t (-2)
           [9; 9; 9] 1).
  - compute_done.
  - compute_done.
  - simpl. lia.
Defined.

(** C2. Big-endian layout. A write of [data] at width [n = sizeof(T)]
    stores, at position [i] of its output, the byte
    [(data >> 8(n-1-i)) mod 256] (the eight bits of the cell; the cell
    itself when the bytes are unsigned), which is also the digit of the
    narrowed value; and a read of [n] cells returns, converted to [T],
    the number in which the first cell read is the most significant. *)
Theorem codec_big_endian {cfg : BuildConfig} (sg : bool) (T In : int_type) (data : Z)
    (buf : list Z) (o : nat) :
  assertion_passes T In data →
  (o + sizeof T ≤ length buf)%nat →
  (∃ buf',
     write_impl T In data (Pointer (sg:=sg) buf o) = Ok (Pointer buf' (o + sizeof T))
     ∧ ∀ i, (i < sizeof T)%nat →
         ∃ c, buf' !! (o + i)%nat = Some c
              ∧ static_cast uint8_t c
                = Z.shiftr data (8 * Z.of_nat (sizeof T - 1 - i)) mod 256
              ∧ static_cast uint8_t c
                = Z.shiftr (static_cast T data) (8 * Z.of_nat (sizeof T - 1 - i)) mod 256
              ∧ (sg = false → c = static_cast uint8_t c))
  ∧ (∀ pre c cs post, length (c :: cs) = sizeof T →
       read_impl T (Pointer (sg:=sg) (pre ++ (c :: cs) ++ post) (length pre))
       = Ok (static_cast T (c mod 256 * 2 ^ (8 * Z.of_nat (sizeof T - 1)) + be_value cs),
             Pointer (pre ++ (c :: cs) ++ post) (length pre + sizeof T))).
Proof.
  intros Hassert Hlen. split.
  - eexists. split; [by apply write_impl_pointer|].
    intros i Hi. eexists. split; [by apply written_lookup_inside|].
    rewrite uint8_of_byte by apply byte_type_size.
    pose proof (be_digit_range (static_cast T data) (sizeof T - 1 - i)).
    rewrite Z.mod_small by lia.
    split; [|split].
    + rewrite be_digit_static_cast by lia. done.
    + done.
    + intros ->. cbn [byte_type]. rewrite static_cast_uint8. apply Z.mod_small. lia.
  - intros pre c cs post Hcs. rewrite read_impl_pointer by done.
    cbn [be_value]. cbn [length] in Hcs.
    replace (sizeof T - 1)%nat with (length cs) by lia. done.
Qed.

Lemma codec_big_endian_example :
  (∃ buf',
     write_impl (cfg:=debug_build) uint32_t uint32_t 16909060
       (Pointer (sg:=true) [0; 0; 0; 0] 0) = Ok (Pointer buf' (0 + sizeof uint32_t))
     ∧ ∀ i, (i < sizeof uint32_t)%nat →
         ∃ c, buf' !! (0 + i)%nat = Some c
              ∧ static_cast uint8_t c
                = Z.shiftr 16909060 (8 * Z.of_nat (sizeof uint32_t - 1 - i)) mod 256
              ∧ static_cast uint8_t c
                = Z.shiftr (static_cast uint32_t 16909060)
                    (8 * Z.of_nat (sizeof uint32_t - 1 - i)) mod 256
              ∧ (true = false → c = static_cast uint8_t c))
  ∧ (∀ pre c cs post, length (c :: cs) = sizeof uint32_t →
       read_impl uint32_t (Pointer (sg:=true) (pre ++ (c :: cs) ++ post) (length pre))
       = Ok (static_cast uint32_t
               (c mod 256 * 2 ^ (8 * Z.of_nat (sizeof uint32_t - 1)) + be_value cs),
             Pointer (pre ++ (c :: cs) ++ post) (length pre + sizeof uint32_t))).
Proof.
  apply (codec_big_endian (cfg:=debug_build) true uint32_t uint32_t 16909060
           [0; 0; 0; 0] 0).
  - intros _. vm_compute. reflexivity.
  - simpl. lia.
Defined.

(** C4. Cursor and frame. A write of width [sizeof(T)] that is not
    stopped by the assertion leaves the pointer exactly [sizeof(T)] cells
    further, keeps the buffer's length and changes no cell outside
    [[o, o + sizeof(T))]; through a [back_insert_iterator] it appends
    exactly [sizeof(T)] elements after the existing ones. A read leaves
    the pointer exactly [sizeof(T)] cells further and the buffer as it
    was. *)
Theorem codec_cursor_frame {cfg : BuildConfig} (sg : bool) (T In : int_type) (data : Z)
    (buf : list Z) (o : nat) :
  assertion_passes T In data →
  (o + sizeof T ≤ length buf)%nat →
  (∃ buf',
     write_impl T In data (Pointer (sg:=sg) buf o) = Ok (Pointer buf' (o + sizeof T))
     ∧ length buf' = length buf
     ∧ ∀ j, (j < o ∨ o + sizeof T ≤ j)%nat → buf' !! j = buf !! j)
  ∧ (∃ new,
       write_impl T In data (BackInserter (sg:=sg) buf)
       = Ok (BackInserter (buf ++ new))
       ∧ length new = sizeof T)
  ∧ (∃ v, read_impl T (Pointer (sg:=sg) buf o) = Ok (v, Pointer buf (o + sizeof T))).
Proof.
  intros Hassert Hlen. split; [|split].
  - eexists. split; [by apply write_impl_pointer|]. split.
    + by apply written_length.
    + intros j Hj. by apply written_lookup_outside.
  - eexists. split.
    + unfold write_impl, assertion_passes in *.
      destruct TORRENT_USE_ASSERTS; cbn [andb].
      * rewrite Hassert by done. cbn [negb]. apply write_loop_back_insert.
      * apply write_loop_back_insert.
    + by rewrite length_fmap, be_bytes_length.
  - pose proof (read_impl_pointer sg T (take o buf)
      (take (sizeof T) (drop o buf)) (drop (sizeof T) (drop o buf))) as Hread.
    assert (Hpre : length (take o buf) = o) by (rewrite length_take; lia).
    rewrite Hpre, !take_drop in Hread.
    eexists. apply Hread. rewrite length_take, length_drop. lia.
Qed.

Lemma codec_cursor_frame_example :
  (∃ buf',
     write_impl (cfg:=debug_build) int16_t int32_t (-2)
       (Pointer (sg:=false) [7; 7; 7; 7] 1) = Ok (Pointer buf' (1 + sizeof int16_t))
     ∧ length buf' = length [7; 7; 7; 7]
     ∧ ∀ j, (j < 1 ∨ 1 + sizeof int16_t ≤ j)%nat → buf' !! j = [7; 7; 7; 7] !! j)
  ∧ (∃ new,
       write_impl (cfg:=debug_build) (out_it:=back_insert_OutIt (cfg:=debug_build) false)
         int16_t int32_t (-2) (BackInserter [7; 7; 7; 7])
       = Ok (BackInserter ([7; 7; 7; 7] ++ new))
       ∧ length new = sizeof int16_t)
  ∧ (∃ v, read_impl int16_t (Pointer (sg:=false) [7; 7; 7; 7] 1)
          = Ok (v, Pointer [7; 7; 7; 7] (1 + sizeof int16_t))).
Proof.
  apply (codec_cursor_frame (cfg:=debug_build) false int16_t int32_t (-2)
           [7; 7; 7; 7] 1).
  - intros _. vm_compute. reflexivity.
  - simpl. lia.
Defined.

(** C3, as stated, fails: [write_uint32] of the [int] value [-1] passes
    the assertion, and writes [ff ff ff ff], although [-1] is not a value
    of [std::uint32_t]. *)
Lemma write_assertion_passes_unrepresentable :
  representable int32_t (-1)
  ∧ ¬ (write_assertion uint32_t int32_t (-1) = true ↔ representable uint32_t (-1))
  ∧ write_uint32 (cfg:=debug_build) int32_t (-1) (Pointer (sg:=false) [0; 0; 0; 0] 0)
    = Ok (Pointer [255; 255; 255; 255] 4).
Proof.
  split; [|split].
  - compute_done.
  - intros [Hfwd _]. destruct (Hfwd eq_refl) as [Hmin _].
    vm_compute in Hmin. by apply Hmin.
  - reflexivity.
Qed.

(** [In] holds every value of [T] exactly when it has the signedness of
    [T] and is at least as wide, or is signed and strictly wider than an
    unsigned [T]. *)
Lemma includes_spec In T :
  includes In T = true
  ↔ (is_signed In = is_signed T ∧ (sizeof T ≤ sizeof In)%nat)
    ∨ (is_signed In = true ∧ is_signed T = false ∧ (sizeof T < sizeof In)%nat).
Proof.
  destruct In, T; vm_compute; split;
    solve [ intros _; ((left; split; [reflexivity|lia]) || (right; split_and!; [reflexivity..|lia]))
          | intros ?; reflexivity
          | intros ?; discriminate
          | intros [[? ?]|(? & ? & ?)]; (discriminate || lia) ].
Qed.

(** A value of a type no wider than [T] comes back from [T] unchanged. *)
Lemma write_assertion_no_wider T In data :
  representable In data → (sizeof In ≤ sizeof T)%nat → write_assertion T In data = true.
Proof.
  intros HIn Hsize. unfold write_assertion. apply Z.eqb_eq. symmetry.
  rewrite <- (static_cast_id In data) at 2 by done.
  apply static_cast_congr.
  pose proof (modulus_pos In). pose proof (modulus_pos T).
  assert (Hdiv : (2 ^ bits In | 2 ^ bits T)).
  { exists (2 ^ (bits T - bits In)). rewrite <- Z.pow_add_r by (unfold bits; lia).
    f_equal. lia. }
  rewrite <- (Z.mod_mod_divide (static_cast T data) _ _ Hdiv).
  rewrite static_cast_mod. by apply Z.mod_mod_divide.
Qed.

(** When neither type holds every value of the other, a value of [In]
    passes the assertion without being a value of [T]. *)
Lemma write_assertion_incomparable T In :
  includes In T = false → includes T In = false →
  ∃ d, representable In d ∧ write_assertion T In d = true ∧ ¬ representable T d.
Proof.
  intros H1 H2. exists (if is_signed In then -1 else max_value In).
  destruct In, T; try discriminate H1; try discriminate H2;
    (split_and!; [compute_done|reflexivity|]);
    intros [Hlo Hhi]; vm_compute in Hlo, Hhi; by (apply Hlo || apply Hhi).
Qed.

(** C3, amended. For a value [data] of the argument type [In], the
    assertion holds exactly when narrowing to [T] and converting back to
    [In] gives [data] again. Every value representable in [T] passes it.
    A value that passes is representable in [T] whenever [In] holds
    every value of [T]: that is, when [In] has the signedness of [T] and
    is at least as wide, or is signed and strictly wider than an
    unsigned [T]. Whenever [In] is no wider than [T], every value of
    [In] passes. So the assertion holds exactly for the values
    representable in [T] when one of the two types holds every value of
    the other; when neither does, some value of [In] passes without
    being representable in [T]. When the assertion fails in a build with
    assertions, the write is stopped. *)
Theorem write_assertion_spec {cfg : BuildConfig} (T In : int_type) (data : Z) :
  representable In data →
  (write_assertion T In data = true ↔ static_cast In (static_cast T data) = data)
  ∧ (representable T data → write_assertion T In data = true)
  ∧ (includes In T = true → write_assertion T In data = true → representable T data)
  ∧ (includes In T = true
     ↔ (is_signed In = is_signed T ∧ (sizeof T ≤ sizeof In)%nat)
       ∨ (is_signed In = true ∧ is_signed T = false ∧ (sizeof T < sizeof In)%nat))
  ∧ ((sizeof In ≤ sizeof T)%nat → write_assertion T In data = true)
  ∧ (includes In T = true ∨ includes T In = true →
     (write_assertion T In data = true ↔ representable T data))
  ∧ (includes In T = false → includes T In = false →
     ∃ d, representable In d ∧ write_assertion T In d = true ∧ ¬ representable T d)
  ∧ (TORRENT_USE_ASSERTS = true → write_assertion T In data = false →
     ∀ sg (start : pointer sg), write_impl T In data start = Fault assertion_failed).
Proof.
  intros HIn.
  assert (Hconv : includes In T = true → write_assertion T In data = true →
                  representable T data).
  { intros Hinc Hassert. unfold write_assertion in Hassert.
    apply Z.eqb_eq in Hassert. rewrite Hassert.
    rewrite static_cast_id; [apply static_cast_representable|].
    pose proof (static_cast_representable T data) as Hval.
    unfold includes in Hinc. apply andb_prop in Hinc as [Hlo Hhi].
    apply Z.leb_le in Hlo, Hhi. unfold representable in *. lia. }
  split_and!.
  - unfold write_assertion. rewrite Z.eqb_eq. split; congruence.
  - by apply write_assertion_representable.
  - done.
  - apply includes_spec.
  - by apply write_assertion_no_wider.
  - intros [Hinc|Hinc].
    + split; [by apply Hconv|by apply write_assertion_representable].
    + assert (HT : representable T data).
      { unfold includes in Hinc. apply andb_prop in Hinc as [Hlo Hhi].
        apply Z.leb_le in Hlo, Hhi. unfold representable in *. lia. }
      split; [done|]. intros _. by apply write_assertion_representable.
  - apply write_assertion_incomparable.
  - intros Hcfg Hassert sg start. unfold write_impl.
    by rewrite Hcfg, Hassert.
Qed.

Lemma write_assertion_spec_example :
  (write_assertion uint8_t int32_t 300 = true
   ↔ static_cast int32_t (static_cast uint8_t 300) = 300)
  ∧ (representable uint8_t 300 → write_assertion uint8_t int32_t 300 = true)
  ∧ (includes int32_t uint8_t = true → write_assertion uint8_t int32_t 300 = true →
     representable uint8_t 300)
  ∧ (includes int32_t uint8_t = true
     ↔ (is_signed int32_t = is_signed uint8_t ∧ (sizeof uint8_t ≤ sizeof int32_t)%nat)
       ∨ (is_signed int32_t = true ∧ is_signed uint8_t = false
          ∧ (sizeof uint8_t < sizeof int32_t)%nat))
  ∧ ((sizeof int32_t ≤ sizeof uint8_t)%nat → write_assertion uint8_t int32_t 300 = true)
  ∧ (includes int32_t uint8_t = true ∨ includes uint8_t int32_t = true →
     (write_assertion uint8_t int32_t 300 = true ↔ representable uint8_t 300))
  ∧ (includes int32_t uint8_t = false → includes uint8_t int32_t = false →
     ∃ d, representable int32_t d ∧ write_assertion uint8_t int32_t d = true
          ∧ ¬ representable uint8_t d)
  ∧ (@TORRENT_USE_ASSERTS debug_build = true →
     write_assertion uint8_t int32_t 300 = false →
     ∀ sg (start : pointer sg),
       write_impl (cfg:=debug_build) uint8_t int32_t 300 start = Fault assertion_failed).
Proof.
  apply (write_assertion_spec (cfg:=debug_build) uint8_t int32_t 300).
  compute_done.
Defined.

(** A wider unsigned argument narrowed to a signed type: [write_int8] of
    the [std::uint16_t] value [65535] passes the assertion, and writes
    [ff], although [65535] is not a value of [std::int8_t]. *)
Example write_int8_of_uint16_passes :
  representable uint16_t 65535
  ∧ includes uint16_t int8_t = false
  ∧ write_assertion int8_t uint16_t 65535 = true
  ∧ ¬ representable int8_t 65535
  ∧ write_int8 (cfg:=debug_build) uint16_t 65535 (Pointer (sg:=false) [0] 0)
    = Ok (Pointer [255] 1).
Proof.
  split_and!; try reflexivity; [compute_done|].
  intros [_ Hhi]. vm_compute in Hhi. by apply Hhi.
Qed.

(** ** [write_string] *)

Lemma write_string_loop_pointer sg val buf o :
  (o + length val ≤ length buf)%nat →
  write_string_loop val (Pointer (sg:=sg) buf o)
  = Ok (Pointer (take o buf ++ (static_cast (byte_type sg) <$> val)
                   ++ drop (o + length val) buf) (o + length val)).
Proof.
  revert buf o. induction val as [|c val IH]; intros buf o Hlen.
  - simpl. rewrite !Nat.add_0_r, take_drop. done.
  - cbn [write_string_loop length] in *.
    cbn [assign_incr pointer_OutIt buffer offset].
    rewrite decide_True by lia. cbn [mbind result_bind].
    rewrite IH by (rewrite length_insert; lia).
    rewrite insert_take_drop by lia.
    f_equal. f_equal; [|lia].
    replace (S o) with (o + 1)%nat by lia.
    rewrite take_app_add' by (rewrite length_take; lia).
    replace (o + 1 + length val)%nat with (o + S (length val))%nat by lia.
    rewrite drop_app_add' by (rewrite length_take; lia).
    cbn [take drop]. rewrite fmap_cons, drop_drop, <- app_assoc.
    rewrite take_0. cbn [app]. do 4 f_equal. lia.
Qed.

Lemma write_string_loop_back_insert {cfg : BuildConfig} sg val c :
  write_string_loop val (BackInserter (sg:=sg) c)
  = Ok (BackInserter (c ++ (static_cast (byte_type sg) <$> val))).
Proof.
  revert c. induction val as [|x val IH]; intros c.
  - simpl. by rewrite app_nil_r.
  - cbn [write_string_loop]. cbn [assign_incr back_insert_OutIt container].
    cbn [mbind result_bind]. rewrite IH, fmap_cons, <- app_assoc. done.
Qed.

(** A string's characters are unchanged by a conversion to [char]. *)
Lemma static_cast_chars {cfg : BuildConfig} (s : list Z) :
  Forall (representable char_t) s → static_cast char_t <$> s = s.
Proof.
  induction 1 as [|c s Hc _ IH]; [done|].
  by rewrite fmap_cons, IH, static_cast_id.
Qed.

Lemma static_cast_int_count (n : nat) :
  Z.of_nat n ≤ 2147483647 → static_cast int_t (Z.of_nat n) = Z.of_nat n.
Proof.
  intros Hn. apply static_cast_id.
  change (-2147483648 ≤ Z.of_nat n ≤ 2147483647). lia.
Qed.

(** C5, as stated, fails for strings longer than [INT_MAX]: the count is
    returned as [int(str.size())]. For a string of [2^31] characters the
    copy is verbatim and complete, and the value returned is [-2^31]. *)
Lemma write_string_count_wraps :
  let s := replicate (Z.to_nat 2147483648) 97 in
  write_string (out_it:=back_insert_OutIt (cfg:=debug_build) true) s (BackInserter [])
  = Ok (-2147483648, BackInserter s)
  ∧ Z.of_nat (length s) = 2147483648.
Proof.
  intros s.
  assert (Hlen : Z.of_nat (length s) = 2147483648).
  { subst s. rewrite length_replicate. apply Z2Nat.id. lia. }
  assert (Hchars : Forall (representable (char_t (cfg:=debug_build))) s).
  { subst s. apply Forall_replicate. compute_done. }
  clearbody s. split; [|done].
  unfold write_string. rewrite write_string_loop_back_insert.
  unfold mbind, result_bind. rewrite Hlen.
  change (byte_type true) with (char_t (cfg:=debug_build)).
  rewrite (static_cast_chars (cfg:=debug_build) s Hchars). reflexivity.
Qed.

(** C5, amended. For every string [s], both overloads copy the
    characters of [s] unchanged and in order to the output (over the
    cells at the pointer, or after the elements already in the
    container), advance the pointer by exactly [length s], and return
    [int(length s)]: that is [length s] whenever [length s ≤ INT_MAX].
    For the empty string nothing is copied, the output is as it was and
    the count is 0. *)
Theorem write_string_spec {cfg : BuildConfig} (s buf c : list Z) (o : nat) :
  Forall (representable char_t) s →
  (o + length s ≤ length buf)%nat →
  let count := static_cast int_t (Z.of_nat (length s)) in
  let buf' := take o buf ++ s ++ drop (o + length s) buf in
  write_string_ptr s (Pointer buf o) = Ok (count, Pointer buf' (o + length s))
  ∧ write_string s (Pointer (sg:=char_is_signed) buf o)
    = Ok (count, Pointer buf' (o + length s))
  ∧ write_string s (BackInserter (sg:=char_is_signed) c)
    = Ok (count, BackInserter (c ++ s))
  ∧ (Z.of_nat (length s) ≤ 2147483647 → count = Z.of_nat (length s))
  ∧ (s = [] → count = 0 ∧ buf' = buf ∧ (o + length s)%nat = o ∧ c ++ s = c).
Proof.
  intros Hchars Hlen count buf'. subst count buf'.
  split; [|split; [|split; [|split]]].
  - unfold write_string_ptr. cbn [buffer offset]. by rewrite decide_True.
  - unfold write_string. rewrite write_string_loop_pointer by done.
    cbn [mbind result_bind]. fold char_t. by rewrite static_cast_chars.
  - unfold write_string. rewrite write_string_loop_back_insert.
    cbn [mbind result_bind]. fold char_t. by rewrite static_cast_chars.
  - apply static_cast_int_count.
  - intros ->. cbn [length app]. rewrite !Nat.add_0_r, take_drop, app_nil_r. done.
Qed.

Lemma write_string_spec_example :
  let s := [104; 105] in
  let buf := [0; 0; 0; 0] in
  let count := static_cast int_t (Z.of_nat (length s)) in
  let buf' := take 1 buf ++ s ++ drop (1 + length s) buf in
  write_string_ptr (cfg:=debug_build) s (Pointer buf 1)
  = Ok (count, Pointer buf' (1 + length s))
  ∧ write_string s (Pointer (sg:=@char_is_signed debug_build) buf 1)
    = Ok (count, Pointer buf' (1 + length s))
  ∧ write_string (out_it:=back_insert_OutIt (cfg:=debug_build) _) s
      (BackInserter (sg:=@char_is_signed debug_build) [7])
    = Ok (count, BackInserter ([7] ++ s))
  ∧ (Z.of_nat (length s) ≤ 2147483647 → count = Z.of_nat (length s))
  ∧ (s = [] → count = 0 ∧ buf' = buf ∧ (1 + length s)%nat = 1%nat ∧ [7] ++ s = [7]).
Proof.
  apply (write_string_spec (cfg:=debug_build) [104; 105] [0; 0; 0; 0] [7] 1).
  - compute_done.
  - simpl. lia.
Defined.

(** * Further properties of the codec *)

(** ** Digits and values *)

Lemma be_digit_mod val n i :
  (i < n)%nat → be_digit (val mod 2 ^ (8 * Z.of_nat n)) i = be_digit val i.
Proof.
  intros Hi. unfold be_digit. change 256 with (2 ^ 8).
  apply Z.bits_inj'. intros k Hk.
  destruct (Z.lt_ge_cases k 8).
  - rewrite !Z.mod_pow2_bits_low, !Z.shiftr_spec by lia.
    apply Z.mod_pow2_bits_low. lia.
  - by rewrite !Z.mod_pow2_bits_high by lia.
Qed.

Lemma be_digit_congr x y n i :
  (i < n)%nat → x mod 2 ^ (8 * Z.of_nat n) = y mod 2 ^ (8 * Z.of_nat n) →
  be_digit x i = be_digit y i.
Proof.
  intros Hi Hxy.
  by rewrite <- (be_digit_mod x n i), <- (be_digit_mod y n i), Hxy.
Qed.

Lemma be_bytes_congr_le x y n m :
  (m ≤ n)%nat → x mod 2 ^ (8 * Z.of_nat n) = y mod 2 ^ (8 * Z.of_nat n) →
  be_bytes x m = be_bytes y m.
Proof.
  intros Hm Hxy. induction m as [|m IH]; [done|].
  cbn [be_bytes]. rewrite IH by lia. f_equal. apply (be_digit_congr x y n); [lia|done].
Qed.

Lemma be_bytes_congr x y n :
  x mod 2 ^ (8 * Z.of_nat n) = y mod 2 ^ (8 * Z.of_nat n) →
  be_bytes x n = be_bytes y n.
Proof. by apply be_bytes_congr_le. Qed.

Lemma be_bytes_static_cast T x : be_bytes (static_cast T x) (sizeof T) = be_bytes x (sizeof T).
Proof. apply be_bytes_congr. apply static_cast_mod. Qed.

(** The digits of the value of a sequence of cells are the cells' eight
    bits. *)
Lemma be_bytes_be_value cells :
  be_bytes (be_value cells) (length cells) = (λ c, c mod 256) <$> cells.
Proof.
  induction cells as [|c cs IH]; [done|].
  cbn [length be_bytes be_value fmap list_fmap].
  pose proof (be_value_range cs) as Hr.
  assert (HP : 0 < 2 ^ (8 * Z.of_nat (length cs))) by (apply Z.pow_pos_nonneg; lia).
  f_equal.
  - unfold be_digit. rewrite Z.shiftr_div_pow2 by lia.
    rewrite Z.div_add_l by lia. rewrite (Z.div_small (be_value cs)) by lia.
    rewrite Z.add_0_r. apply Z.mod_mod. lia.
  - rewrite <- IH. apply be_bytes_congr.
    rewrite Z.add_comm. apply Z_mod_plus_full.
Qed.

Lemma be_value_uint8 cells : be_value (static_cast uint8_t <$> cells) = be_value cells.
Proof.
  induction cells as [|c cs IH]; [done|].
  rewrite fmap_cons. cbn [be_value]. rewrite IH, length_fmap, static_cast_uint8.
  by rewrite Z.mod_mod by lia.
Qed.

Lemma byte_of_uint8 sg c :
  representable (byte_type sg) c → static_cast (byte_type sg) (c mod 256) = c.
Proof.
  intros Hc. rewrite <- (static_cast_id (byte_type sg) c) at 2 by done.
  apply static_cast_congr.
  replace (2 ^ bits (byte_type sg)) with 256 by (by destruct sg).
  apply Z.mod_mod. lia.
Qed.

(** ** Reading at a position *)

Lemma read_impl_at sg T buf o :
  (o + sizeof T ≤ length buf)%nat →
  read_impl T (Pointer (sg:=sg) buf o)
  = Ok (static_cast T (be_value (take (sizeof T) (drop o buf))),
        Pointer buf (o + sizeof T)).
Proof.
  intros Hlen.
  pose proof (read_impl_pointer sg T (take o buf)
    (take (sizeof T) (drop o buf)) (drop (sizeof T) (drop o buf))) as Hread.
  assert (Hpre : length (take o buf) = o) by (rewrite length_take; lia).
  rewrite Hpre, !take_drop in Hread.
  apply Hread. rewrite length_take, length_drop. lia.
Qed.

Lemma read_loop_short sg T n ret buf o :
  (0 < n)%nat → (length buf < o + n)%nat →
  read_loop T n ret (Pointer (sg:=sg) buf o) = Fault out_of_bounds.
Proof.
  revert ret o. induction n as [|n IH]; intros ret o Hn Hlen; [lia|].
  cbn [read_loop]. rewrite deref_incr_pointer.
  destruct (buf !! o) as [c|] eqn:Hc; [|done].
  cbn [mbind result_bind]. apply lookup_lt_Some in Hc. apply IH; lia.
Qed.

Lemma read_impl_short sg T buf o :
  (length buf < o + sizeof T)%nat →
  read_impl T (Pointer (sg:=sg) buf o) = Fault out_of_bounds.
Proof.
  intros Hlen.
  assert (Hprim : read_impl_primary T (Pointer (sg:=sg) buf o) = Fault out_of_bounds)
    by (apply read_loop_short; [destruct T; simpl; lia|done]).
  destruct T; try exact Hprim; clear Hprim;
    unfold read_impl, read_impl_int8, read_impl_uint8;
    rewrite deref_incr_pointer;
    (rewrite lookup_ge_None_2 by (simpl in Hlen; lia)); done.
Qed.

Lemma write_loop_short sg val n buf o :
  (0 < n)%nat → (length buf < o + n)%nat →
  write_loop val n (Pointer (sg:=sg) buf o) = Fault out_of_bounds.
Proof.
  revert buf o. induction n as [|n IH]; intros buf o Hn Hlen; [lia|].
  cbn [write_loop]. cbn [assign_incr pointer_OutIt Byte buffer offset].
  case_decide as Ho; [|done].
  cbn [mbind result_bind]. apply IH; rewrite ?length_insert; lia.
Qed.

(** The loop stores the same bytes for two values with the same digits. *)
Lemma write_loop_congr {It : Type} {out_it : OutIt It} val val' n (start : It) :
  val mod 2 ^ (8 * Z.of_nat n) = val' mod 2 ^ (8 * Z.of_nat n) →
  write_loop val n start = write_loop val' n start.
Proof.
  intros Hval.
  assert (Hd : ∀ i, (i < n)%nat → be_digit val i = be_digit val' i)
    by (intros i Hi; by apply (be_digit_congr _ _ n)).
  clear Hval. revert start. induction n as [|n IH]; intros start; [done|].
  cbn [write_loop]. rewrite !write_loop_value, Hd by lia.
  destruct (assign_incr _ start); [|done].
  cbn [mbind result_bind]. apply IH. intros i Hi. apply Hd. lia.
Qed.

Lemma write_impl_passes {cfg : BuildConfig} {It : Type} {out_it : OutIt It}
    T In data (start : It) :
  assertion_passes T In data →
  write_impl T In data start = write_loop (static_cast T data) (sizeof T) start.
Proof.
  intros Hassert. unfold write_impl, assertion_passes in *.
  destruct TORRENT_USE_ASSERTS; cbn [andb]; [|done].
  by rewrite Hassert.
Qed.

(** ** Reading, writing and their composition *)

(** X1. The value a read returns. The [sizeof(T)] cells count by their
    eight bits as a big-endian number between [0] and [2^bits - 1]; an
    unsigned read returns that number, a signed read returns it less
    [2^bits] exactly when the top bit of the first cell is set. *)
Theorem read_impl_value (sg : bool) (T : int_type) (pre : list Z) (c : Z)
    (cs post : list Z) :
  length (c :: cs) = sizeof T →
  read_impl T (Pointer (sg:=sg) (pre ++ (c :: cs) ++ post) (length pre))
  = Ok (be_value (c :: cs)
          - (if is_signed T && (128 <=? static_cast uint8_t c) then 2 ^ bits T else 0),
        Pointer (pre ++ (c :: cs) ++ post) (length pre + sizeof T))
  ∧ 0 ≤ be_value (c :: cs) < 2 ^ bits T.
Proof.
  intros Hlen. rewrite read_impl_pointer by done.
  pose proof (be_value_range (c :: cs)) as Hr. rewrite Hlen in Hr. fold (bits T) in Hr.
  split; [|done]. do 2 f_equal.
  unfold static_cast at 1; cbv zeta. rewrite Z.mod_small by done.
  destruct (is_signed T); cbn [andb]; [|lia].
  rewrite static_cast_uint8.
  pose proof (be_value_range cs) as Hcs.
  pose proof (Z.mod_pos_bound c 256).
  assert (Hhalf : 2 ^ (bits T - 1) = 128 * 2 ^ (8 * Z.of_nat (length cs))).
  { unfold bits. rewrite <- Hlen. cbn [length].
    change 128 with (2 ^ 7). rewrite <- Z.pow_add_r by lia. f_equal. lia. }
  cbn [be_value] in *. rewrite Hhalf.
  destruct (Z.leb_spec (128 * 2 ^ (8 * Z.of_nat (length cs)))
              (c mod 256 * 2 ^ (8 * Z.of_nat (length cs)) + be_value cs));
    destruct (Z.leb_spec 128 (c mod 256)); try lia; nia.
Qed.

Lemma read_impl_value_example :
  read_impl int16_t (Pointer (sg:=true) ([7] ++ [-1; -2] ++ [9]) (length [7]))
  = Ok (be_value [-1; -2]
          - (if is_signed int16_t && (128 <=? static_cast uint8_t (-1))
             then 2 ^ bits int16_t else 0),
        Pointer ([7] ++ [-1; -2] ++ [9]) (length [7] + sizeof int16_t))
  ∧ 0 ≤ be_value [-1; -2] < 2 ^ bits int16_t.
Proof.
  apply (read_impl_value true int16_t [7] (-1) [-2] [9]). reflexivity.
Defined.

(** X2. A read sees a cell only through its eight bits: buffers of
    [char] and of [unsigned char] holding the same bytes (as [-1] and
    [255]) decode to the same value; a negative cell is not
    sign-extended into the higher bytes. *)
Theorem read_impl_cell_bits (sg sg' : bool) (T : int_type)
    (pre cells post pre' cells' post' : list Z) :
  length cells = sizeof T →
  static_cast uint8_t <$> cells = static_cast uint8_t <$> cells' →
  ∃ v,
    read_impl T (Pointer (sg:=sg) (pre ++ cells ++ post) (length pre))
    = Ok (v, Pointer (pre ++ cells ++ post) (length pre + sizeof T))
    ∧ read_impl T (Pointer (sg:=sg') (pre' ++ cells' ++ post') (length pre'))
      = Ok (v, Pointer (pre' ++ cells' ++ post') (length pre' + sizeof T)).
Proof.
  intros Hlen Hbits.
  assert (Hlen' : length cells' = sizeof T).
  { rewrite <- Hlen. apply (f_equal length) in Hbits. by rewrite !length_fmap in Hbits. }
  eexists. split; [by apply read_impl_pointer|].
  rewrite read_impl_pointer by done.
  by rewrite <- (be_value_uint8 cells), Hbits, be_value_uint8.
Qed.

Lemma read_impl_cell_bits_example :
  ∃ v,
    read_impl uint32_t (Pointer (sg:=true) ([] ++ [-1; 0; -128; 5] ++ [1]) (length ([] : list Z)))
    = Ok (v, Pointer ([] ++ [-1; 0; -128; 5] ++ [1])
               (length ([] : list Z) + sizeof uint32_t))
    ∧ read_impl uint32_t (Pointer (sg:=false) ([3] ++ [255; 0; 128; 5] ++ []) (length [3]))
      = Ok (v, Pointer ([3] ++ [255; 0; 128; 5] ++ []) (length [3] + sizeof uint32_t)).
Proof.
  apply (read_impl_cell_bits true false uint32_t [] [-1; 0; -128; 5] [1]
           [3] [255; 0; 128; 5] []); reflexivity.
Defined.

(** X3. Read, then write back: writing the value a read returned, at
    the position it was read from, succeeds in every build and leaves the
    buffer as it was. *)
Theorem read_write_roundtrip {cfg : BuildConfig} (sg : bool) (T : int_type)
    (buf : list Z) (o : nat) :
  (o + sizeof T ≤ length buf)%nat →
  Forall (representable (byte_type sg)) buf →
  ∃ v,
    read_impl T (Pointer (sg:=sg) buf o) = Ok (v, Pointer buf (o + sizeof T))
    ∧ write_impl T T v (Pointer (sg:=sg) buf o) = Ok (Pointer buf (o + sizeof T)).
Proof.
  intros Hlen Hcells. eexists. split; [by apply read_impl_at|].
  set (cells := take (sizeof T) (drop o buf)).
  assert (Hn : length cells = sizeof T)
    by (subst cells; rewrite length_take, length_drop; lia).
  rewrite write_impl_pointer; [|apply assertion_passes_representable;
                                 apply static_cast_representable|done].
  do 2 f_equal. unfold written.
  rewrite !be_bytes_static_cast, <- Hn, be_bytes_be_value, <- list_fmap_compose.
  assert (Hid : (static_cast (byte_type sg) ∘ (λ c, c mod 256)) <$> cells = cells).
  { rewrite <- (list_fmap_id cells) at 2. apply list_fmap_ext.
    intros i c Hc. cbn. apply byte_of_uint8.
    apply (Forall_lookup_1 _ buf (o + i)); [done|].
    subst cells. apply lookup_take_Some in Hc as [Hc _]. by rewrite lookup_drop in Hc. }
  rewrite Hid. subst cells.
  rewrite Hn, <- drop_drop, take_drop. apply take_drop.
Qed.

Lemma read_write_roundtrip_example :
  ∃ v,
    read_impl int32_t (Pointer (sg:=true) [1; -1; -2; 3; 4; 5] 1)
    = Ok (v, Pointer [1; -1; -2; 3; 4; 5] (1 + sizeof int32_t))
    ∧ write_impl (cfg:=debug_build) int32_t int32_t v
        (Pointer (sg:=true) [1; -1; -2; 3; 4; 5] 1)
      = Ok (Pointer [1; -1; -2; 3; 4; 5] (1 + sizeof int32_t)).
Proof.
  apply (read_write_roundtrip (cfg:=debug_build) true int32_t [1; -1; -2; 3; 4; 5] 1).
  - simpl. lia.
  - repeat constructor; compute_done.
Defined.

(** X4. The bytes written depend on the value only modulo [2^bits]:
    two writes of the same width that are not stopped by the assertion
    and whose values agree modulo [2^bits] behave alike through any
    iterator, whatever the signedness of the adaptor and the argument
    type ([write_int32] of [-1] and [write_uint32] of [2^32 - 1]). *)
Theorem write_impl_congruent {cfg : BuildConfig} {It : Type} {out_it : OutIt It}
    (T In T' In' : int_type) (data data' : Z) (start : It) :
  sizeof T = sizeof T' →
  data mod 2 ^ bits T = data' mod 2 ^ bits T →
  assertion_passes T In data →
  assertion_passes T' In' data' →
  write_impl T In data start = write_impl T' In' data' start.
Proof.
  intros Hsize Hdata Hassert Hassert'.
  rewrite !write_impl_passes by done. rewrite <- Hsize.
  apply write_loop_congr. fold (bits T).
  rewrite static_cast_mod, Hdata.
  unfold bits. rewrite Hsize. fold (bits T'). by rewrite static_cast_mod.
Qed.

Lemma write_impl_congruent_example :
  write_impl (cfg:=debug_build) int32_t int32_t (-1) (Pointer (sg:=false) [0; 0; 0; 0] 0)
  = write_impl (cfg:=debug_build) uint32_t uint64_t 4294967295
      (Pointer (sg:=false) [0; 0; 0; 0] 0).
Proof.
  apply (write_impl_congruent (cfg:=debug_build) int32_t int32_t uint32_t uint64_t
           (-1) 4294967295).
  - reflexivity.
  - reflexivity.
  - intros _. vm_compute. reflexivity.
  - intros _. vm_compute. reflexivity.
Defined.

(** X5. Whenever a write is not stopped by the assertion (always, in a
    build without assertions), a read at the same position returns the
    value narrowed to [T], [static_cast<T>(data)]: the value itself if
    [T] holds it, otherwise the value of [T] congruent to it. *)
Theorem write_read_narrowed {cfg : BuildConfig} (sg : bool) (T In : int_type) (data : Z)
    (buf : list Z) (o : nat) :
  assertion_passes T In data →
  (o + sizeof T ≤ length buf)%nat →
  ∃ buf',
    write_impl T In data (Pointer (sg:=sg) buf o) = Ok (Pointer buf' (o + sizeof T))
    ∧ read_impl T (Pointer (sg:=sg) buf' o)
      = Ok (static_cast T data, Pointer buf' (o + sizeof T))
    ∧ (representable T data → static_cast T data = data).
Proof.
  intros Hassert Hlen. eexists. split; [by apply write_impl_pointer|]. split.
  - unfold written.
    pose proof (read_impl_pointer sg T (take o buf)
      (static_cast (byte_type sg) <$> be_bytes (static_cast T data) (sizeof T))
      (drop (o + sizeof T) buf)) as Hread.
    rewrite length_take, Nat.min_l in Hread by lia.
    rewrite Hread by (by rewrite length_fmap, be_bytes_length).
    do 2 f_equal. rewrite be_value_be_bytes. fold (bits T).
    rewrite <- (static_cast_idemp T data) at 2.
    apply static_cast_congr. apply Z.mod_mod.
    pose proof (modulus_pos T). lia.
  - apply static_cast_id.
Qed.

Lemma write_read_narrowed_example :
  ∃ buf',
    write_impl (cfg:={| TORRENT_USE_ASSERTS := false; char_is_signed := true |})
      uint8_t int32_t 300 (Pointer (sg:=true) [0; 0] 1)
    = Ok (Pointer buf' (1 + sizeof uint8_t))
    ∧ read_impl uint8_t (Pointer (sg:=true) buf' 1)
      = Ok (static_cast uint8_t 300, Pointer buf' (1 + sizeof uint8_t))
    ∧ (representable uint8_t 300 → static_cast uint8_t 300 = 300).
Proof.
  apply (write_read_narrowed
           (cfg:={| TORRENT_USE_ASSERTS := false; char_is_signed := true |})
           true uint8_t int32_t 300 [0; 0] 1).
  - intros Hcfg. simpl in Hcfg. discriminate Hcfg.
  - simpl. lia.
Defined.

(** X6. Two writes one after the other, the second at the cursor the
    first left, are read back by two reads one after the other: the
    second write leaves the bytes of the first alone, and each read
    leaves the cursor where the next value starts. *)
Theorem write_write_read_read {cfg : BuildConfig} (sg : bool)
    (T1 In1 T2 In2 : int_type) (v1 v2 : Z) (buf : list Z) (o : nat) :
  representable T1 v1 → representable In1 v1 →
  representable T2 v2 → representable In2 v2 →
  (o + sizeof T1 + sizeof T2 ≤ length buf)%nat →
  ∃ buf1 buf2,
    write_impl T1 In1 v1 (Pointer (sg:=sg) buf o) = Ok (Pointer buf1 (o + sizeof T1))
    ∧ write_impl T2 In2 v2 (Pointer (sg:=sg) buf1 (o + sizeof T1))
      = Ok (Pointer buf2 (o + sizeof T1 + sizeof T2))
    ∧ read_impl T1 (Pointer (sg:=sg) buf2 o) = Ok (v1, Pointer buf2 (o + sizeof T1))
    ∧ read_impl T2 (Pointer (sg:=sg) buf2 (o + sizeof T1))
      = Ok (v2, Pointer buf2 (o + sizeof T1 + sizeof T2)).
Proof.
  intros HT1 HIn1 HT2 HIn2 Hlen.
  destruct (write_read_pointer sg T1 In1 v1 buf o HIn1 HT1 ltac:(lia))
    as (buf1 & Hw1 & Hr1).
  assert (Hlen1 : length buf1 = length buf).
  { rewrite write_impl_pointer in Hw1
      by (by apply assertion_passes_representable || lia).
    injection Hw1 as <-. apply written_length. lia. }
  destruct (write_read_pointer sg T2 In2 v2 buf1 (o + sizeof T1) HIn2 HT2 ltac:(lia))
    as (buf2 & Hw2 & Hr2).
  exists buf1, buf2. split_and!; try done.
  assert (Hframe : ∀ j, (j < o + sizeof T1)%nat → buf2 !! j = buf1 !! j).
  { intros j Hj.
    rewrite write_impl_pointer in Hw2
      by (by apply assertion_passes_representable || lia).
    injection Hw2 as <-. apply written_lookup_outside; lia. }
  assert (Hlen2 : length buf2 = length buf1).
  { rewrite write_impl_pointer in Hw2
      by (by apply assertion_passes_representable || lia).
    injection Hw2 as <-. apply written_length. lia. }
  rewrite read_impl_at in Hr1 by lia. rewrite read_impl_at by lia.
  injection Hr1 as Hv1. rewrite <- Hv1 at 1. do 4 f_equal.
  apply list_eq. intros i.
  destruct (decide (i < sizeof T1)%nat).
  - rewrite !lookup_take_lt, !lookup_drop by done. apply Hframe. lia.
  - by rewrite !lookup_take_ge by lia.
Qed.

Lemma write_write_read_read_example :
  ∃ buf1 buf2,
    write_impl (cfg:=debug_build) uint16_t int32_t 513
      (Pointer (sg:=true) [0; 0; 0; 0; 0; 0; 0] 0)
    = Ok (Pointer buf1 (0 + sizeof uint16_t))
    ∧ write_impl (cfg:=debug_build) int32_t int32_t (-2)
        (Pointer (sg:=true) buf1 (0 + sizeof uint16_t))
      = Ok (Pointer buf2 (0 + sizeof uint16_t + sizeof int32_t))
    ∧ read_impl uint16_t (Pointer (sg:=true) buf2 0)
      = Ok (513, Pointer buf2 (0 + sizeof uint16_t))
    ∧ read_impl int32_t (Pointer (sg:=true) buf2 (0 + sizeof uint16_t))
      = Ok (-2, Pointer buf2 (0 + sizeof uint16_t + sizeof int32_t)).
Proof.
  apply (write_write_read_read (cfg:=debug_build) true uint16_t int32_t int32_t int32_t
           513 (-2) [0; 0; 0; 0; 0; 0; 0] 0).
  - compute_done.
  - compute_done.
  - compute_done.
  - compute_done.
  - simpl. lia.
Defined.

(** X7. Round trip through a [back_insert_iterator]: a write appends
    [sizeof(T)] elements to the container, and a read from a pointer to
    the first of them returns the value written (narrowed to [T]). *)
Theorem write_back_insert_read {cfg : BuildConfig} (sg : bool) (T In : int_type)
    (data : Z) (c : list Z) :
  assertion_passes T In data →
  ∃ new,
    write_impl T In data (BackInserter (sg:=sg) c) = Ok (BackInserter (c ++ new))
    ∧ length new = sizeof T
    ∧ read_impl T (Pointer (sg:=sg) (c ++ new) (length c))
      = Ok (static_cast T data, Pointer (c ++ new) (length c + sizeof T)).
Proof.
  intros Hassert. eexists. split_and!.
  - rewrite write_impl_passes by done. apply write_loop_back_insert.
  - by rewrite length_fmap, be_bytes_length.
  - pose proof (read_impl_pointer sg T c
      (static_cast (byte_type sg) <$> be_bytes (static_cast T data) (sizeof T)) [])
      as Hread.
    rewrite app_nil_r in Hread.
    rewrite Hread by (by rewrite length_fmap, be_bytes_length).
    do 2 f_equal. rewrite be_value_be_bytes. fold (bits T).
    rewrite <- (static_cast_idemp T data) at 2.
    apply static_cast_congr. apply Z.mod_mod.
    pose proof (modulus_pos T). lia.
Qed.

Lemma write_back_insert_read_example :
  ∃ new,
    write_impl (cfg:=debug_build) (out_it:=back_insert_OutIt (cfg:=debug_build) false)
      int16_t int32_t (-2) (BackInserter [7; 8])
    = Ok (BackInserter ([7; 8] ++ new))
    ∧ length new = sizeof int16_t
    ∧ read_impl int16_t (Pointer (sg:=false) ([7; 8] ++ new) (length [7; 8]))
      = Ok (static_cast int16_t (-2),
            Pointer ([7; 8] ++ new) (length [7; 8] + sizeof int16_t)).
Proof.
  apply (write_back_insert_read (cfg:=debug_build) false int16_t int32_t (-2) [7; 8]).
  intros _. vm_compute. reflexivity.
Defined.

(** X8. The overload for [bool] writes [sizeof(T) - 1] zero bytes and
    then the byte [1] for [true], [0] for [false]; its assertion never
    fails, and a read returns [1] or [0]. *)
Theorem write_impl_bool_bytes {cfg : BuildConfig} (sg : bool) (T : int_type) (val : bool)
    (buf : list Z) (o : nat) :
  (o + sizeof T ≤ length buf)%nat →
  let b := if val then 1 else 0 in
  let buf' := take o buf ++ replicate (sizeof T - 1) 0 ++ [b]
                ++ drop (o + sizeof T) buf in
  write_impl_bool T val (Pointer (sg:=sg) buf o) = Ok (Pointer buf' (o + sizeof T))
  ∧ read_impl T (Pointer (sg:=sg) buf' o) = Ok (b, Pointer buf' (o + sizeof T)).
Proof.
  intros Hlen b buf'.
  assert (HT : representable T b) by (subst b; destruct T, val; compute_done).
  assert (HIn : representable int_t b) by (subst b; destruct val; compute_done).
  destruct (write_read_pointer sg T int_t b buf o HIn HT Hlen) as (buf'' & Hw & Hr).
  assert (Hbuf : buf'' = buf').
  { rewrite write_impl_pointer in Hw by (by apply assertion_passes_representable || lia).
    injection Hw as <-. subst buf' b. unfold written.
    apply (f_equal (app (take o buf))).
    rewrite (app_assoc (replicate _ _)).
    apply (f_equal (λ l, l ++ drop (o + sizeof T) buf)).
    by destruct T, sg, val. }
  subst buf''. by split.
Qed.

Lemma write_impl_bool_bytes_example :
  let b := if true then 1 else 0 in
  let buf' := take 1 [9; 9; 9; 9; 9; 9] ++ replicate (sizeof uint32_t - 1) 0 ++ [b]
                ++ drop (1 + sizeof uint32_t) [9; 9; 9; 9; 9; 9] in
  write_impl_bool (cfg:=debug_build) uint32_t true
    (Pointer (sg:=true) [9; 9; 9; 9; 9; 9] 1)
  = Ok (Pointer buf' (1 + sizeof uint32_t))
  ∧ read_impl uint32_t (Pointer (sg:=true) buf' 1)
    = Ok (b, Pointer buf' (1 + sizeof uint32_t)).
Proof.
  apply (write_impl_bool_bytes (cfg:=debug_build) true uint32_t true
           [9; 9; 9; 9; 9; 9] 1).
  simpl. lia.
Defined.

(** X9. [write_string] through a pointer to bytes of either signedness
    stores each character converted to the byte type: the eight bits of
    every character are kept, the buffer keeps its length and its other
    cells, and the cursor ends [length s] cells further. *)
Theorem write_string_bits (sg : bool) (s buf : list Z) (o : nat) :
  (o + length s ≤ length buf)%nat →
  ∃ buf',
    write_string s (Pointer (sg:=sg) buf o)
    = Ok (static_cast int_t (Z.of_nat (length s)), Pointer buf' (o + length s))
    ∧ length buf' = length buf
    ∧ (∀ j, (j < o ∨ o + length s ≤ j)%nat → buf' !! j = buf !! j)
    ∧ (∀ i c, s !! i = Some c →
         ∃ c', buf' !! (o + i)%nat = Some c'
               ∧ representable (byte_type sg) c'
               ∧ static_cast uint8_t c' = static_cast uint8_t c).
Proof.
  intros Hlen. eexists. split_and!.
  - unfold write_string. rewrite write_string_loop_pointer by done. done.
  - rewrite !length_app, length_take, length_fmap, length_drop. lia.
  - intros j [Hj|Hj].
    + rewrite lookup_app_l by (rewrite length_take; lia). by apply lookup_take_lt.
    + rewrite lookup_app_r by (rewrite length_take; lia).
      rewrite lookup_app_r by (rewrite length_take, length_fmap; lia).
      rewrite lookup_drop, length_take, length_fmap. f_equal. lia.
  - intros i c Hc. pose proof (lookup_lt_Some _ _ _ Hc) as Hi.
    exists (static_cast (byte_type sg) c). split_and!.
    + rewrite lookup_app_r by (rewrite length_take; lia).
      rewrite lookup_app_l by (rewrite length_fmap, length_take; lia).
      rewrite list_lookup_fmap, length_take.
      replace (o + i - o `min` length buf)%nat with i by lia.
      by rewrite Hc.
    + apply static_cast_representable.
    + apply uint8_of_byte, byte_type_size.
Qed.

Lemma write_string_bits_example :
  ∃ buf',
    write_string [104; 233; 108] (Pointer (sg:=true) [1; 2; 3; 4; 5] 1)
    = Ok (static_cast int_t (Z.of_nat (length [104; 233; 108])),
          Pointer buf' (1 + length [104; 233; 108]))
    ∧ length buf' = length [1; 2; 3; 4; 5]
    ∧ (∀ j, (j < 1 ∨ 1 + length [104; 233; 108] ≤ j)%nat
            → buf' !! j = [1; 2; 3; 4; 5] !! j)
    ∧ (∀ i c, [104; 233; 108] !! i = Some c →
         ∃ c', buf' !! (1 + i)%nat = Some c'
               ∧ representable (byte_type true) c'
               ∧ static_cast uint8_t c' = static_cast uint8_t c).
Proof.
  apply (write_string_bits true [104; 233; 108] [1; 2; 3; 4; 5] 1). simpl. lia.
Defined.

Lemma write_string_loop_app {It : Type} {out_it : OutIt It} (s1 s2 : list Z) (out : It) :
  write_string_loop (s1 ++ s2) out
  = (out1 ← write_string_loop s1 out; write_string_loop s2 out1).
Proof.
  revert out. induction s1 as [|c s1 IH]; intros out; [done|].
  cbn [app write_string_loop].
  destruct (assign_incr c out) as [out'|f]; [|done].
  cbn [mbind result_bind]. apply IH.
Qed.

(** X10. Writing a string in two pieces, the second at the iterator the
    first left, is writing the whole string, through any output
    iterator; the counts add up (while the total is at most [INT_MAX]),
    and if the first piece fails, so does the whole. *)
Theorem write_string_app {It : Type} {out_it : OutIt It} (s1 s2 : list Z) (out : It) :
  Z.of_nat (length s1 + length s2) ≤ 2147483647 →
  (∀ n1 out1 n2 out2,
     write_string s1 out = Ok (n1, out1) →
     write_string s2 out1 = Ok (n2, out2) →
     write_string (s1 ++ s2) out = Ok (n1 + n2, out2))
  ∧ (∀ f, write_string s1 out = Fault f → write_string (s1 ++ s2) out = Fault f).
Proof.
  intros Hmax. unfold write_string. rewrite write_string_loop_app. split.
  - intros n1 out1 n2 out2 H1 H2.
    destruct (write_string_loop s1 out) as [out1'|]; [|done].
    cbn [mbind result_bind] in *. injection H1 as <- ->.
    destruct (write_string_loop s2 out1) as [out2'|]; [|done].
    cbn [mbind result_bind] in *. injection H2 as <- ->.
    rewrite length_app, !static_cast_int_count by lia. do 2 f_equal. lia.
  - intros f H1. by destruct (write_string_loop s1 out).
Qed.

Lemma write_string_app_example :
  (∀ n1 out1 n2 out2,
     write_string [104; 105] (Pointer (sg:=true) [0; 0; 0; 0] 0) = Ok (n1, out1) →
     write_string [33] out1 = Ok (n2, out2) →
     write_string ([104; 105] ++ [33]) (Pointer (sg:=true) [0; 0; 0; 0] 0)
     = Ok (n1 + n2, out2))
  ∧ (∀ f, write_string [104; 105] (Pointer (sg:=true) [0; 0; 0; 0] 0) = Fault f →
          write_string ([104; 105] ++ [33]) (Pointer (sg:=true) [0; 0; 0; 0] 0)
          = Fault f).
Proof.
  apply (write_string_app [104; 105] [33] (Pointer (sg:=true) [0; 0; 0; 0] 0)).
  simpl. lia.
Defined.

(** X11. The specialisations of [read_impl] for the one-byte types
    return what the primary template would: they save the loop, and
    change no result, through any input iterator. *)
Theorem read_impl_specialisations {It : Type} {in_it : InIt It} (start : It) :
  read_impl uint8_t start = read_impl_primary uint8_t start
  ∧ read_impl int8_t start = read_impl_primary int8_t start.
Proof.
  unfold read_impl, read_impl_uint8, read_impl_int8, read_impl_primary.
  cbn [sizeof read_loop].
  destruct (deref_incr start) as [[c start']|f]; [|done].
  cbn [mbind result_bind].
  change (static_cast uint8_t (Z.shiftl 0 8)) with 0.
  change (static_cast int8_t (Z.shiftl 0 8)) with 0.
  rewrite !Z.lor_0_l. split.
  - by rewrite static_cast_idemp.
  - do 2 f_equal. symmetry. apply static_cast_congr.
    change (2 ^ bits int8_t) with 256. rewrite static_cast_uint8.
    apply Z.mod_mod. lia.
Qed.

(** X12. Neither function checks its cursor. A read, and a write that
    is not stopped by the assertion, touch exactly [sizeof(T)] cells:
    they step outside the buffer exactly when fewer than [sizeof(T)]
    cells are left at the cursor. *)
Theorem codec_bounds {cfg : BuildConfig} (sg : bool) (T In : int_type) (data : Z)
    (buf : list Z) (o : nat) :
  assertion_passes T In data →
  (read_impl T (Pointer (sg:=sg) buf o) = Fault out_of_bounds
   ↔ (length buf < o + sizeof T)%nat)
  ∧ (write_impl T In data (Pointer (sg:=sg) buf o) = Fault out_of_bounds
     ↔ (length buf < o + sizeof T)%nat).
Proof.
  intros Hassert.
  destruct (decide (o + sizeof T ≤ length buf)%nat) as [Hlen|Hlen].
  - rewrite read_impl_at, write_impl_pointer by done. split; split; (done || lia).
  - rewrite read_impl_short, write_impl_passes, write_loop_short
      by (done || destruct T; simpl in *; lia).
    split; split; (done || lia).
Qed.

Lemma codec_bounds_example :
  (read_impl uint32_t (Pointer (sg:=false) [1; 2; 3; 4; 5] 2) = Fault out_of_bounds
   ↔ (length [1; 2; 3; 4; 5] < 2 + sizeof uint32_t)%nat)
  ∧ (write_impl (cfg:=debug_build) uint32_t uint32_t 7
       (Pointer (sg:=false) [1; 2; 3; 4; 5] 2) = Fault out_of_bounds
     ↔ (length [1; 2; 3; 4; 5] < 2 + sizeof uint32_t)%nat).
Proof.
  apply (codec_bounds (cfg:=debug_build) false uint32_t uint32_t 7 [1; 2; 3; 4; 5] 2).
  intros _. vm_compute. reflexivity.
Defined.

(** * Properties of the job record *)

Lemma apply_init_move_flags j i :
  DiskIoJob.sets_move_flags i = false →
  DiskIoJob.move_flags (DiskIoJob.apply_init j i) = DiskIoJob.move_flags j.
Proof. by destruct i. Qed.

Lemma foldl_apply_init_move_flags inits j :
  Forall (λ i, DiskIoJob.sets_move_flags i = false) inits →
  DiskIoJob.move_flags (foldl DiskIoJob.apply_init j inits) = DiskIoJob.move_flags j.
Proof.
  intros Hall. revert j.
  induction Hall as [|i inits Hi _ IH]; intros j; [done|].
  cbn [foldl]. by rewrite IH, apply_init_move_flags.
Qed.

(** C8. A record constructed without an initializer or assignment for
    [move_flags] has [move_flags = always_replace_files]. *)
Theorem move_flags_default (inits : list DiskIoJob.member_init) :
  Forall (λ i, DiskIoJob.sets_move_flags i = false) inits →
  DiskIoJob.move_flags (DiskIoJob.construct inits) = DiskIoJob.always_replace_files.
Proof.
  intros Hall. unfold DiskIoJob.construct.
  by rewrite foldl_apply_init_move_flags.
Qed.

Lemma move_flags_default_example :
  DiskIoJob.move_flags
    (DiskIoJob.construct
       [DiskIoJob.init_argument (DiskIoJob.arg_remove_flags 0);
        DiskIoJob.init_piece 0;
        DiskIoJob.init_d (DiskIoJob.un_io
          {| DiskIoJob.offset := 0; DiskIoJob.buffer_size := 0;
             DiskIoJob.buffer_offset := 0 |})])
  = DiskIoJob.always_replace_files.
Proof.
  apply move_flags_default. repeat constructor.
Defined.

(** A member keeps its value through the initializers that do not name
    it. *)
Lemma foldl_apply_init_keeps {A : Type} (proj : DiskIoJob.disk_io_job → A)
    (m : DiskIoJob.member) :
  (∀ j i, DiskIoJob.names i ≠ m → proj (DiskIoJob.apply_init j i) = proj j) →
  ∀ inits j,
    Forall (λ i, DiskIoJob.names i ≠ m) inits →
    proj (foldl DiskIoJob.apply_init j inits) = proj j.
Proof.
  intros Hstep inits j Hall. revert j.
  induction Hall as [|i inits Hi _ IH]; intros j; [done|].
  cbn [foldl]. by rewrite IH, Hstep.
Qed.

(** X13. The members with a default member initializer. A record
    constructed without an initializer or assignment for [action] is a
    [read] job; without one for [ret], its status is [no_error]; without
    one for [flags], no flag is set; and each of the debugging members
    [in_use], [job_posted], [callback_called] and [blocked] that is not
    named is [false]. *)
Theorem member_defaults (inits : list DiskIoJob.member_init) :
  (Forall (λ i, DiskIoJob.names i ≠ DiskIoJob.m_action) inits →
   DiskIoJob.action (DiskIoJob.construct inits) = DiskIoJob.read)
  ∧ (Forall (λ i, DiskIoJob.names i ≠ DiskIoJob.m_ret) inits →
     DiskIoJob.ret (DiskIoJob.construct inits) = DiskIoJob.no_error)
  ∧ (Forall (λ i, DiskIoJob.names i ≠ DiskIoJob.m_flags) inits →
     DiskIoJob.flags (DiskIoJob.construct inits) = 0)
  ∧ (Forall (λ i, DiskIoJob.names i ≠ DiskIoJob.m_in_use) inits →
     DiskIoJob.in_use (DiskIoJob.construct inits) = false)
  ∧ (Forall (λ i, DiskIoJob.names i ≠ DiskIoJob.m_job_posted) inits →
     DiskIoJob.job_posted (DiskIoJob.construct inits) = false)
  ∧ (Forall (λ i, DiskIoJob.names i ≠ DiskIoJob.m_callback_called) inits →
     DiskIoJob.callback_called (DiskIoJob.construct inits) = false)
  ∧ (Forall (λ i, DiskIoJob.names i ≠ DiskIoJob.m_blocked) inits →
     DiskIoJob.blocked (DiskIoJob.construct inits) = false).
Proof.
  unfold DiskIoJob.construct. split_and!; intros Hall.
  - apply (foldl_apply_init_keeps DiskIoJob.action DiskIoJob.m_action);
      [intros j i Hi; by destruct i | done].
  - apply (foldl_apply_init_keeps DiskIoJob.ret DiskIoJob.m_ret);
      [intros j i Hi; by destruct i | done].
  - apply (foldl_apply_init_keeps DiskIoJob.flags DiskIoJob.m_flags);
      [intros j i Hi; by destruct i | done].
  - apply (foldl_apply_init_keeps DiskIoJob.in_use DiskIoJob.m_in_use);
      [intros j i Hi; by destruct i | done].
  - apply (foldl_apply_init_keeps DiskIoJob.job_posted DiskIoJob.m_job_posted);
      [intros j i Hi; by destruct i | done].
  - apply (foldl_apply_init_keeps DiskIoJob.callback_called DiskIoJob.m_callback_called);
      [intros j i Hi; by destruct i | done].
  - apply (foldl_apply_init_keeps DiskIoJob.blocked DiskIoJob.m_blocked);
      [intros j i Hi; by destruct i | done].
Qed.

Lemma member_defaults_example :
  DiskIoJob.action
    (DiskIoJob.construct
       [DiskIoJob.init_argument (DiskIoJob.arg_string [97]);
        DiskIoJob.init_flags DiskIoJob.fence])
  = DiskIoJob.read.
Proof.
  apply member_defaults. repeat constructor; discriminate.
Defined.

(** * Properties of the job system *)

Import DiskIoJob JobSystem.

(** ** Flags *)

Lemma has_flag_fence_set_other f fl :
  Z.land f fence = 0 → has_flag fence (set_flag f fl) = has_flag fence fl.
Proof.
  intros Hf. unfold has_flag, set_flag.
  by rewrite Z.land_lor_distr_l, Hf, Z.lor_0_r.
Qed.

Lemma has_flag_fence_set fl : has_flag fence (set_flag fence fl) = true.
Proof.
  unfold has_flag, set_flag. rewrite Z.land_lor_distr_l.
  apply negb_true_iff, Z.eqb_neq. intros Heq.
  apply Z.lor_eq_0_iff in Heq as [_ Heq]. discriminate Heq.
Qed.

Lemma has_flag_fence_clear fl : has_flag fence (clear_flag fence fl) = false.
Proof.
  unfold has_flag, clear_flag. rewrite <- Z.land_assoc.
  change (Z.land (Z.lnot fence) fence) with 0. by rewrite Z.land_0_r.
Qed.

Lemma same_job_unblock st r : same_job r (unblock st r).
Proof. unfold unblock. by case_decide. Qed.

Lemma fence_of_same_job r r' : same_job r r' → fence_of r' = fence_of r.
Proof. intros (_ & Hact & Hsto & _). unfold fence_of. by rewrite Hact, Hsto. Qed.

Lemma fence_of_storage r st : fence_of r = Some st → storage r = Some st.
Proof. unfold fence_of. by destruct (raises_fence (action r)). Qed.

(** ** Outcomes *)

Lemma carries_same_job r r' o : same_job r r' → carries r o → carries r' o.
Proof.
  intros (_ & _ & _ & _ & _ & _ & Herr & Hret & Hd).
  destruct o; simpl; by rewrite Herr, Hret, ?Hd.
Qed.

Lemma carries_posted r o : carries (posted r o) o.
Proof. by destruct o. Qed.

Lemma posted_spec r o :
  callback (posted r o) = callback r ∧ action (posted r o) = action r
  ∧ storage (posted r o) = storage r
  ∧ callback_called (posted r o) = callback_called r
  ∧ job_posted (posted r o) = true
  ∧ has_flag fence (flags (posted r o)) = false.
Proof. destruct o; split_and!; try done; apply has_flag_fence_clear. Qed.

Lemma fence_release_Permutation st (l : list (nat * nat)) :
  (filter (λ e, e.1 = st) l).*2 ++ (filter (λ e, e.1 ≠ st) l).*2 ≡ₚ l.*2.
Proof. rewrite <- fmap_app. f_equiv. apply filter_app_complement. Qed.

Lemma fence_release_length st (l : list (nat * nat)) :
  (length (filter (λ e, e.1 = st) l) + length (filter (λ e, e.1 ≠ st) l))%nat
  = length l.
Proof. rewrite <- length_app. apply Permutation_length, filter_app_complement. Qed.

Section Preservation.
Variable handler_for : job_action_t → handler_kind.
#[local] Abbreviation invariant := (JobSystem.invariant handler_for).

(** The record the control context constructs. *)
Lemma new_job_spec q :
  let r := new_job handler_for q in
  action r = rq_action q ∧ storage r = rq_storage q
  ∧ callback r = make_callback (handler_for (rq_action q)) (rq_handler q)
  ∧ flags r = 0 ∧ job_posted r = false ∧ callback_called r = false.
Proof. destruct q as [a arg sto h [t|] [dt|] mf]; done. Qed.

Lemma callback_index_make_callback k h : callback_index (make_callback k h) = k.
Proof. by destruct k. Qed.

Lemma invariant_initial : invariant initial.
Proof.
  split; simpl.
  all: try (by constructor).
  all: try (by intros ??? ?%elem_of_nil).
  all: try (by intros ?? ?%elem_of_nil).
  all: try (by intros ? ?%elem_of_nil).
  all: try done.
  - intros j. rewrite lookup_empty. split; [by intros [??]|]. by intros ?%elem_of_nil.
  - intros j. split; [by intros ?%elem_of_nil|]. by intros [?%elem_of_nil|?%elem_of_nil].
Qed.

Lemma held_is_live s j : invariant s → j ∈ held s → ∃ r, jobs s !! j = Some r.
Proof. intros Hinv Hin. by apply (inv_live _ _ Hinv) in Hin as [r Hr]; exists r. Qed.

Lemma running_held s j : j ∈ running s → j ∈ held s.
Proof. unfold held, active, running. rewrite !elem_of_app. tauto. Qed.

Lemma running_active s j : j ∈ running s → j ∈ active s.
Proof. unfold active, running. rewrite !elem_of_app. tauto. Qed.

(** A record is in one place. *)
Lemma pending_not_running s j :
  invariant s → j ∈ pending s → ¬ (j ∈ running s).
Proof.
  intros Hinv Hp Hr. pose proof (inv_nodup _ _ Hinv) as Hnd.
  unfold held, active in Hnd. rewrite <- !app_assoc in Hnd.
  apply NoDup_app in Hnd as (_ & Hdisj & _). apply (Hdisj j Hp).
  unfold running in Hr. rewrite !elem_of_app in *. tauto.
Qed.

Lemma active_not_finished s j :
  invariant s → j ∈ active s → ¬ (j ∈ (finished s).*1).
Proof.
  intros Hinv Ha Hf. pose proof (inv_nodup _ _ Hinv) as Hnd.
  unfold held in Hnd. rewrite <- !app_assoc in Hnd.
  apply NoDup_app in Hnd as (_ & Hdisj & _).
  apply (Hdisj j Ha). apply (inv_finished _ _ Hinv) in Hf.
  rewrite !elem_of_app. tauto.
Qed.

(** Records moved among the queues, with the fence and the workers as
    they were. *)
Lemma invariant_move s s' :
  invariant s →
  jobs s' = jobs s → fences s' = fences s →
  completed s' = completed s → calls s' = calls s → submitted s' = submitted s →
  finished s' = finished s →
  held s' ≡ₚ held s → running s' ≡ₚ running s →
  (∀ st j, (st, j) ∈ fence_wait s' → is_Some (fences s !! st)) →
  invariant s'.
Proof.
  intros [Hnd Hlive Hsub Hsub1 Hrec Hcalls Hfin1 Hfin Hwait Hhold Hflag Hex Hfc]
    Hj Hf Hc Hca Hsu Hfi Hheld Hrun Hfw.
  split; rewrite ?Hj, ?Hf, ?Hc, ?Hca, ?Hsu, ?Hfi, ?Hheld; try done.
  - by setoid_rewrite Hheld.
  - by setoid_rewrite Hheld.
  - intros st h Hh. rewrite Hrun. by apply Hhold.
  - intros st h i r Hh Hi. rewrite Hrun in Hi. by eapply Hex.
  - intros st i r Hi. rewrite Hrun in Hi. by eapply Hfc.
Qed.

(** A record updated in place. *)
Lemma invariant_update s j r r' :
  invariant s → jobs s !! j = Some r → same_job r r' →
  invariant (set_jobs (<[j := r']> (jobs s)) s).
Proof.
  intros [Hnd Hlive Hsub Hsub1 Hrec Hcalls Hfin1 Hfin Hwait Hhold Hflag Hex Hfc] Hj Hsame.
  pose proof Hsame as (Hcb & Hact & Hsto & Hcc & Hjp & Hfl & _).
  split; simpl; try done.
  - intros i. rewrite <- Hlive. rewrite lookup_insert_is_Some.
    destruct (decide (j = i)) as [->|]; [|naive_solver]. rewrite Hj. naive_solver.
  - intros i ri. rewrite lookup_insert_Some. intros [[-> <-]|[_ Hi]]; [|by apply Hrec].
    rewrite Hcb, Hact, Hcc, Hjp.
    destruct (Hrec i r Hj) as (? & ? & ? & Hp). split_and!; try done.
    intros Hin. destruct (Hp Hin) as (? & o & ? & ?). split; [done|].
    exists o. split; [done|]. by eapply carries_same_job.
  - intros st h Hh. destruct (Hhold st h Hh) as (Hloc & rh & Hrh & ? & ?).
    split; [done|]. destruct (decide (j = h)) as [->|Hne].
    + exists r'. rewrite lookup_insert_eq. rewrite Hsto, Hfl.
      assert (rh = r) as -> by congruence. done.
    + exists rh. by rewrite lookup_insert_ne.
  - intros i ri. rewrite lookup_insert_Some. intros [[-> <-]|[_ Hi]]; [|by apply Hflag].
    rewrite Hsto, Hfl. by apply Hflag.
  - intros st h i ri Hh Hi. rewrite lookup_insert_Some. intros [[-> <-]|[_ Hri]].
    + rewrite Hsto. by eapply Hex.
    + by eapply Hex.
  - intros st i ri Hi. rewrite lookup_insert_Some. intros [[-> <-]|[_ Hri]].
    + rewrite (fence_of_same_job r r' Hsame). by eapply Hfc.
    + by eapply Hfc.
Qed.

(** What a fresh address is not. *)
Lemma fresh_not_held s j :
  invariant s → fresh j s → ¬ (j ∈ held s) ∧ ¬ (j ∈ (calls s).*1).
Proof.
  intros Hinv [Hj Hsub]. split.
  - intros Hin. apply (inv_live _ _ Hinv) in Hin as [r Hr]. congruence.
  - intros Hin. apply Hsub, (inv_submitted _ _ Hinv). by right.
Qed.

(** A job submitted: its record enters one queue. *)
Lemma invariant_submit s s' j r :
  invariant s → fresh j s →
  callback_index (callback r) = handler_for (action r) →
  callback_called r = false → has_flag fence (flags r) = false →
  jobs s' = <[j := r]> (jobs s) → submitted s' = submitted s ++ [(j, action r)] →
  fences s' = fences s → completed s' = completed s → calls s' = calls s →
  finished s' = finished s → running s' = running s →
  held s' ≡ₚ j :: held s →
  (∀ st i, (st, i) ∈ fence_wait s' → is_Some (fences s !! st)) →
  invariant s'.
Proof.
  intros Hinv Hfresh Hcb Hcc Hfl Hj' Hsu' Hf' Hc' Hca' Hfi' Hrun' Hheld Hfw'.
  destruct (fresh_not_held s j Hinv Hfresh) as [Hnh Hnc].
  destruct Hfresh as [Hj Hns].
  assert (Hrunj : ∀ i, i ∈ running s → i ≠ j).
  { intros i Hi ->. by apply Hnh, running_held. }
  destruct Hinv as [Hnd Hlive Hsub Hsub1 Hrec Hcalls Hfin1 Hfin Hwait Hhold Hflag Hex Hfc].
  split; rewrite ?Hj', ?Hsu', ?Hf', ?Hc', ?Hca', ?Hfi', ?Hrun'; try done.
  - rewrite Hheld. simpl. apply NoDup_cons. split; [|done].
    rewrite elem_of_app. tauto.
  - intros i. rewrite Hheld, lookup_insert_is_Some, elem_of_cons, Hlive.
    destruct (decide (j = i)); naive_solver.
  - intros i. rewrite Hheld, fmap_app, elem_of_app, elem_of_cons, Hsub. simpl.
    rewrite list_elem_of_singleton. naive_solver.
  - rewrite fmap_app. apply NoDup_app. split_and!; [done| |apply NoDup_singleton].
    intros i Hi ->%list_elem_of_singleton. done.
  - intros i ri. rewrite lookup_insert_Some. intros [[-> <-]|[_ Hi]].
    + split_and!; try done.
      * rewrite elem_of_app, list_elem_of_singleton. by right.
      * intros Hin. destruct Hnh. unfold held. rewrite !elem_of_app. tauto.
    + destruct (Hrec i ri Hi) as (? & ? & ? & ?). split_and!; try done.
      rewrite elem_of_app. by left.
  - intros i k ri Hin. destruct (Hcalls i k ri Hin) as (? & ? & ? & ? & ? & ?).
    split_and!; try done. rewrite elem_of_app. by left.
  - intros st h Hh. destruct (Hhold st h Hh) as (Hloc & rh & Hrh & ? & ?).
    split; [done|]. exists rh. rewrite lookup_insert_ne; [done|].
    intros ->. by apply (Hrunj h).
  - intros i ri. rewrite lookup_insert_Some. intros [[-> <-]|[_ Hi]].
    + by rewrite Hfl.
    + by apply Hflag.
  - intros st h i ri Hh Hi. rewrite lookup_insert_ne by (intros ->; by apply (Hrunj i)).
    by eapply Hex.
  - intros st i ri Hi. rewrite lookup_insert_ne by (intros ->; by apply (Hrunj i)).
    by eapply Hfc.
Qed.

Lemma running_NoDup s : invariant s → NoDup (running s).
Proof.
  intros Hinv. pose proof (inv_nodup _ _ Hinv) as Hnd.
  unfold held, active in Hnd. fold (running s) in Hnd.
  rewrite <- !app_assoc in Hnd.
  apply NoDup_app in Hnd as (_ & _ & Hnd). by apply NoDup_app in Hnd as (Hnd & _).
Qed.

Lemma elem_of_removed {A} (l l' : list A) (j : A) :
  NoDup l → l ≡ₚ j :: l' → ∀ i, i ∈ l' ↔ i ∈ l ∧ i ≠ j.
Proof.
  intros Hnd Hp i. rewrite Hp in Hnd. rewrite Hp.
  apply NoDup_cons in Hnd as [Hj _]. rewrite elem_of_cons.
  split; [intros Hi; split; [by right|by intros ->]|].
  by intros [[->|?] ?].
Qed.

(** Where a pending record is not. *)
Lemma pending_elsewhere s j :
  invariant s → j ∈ pending s →
  ¬ (j ∈ (cache_wait s).*2 ++ executing s ++ (fence_wait s).*2 ++ completed s
         ++ (calls s).*1).
Proof.
  intros Hinv Hp. pose proof (inv_nodup _ _ Hinv) as Hnd.
  unfold held, active in Hnd. rewrite <- !app_assoc in Hnd.
  apply NoDup_app in Hnd as (_ & Hdisj & _). by apply Hdisj.
Qed.

(** A job begins execution. *)
Lemma invariant_begin s j rest r :
  invariant s → pending s = j :: rest → jobs s !! j = Some r →
  (∀ st, storage r = Some st → fences s !! st = None) →
  (∀ st i ri, fence_of r = Some st → i ∈ running s → jobs s !! i = Some ri →
              storage ri ≠ Some st) →
  invariant (set_executing (executing s ++ [j]) (begin j r (set_pending rest s))).
Proof.
  intros Hinv Hp Hj Hunf Halone.
  assert (Hjp : j ∈ pending s) by (rewrite Hp; apply elem_of_cons; by left).
  pose proof (pending_elsewhere s j Hinv Hjp) as Hels.
  rewrite !elem_of_app in Hels.
  assert (Hjr : ¬ (j ∈ running s)).
  { unfold running. rewrite elem_of_app. tauto. }
  assert (Hold : has_flag fence (flags r) = false).
  { destruct (has_flag fence (flags r)) eqn:Hfl; [|done].
    destruct (inv_fence_flag _ _ Hinv j r Hj Hfl) as (st & Hst & Hfst).
    by rewrite (Hunf st Hst) in Hfst. }
  set (s' := set_executing _ _).
  assert (∃ r' f',
    jobs s' = <[j := r']> (jobs s) ∧ fences s' = f'
    ∧ callback r' = callback r ∧ action r' = action r ∧ storage r' = storage r
    ∧ callback_called r' = callback_called r
    ∧ ((fence_of r = None ∧ f' = fences s ∧ has_flag fence (flags r') = false)
       ∨ (∃ st, fence_of r = Some st ∧ f' = <[st := j]> (fences s)
                ∧ has_flag fence (flags r') = true)))
    as (r' & f' & Hj' & Hf' & Hcb & Hact & Hsto & Hcc & Hcase).
  { subst s'. unfold begin. destruct (fence_of r) as [st|] eqn:Hfo.
    - eexists _, _. split_and!; try done. right. exists st. split_and!; try done.
      simpl. apply has_flag_fence_set.
    - eexists _, _. split_and!; try done. left. split_and!; try done.
      simpl. by rewrite has_flag_fence_set_other. }
  assert (Hfo' : fence_of r' = fence_of r) by (unfold fence_of; by rewrite Hact, Hsto).
  assert (Hp' : pending s' = rest) by (subst s'; unfold begin; by destruct (fence_of r)).
  assert (He' : executing s' = executing s ++ [j])
    by (subst s'; unfold begin; by destruct (fence_of r)).
  assert (Hcw' : cache_wait s' = cache_wait s)
    by (subst s'; unfold begin; by destruct (fence_of r)).
  assert (Hfw' : fence_wait s' = fence_wait s)
    by (subst s'; unfold begin; by destruct (fence_of r)).
  assert (Hc' : completed s' = completed s)
    by (subst s'; unfold begin; by destruct (fence_of r)).
  assert (Hca' : calls s' = calls s)
    by (subst s'; unfold begin; by destruct (fence_of r)).
  assert (Hsu' : submitted s' = submitted s)
    by (subst s'; unfold begin; by destruct (fence_of r)).
  assert (Hfi' : finished s' = finished s)
    by (subst s'; unfold begin; by destruct (fence_of r)).
  clearbody s'.
  assert (Hheld : held s' ≡ₚ held s).
  { unfold held, active. rewrite Hp', He', Hcw', Hfw', Hc', Hp. solve_Permutation. }
  assert (Hrun : ∀ i, i ∈ running s' ↔ i ∈ running s ∨ i = j).
  { intros i. unfold running. rewrite He', Hcw', !elem_of_app, list_elem_of_singleton.
    tauto. }
  assert (Hfsome : ∀ st, is_Some (fences s !! st) → is_Some (f' !! st)).
  { intros st Hst. destruct Hcase as [(_ & -> & _)|(st0 & _ & -> & _)]; [done|].
    rewrite lookup_insert_is_Some'. by right. }
  assert (Hfkeep : ∀ st h, fences s !! st = Some h → f' !! st = Some h).
  { intros st h Hst. destruct Hcase as [(_ & -> & _)|(st0 & Hfo & -> & _)]; [done|].
    rewrite lookup_insert_ne; [done|]. intros ->.
    by rewrite (Hunf st (fence_of_storage r st Hfo)) in Hst. }
  assert (Hfnew : ∀ st h, f' !! st = Some h →
            fences s !! st = Some h ∨ (h = j ∧ fence_of r = Some st)).
  { intros st h Hst. destruct Hcase as [(_ & -> & _)|(st0 & Hfo & -> & _)]; [by left|].
    apply lookup_insert_Some in Hst as [[-> <-]|[_ Hst]]; [by right|by left]. }
  destruct Hinv as [Hnd Hlive Hsub Hsub1 Hrec Hcalls Hfin1 Hfin Hwait Hhold Hflag Hex Hfc].
  split; rewrite ?Hj', ?Hf', ?Hc', ?Hca', ?Hsu', ?Hfi', ?Hfw'; try done.
  - by rewrite Hheld.
  - intros i. rewrite Hheld, <- Hlive, lookup_insert_is_Some.
    destruct (decide (j = i)) as [->|]; [|naive_solver]. rewrite Hj. naive_solver.
  - intros i. by rewrite Hheld.
  - intros i ri. rewrite lookup_insert_Some. intros [[-> <-]|[_ Hi]]; [|by apply Hrec].
    rewrite Hcb, Hact, Hcc. destruct (Hrec i r Hj) as (? & ? & ? & _).
    split_and!; try done. intros Hin. tauto.
  - intros st i Hin. apply Hfsome. by eapply Hwait.
  - intros st h Hh. apply Hfnew in Hh as [Hh|[-> Hfo]].
    + destruct (Hhold st h Hh) as (Hloc & rh & Hrh & ? & ?). split.
      * apply Hrun. by left.
      * exists rh. rewrite lookup_insert_ne; [done|]. by intros ->.
    + split; [apply Hrun; by right|]. exists r'. rewrite lookup_insert_eq.
      split_and!; [done|by rewrite Hsto; apply fence_of_storage|].
      destruct Hcase as [(Hnone & _)|(? & _ & _ & ?)]; [congruence|done].
  - intros i ri. rewrite lookup_insert_Some. intros [[-> <-]|[Hne Hi]] Hfl.
    + destruct Hcase as [(_ & _ & Hno)|(st & Hfo & -> & _)]; [congruence|].
      exists st. rewrite Hsto, lookup_insert_eq. split; [|done].
      by apply fence_of_storage.
    + destruct (Hflag i ri Hi Hfl) as (st & ? & Hst). exists st. split; [done|].
      by apply Hfkeep.
  - intros st h i ri Hh Hi Hri Hst. apply Hrun in Hi.
    apply lookup_insert_Some in Hri as [[-> <-]|[Hne Hri]].
    + rewrite Hsto in Hst. apply Hfnew in Hh as [Hh|[-> _]]; [|done].
      by rewrite (Hunf st Hst) in Hh.
    + destruct Hi as [Hi|?]; [|congruence].
      apply Hfnew in Hh as [Hh|[-> Hfo]]; [by eapply Hex|].
      by destruct (Halone st i ri Hfo Hi Hri).
  - intros st i ri Hi Hri Hfo. apply Hrun in Hi.
    apply lookup_insert_Some in Hri as [[-> <-]|[Hne Hri]].
    + rewrite Hfo' in Hfo.
      destruct Hcase as [(Hnone & _)|(st0 & Hfo0 & -> & _)]; [congruence|].
      assert (st0 = st) as -> by congruence. by rewrite lookup_insert_eq.
    + destruct Hi as [Hi|?]; [|congruence]. apply Hfkeep. by eapply Hfc.
Qed.

(** Completion of a job that holds no fence. *)
Lemma invariant_post s s0 j r o :
  invariant s → jobs s !! j = Some r → has_flag fence (flags r) = false →
  jobs s0 = jobs s → fence_wait s0 = fence_wait s → fences s0 = fences s →
  completed s0 = completed s → calls s0 = calls s → submitted s0 = submitted s →
  finished s0 = finished s →
  j :: active s0 ≡ₚ active s →
  (∀ i, i ∈ running s0 ↔ i ∈ running s ∧ i ≠ j) →
  invariant (set_finished (finished s0 ++ [(j, o)])
               (set_completed (completed s0 ++ [j])
                  (set_jobs (<[j := posted r o]> (jobs s0)) s0))).
Proof.
  intros Hinv Hj Hfr Hj0 Hfw Hf Hc Hca Hsu Hfi Hact Hrun.
  assert (Hja : j ∈ active s) by (rewrite <- Hact; apply elem_of_cons; by left).
  pose proof (active_not_finished s j Hinv Hja) as Hjf.
  destruct Hinv as [Hnd Hlive Hsub Hsub1 Hrec Hcalls Hfin1 Hfin Hwait Hhold Hflag Hex Hfc].
  set (s' := set_finished _ _).
  assert (Hheld : held s' ≡ₚ held s).
  { unfold held. rewrite <- Hact. simpl. rewrite Hfw, Hc. solve_Permutation. }
  assert (Hrun' : ∀ i, i ∈ running s' ↔ i ∈ running s ∧ i ≠ j) by done.
  split.
  - rewrite Hheld. simpl. by rewrite Hca.
  - intros i. rewrite Hheld, <- Hlive. simpl. rewrite Hj0, lookup_insert_is_Some.
    destruct (decide (j = i)) as [->|]; [|naive_solver]. rewrite Hj. naive_solver.
  - intros i. rewrite Hheld. simpl. by rewrite Hca, Hsu.
  - simpl. by rewrite Hsu.
  - intros i ri. simpl. rewrite Hj0, Hc, Hsu, Hfi, lookup_insert_Some.
    intros [[-> <-]|[Hne Hi]].
    + destruct (Hrec i r Hj) as (? & ? & ? & _).
      destruct (posted_spec r o) as (-> & -> & _ & -> & -> & _).
      split_and!; try done.
      intros _. split; [done|]. exists o. split; [|apply carries_posted].
      rewrite elem_of_app, list_elem_of_singleton. by right.
    + destruct (Hrec i ri Hi) as (? & ? & ? & Hp). split_and!; try done.
      rewrite elem_of_app, list_elem_of_singleton. intros [Hin|?]; [|congruence].
      destruct (Hp Hin) as (? & o' & ? & ?). split; [done|]. exists o'.
      split; [|done]. rewrite elem_of_app. by left.
  - intros i k ri. simpl. rewrite Hca, Hsu, Hfi. intros Hin.
    destruct (Hcalls i k ri Hin) as (? & ? & ? & ? & ? & o' & ? & ?).
    split_and!; try done. exists o'. split; [|done]. rewrite elem_of_app. by left.
  - simpl. rewrite Hfi, fmap_app. apply NoDup_app. split_and!; [done| |apply NoDup_singleton].
    intros i Hi ->%list_elem_of_singleton. done.
  - intros i. simpl. rewrite Hfi, Hc, Hca, fmap_app, !elem_of_app. simpl.
    rewrite list_elem_of_singleton. intros [Hi| ->]; [|tauto].
    apply Hfin in Hi. tauto.
  - simpl. by rewrite Hfw, Hf.
  - intros sto h. simpl. rewrite Hf. intros Hh.
    destruct (Hhold sto h Hh) as (Hloc & rh & Hrh & ? & ?).
    assert (h ≠ j) by (intros ->; congruence).
    split; [by apply Hrun'|]. exists rh. by rewrite Hj0, lookup_insert_ne.
  - intros i ri. simpl. rewrite Hj0, Hf, lookup_insert_Some.
    intros [[-> <-]|[Hne Hi]].
    + by destruct (posted_spec r o) as (_ & _ & _ & _ & _ & ->).
    + by apply Hflag.
  - intros sto h i ri. simpl. rewrite Hf, Hj0. intros Hh [Hi Hne]%Hrun'.
    rewrite lookup_insert_ne by done. by eapply Hex.
  - intros sto i ri [Hi Hne]%Hrun'. simpl. rewrite Hf, Hj0.
    rewrite lookup_insert_ne by done. by eapply Hfc.
Qed.

(** Completion of a fence holder, which lowers the fence. *)
Lemma invariant_post_lower s s0 j r sto o :
  invariant s → jobs s !! j = Some r → has_flag fence (flags r) = true →
  storage r = Some sto →
  jobs s0 = jobs s → fence_wait s0 = fence_wait s → fences s0 = fences s →
  completed s0 = completed s → calls s0 = calls s → submitted s0 = submitted s →
  finished s0 = finished s →
  j :: active s0 ≡ₚ active s →
  (∀ i, i ∈ running s0 ↔ i ∈ running s ∧ i ≠ j) →
  invariant (lower_fence sto
               (set_finished (finished s0 ++ [(j, o)])
                  (set_completed (completed s0 ++ [j])
                     (set_jobs (<[j := posted r o]> (jobs s0)) s0)))).
Proof.
  intros Hinv Hj Hfr Hsto Hj0 Hfw Hf Hc Hca Hsu Hfi Hact Hrun.
  assert (Hja : j ∈ active s) by (rewrite <- Hact; apply elem_of_cons; by left).
  pose proof (active_not_finished s j Hinv Hja) as Hjf.
  destruct Hinv as [Hnd Hlive Hsub Hsub1 Hrec Hcalls Hfin1 Hfin Hwait Hhold Hflag Hex Hfc].
  destruct (Hflag j r Hj Hfr) as (sto' & Hsto' & Hfsto).
  assert (sto' = sto) as -> by congruence. clear Hsto'.
  set (s' := lower_fence _ _).
  assert (Hheld : held s' ≡ₚ held s).
  { unfold held. rewrite <- Hact. unfold active; simpl. rewrite Hfw, Hc.
    rewrite <- (fence_release_Permutation sto (fence_wait s)).
    solve_Permutation. }
  assert (Hrun' : ∀ i, i ∈ running s' ↔ i ∈ running s ∧ i ≠ j) by done.
  assert (Hlookup : ∀ i, jobs s' !! i
            = unblock sto <$> (<[j := posted r o]> (jobs s) !! i)).
  { intros i. simpl. by rewrite lookup_fmap, Hj0. }
  split.
  - rewrite Hheld. simpl. by rewrite Hca.
  - intros i. rewrite Hheld, <- Hlive, Hlookup, fmap_is_Some, lookup_insert_is_Some.
    destruct (decide (j = i)) as [->|]; [|naive_solver]. rewrite Hj. naive_solver.
  - intros i. rewrite Hheld. simpl. by rewrite Hca, Hsu.
  - simpl. by rewrite Hsu.
  - intros i ri. rewrite Hlookup. simpl. rewrite Hc, Hsu, Hfi. intros Hi.
    apply fmap_Some in Hi as (r0 & Hr0 & ->).
    pose proof (same_job_unblock sto r0) as Hsame.
    pose proof Hsame as (-> & -> & _ & -> & -> & _).
    apply lookup_insert_Some in Hr0 as [[-> <-]|[Hne Hi]].
    + destruct (Hrec i r Hj) as (? & ? & ? & _).
      destruct (posted_spec r o) as (-> & -> & _ & -> & -> & _).
      split_and!; try done.
      intros _. split; [done|]. exists o. split.
      * rewrite elem_of_app, list_elem_of_singleton. by right.
      * eapply carries_same_job; [done|]. apply carries_posted.
    + destruct (Hrec i r0 Hi) as (? & ? & ? & Hp). split_and!; try done.
      rewrite elem_of_app, list_elem_of_singleton. intros [Hin|?]; [|congruence].
      destruct (Hp Hin) as (? & o' & ? & ?). split; [done|]. exists o'.
      split; [rewrite elem_of_app; by left|]. by eapply carries_same_job.
  - intros i k ri. simpl. rewrite Hca, Hsu, Hfi. intros Hin.
    destruct (Hcalls i k ri Hin) as (? & ? & ? & ? & ? & o' & ? & ?).
    split_and!; try done. exists o'. split; [|done]. rewrite elem_of_app. by left.
  - simpl. rewrite Hfi, fmap_app. apply NoDup_app. split_and!; [done| |apply NoDup_singleton].
    intros i Hi ->%list_elem_of_singleton. done.
  - intros i. simpl. rewrite Hfi, Hc, Hca, fmap_app, !elem_of_app. simpl.
    rewrite list_elem_of_singleton. intros [Hi| ->]; [|tauto].
    apply Hfin in Hi. tauto.
  - intros st' i. simpl. rewrite Hfw, Hf. intros [Hne Hin]%list_elem_of_filter.
    simpl in Hne. rewrite lookup_delete_ne by done. by eapply Hwait.
  - intros st' h. simpl. rewrite Hf. intros [Hne Hh]%lookup_delete_Some.
    destruct (Hhold st' h Hh) as (Hloc & rh & Hrh & Hrsto & Hrfl).
    assert (h ≠ j) by (intros ->; congruence).
    split; [by apply Hrun'|].
    exists (unblock sto rh). rewrite lookup_fmap, Hj0, lookup_insert_ne, Hrh by done.
    destruct (same_job_unblock sto rh) as (_ & _ & -> & _ & _ & -> & _). done.
  - intros i ri. rewrite Hlookup. simpl. rewrite Hf. intros Hi.
    apply fmap_Some in Hi as (r0 & Hr0 & ->).
    destruct (same_job_unblock sto r0) as (_ & _ & -> & _ & _ & -> & _).
    apply lookup_insert_Some in Hr0 as [[-> <-]|[Hne Hi]].
    + by destruct (posted_spec r o) as (_ & _ & _ & _ & _ & ->).
    + intros Hfi'. destruct (Hflag i r0 Hi Hfi') as (st' & ? & Hst').
      exists st'. split; [done|]. rewrite lookup_delete_ne; [done|]. congruence.
  - intros st' h i ri. simpl. rewrite Hf. intros [Hne Hh]%lookup_delete_Some.
    intros [Hi Hnej]%Hrun'. rewrite lookup_fmap, Hj0, lookup_insert_ne by done.
    intros (r0 & Hr0 & ->)%fmap_Some.
    destruct (same_job_unblock sto r0) as (_ & _ & -> & _). by eapply Hex.
  - intros st' i ri [Hi Hnej]%Hrun'. simpl. rewrite Hf.
    rewrite lookup_fmap, Hj0, lookup_insert_ne by done.
    intros (r0 & Hr0 & ->)%fmap_Some.
    rewrite (fence_of_same_job r0 _ (same_job_unblock sto r0)). intros Hfo.
    pose proof (Hfc st' i r0 Hi Hr0 Hfo) as Hst'.
    rewrite lookup_delete_ne; [done|]. intros <-. congruence.
Qed.

Lemma invariant_complete s s0 j r o :
  invariant s → jobs s !! j = Some r →
  jobs s0 = jobs s → fence_wait s0 = fence_wait s → fences s0 = fences s →
  completed s0 = completed s → calls s0 = calls s → submitted s0 = submitted s →
  finished s0 = finished s →
  j :: active s0 ≡ₚ active s →
  (∀ i, i ∈ running s0 ↔ i ∈ running s ∧ i ≠ j) →
  invariant (complete j o s0).
Proof.
  intros Hinv Hj Hj0 Hfw Hf Hc Hca Hsu Hfi Hact Hrun.
  unfold complete. rewrite Hj0, Hj. rewrite <- Hj0.
  destruct (has_flag fence (flags r)) eqn:Hfr.
  - destruct (inv_fence_flag _ _ Hinv j r Hj Hfr) as (sto & Hsto & _).
    rewrite Hsto. by eapply invariant_post_lower.
  - by eapply invariant_post.
Qed.

(** Dispatch: the callback is invoked and the record leaves the system. *)
Lemma invariant_dispatch s j rest r :
  invariant s → completed s = j :: rest → jobs s !! j = Some r →
  invariant (set_calls (calls s ++ [(j, call_callback r)])
               (set_jobs (delete j (jobs s)) (set_completed rest s))).
Proof.
  intros [Hnd Hlive Hsub Hsub1 Hrec Hcalls Hfin1 Hfin Hwait Hhold Hflag Hex Hfc] Hc Hj.
  set (s' := set_calls _ _).
  assert (Hperm : held s ++ (calls s).*1 ≡ₚ j :: held s' ++ (calls s).*1).
  { unfold held; simpl. rewrite Hc. solve_Permutation. }
  assert (Hheld : held s ≡ₚ j :: held s').
  { unfold held; simpl. rewrite Hc. solve_Permutation. }
  rewrite Hperm in Hnd. apply NoDup_cons in Hnd as [Hjn Hnd].
  apply not_elem_of_app in Hjn as [Hjh Hjc].
  assert (Hrunj : ∀ i, i ∈ running s → i ≠ j).
  { intros i Hi ->. apply Hjh. by apply (running_held s'). }
  split.
  - simpl. rewrite fmap_app. simpl.
    cut (NoDup (j :: held s' ++ (calls s).*1)).
    { apply NoDup_Permutation_proper. solve_Permutation. }
    apply NoDup_cons. split; [|done]. by apply not_elem_of_app.
  - intros i. simpl. rewrite lookup_delete_is_Some, Hlive, Hheld, elem_of_cons.
    split; [intros [? [?|?]]; [congruence|done]|].
    intros Hi. split; [by intros ->|by right].
  - intros i. simpl. rewrite fmap_app, Hsub, Hheld, elem_of_cons, elem_of_app. simpl.
    rewrite list_elem_of_singleton. tauto.
  - done.
  - intros i ri. simpl. intros [Hne Hi]%lookup_delete_Some.
    destruct (Hrec i ri Hi) as (? & ? & ? & Hp). split_and!; try done.
    intros Hin. apply Hp. rewrite Hc. apply elem_of_cons. by right.
  - intros i k ri. simpl. rewrite elem_of_app, list_elem_of_singleton.
    intros [Hin|[= -> -> ->]]; [by apply Hcalls|].
    destruct (Hrec j r Hj) as (? & ? & ? & Hp).
    destruct Hp as (? & ?); [rewrite Hc; apply elem_of_cons; by left|].
    split_and!; done.
  - done.
  - intros i Hi. simpl. apply Hfin in Hi. rewrite Hc, elem_of_cons in Hi.
    rewrite fmap_app, elem_of_app. simpl. rewrite list_elem_of_singleton. tauto.
  - done.
  - intros st h Hh. simpl in Hh. destruct (Hhold st h Hh) as (Hloc & rh & Hrh & ? & ?).
    split; [done|]. exists rh. simpl. rewrite lookup_delete_ne; [done|].
    intros ->. by apply (Hrunj h).
  - intros i ri. simpl. intros [Hne Hi]%lookup_delete_Some. by apply Hflag.
  - intros st h i ri Hh Hi. simpl. intros [Hne Hri]%lookup_delete_Some. by eapply Hex.
  - intros st i ri Hi. simpl. intros [Hne Hri]%lookup_delete_Some. by eapply Hfc.
Qed.

Lemma invariant_external s s' :
  invariant s → external_step handler_for s s' → invariant s'.
Proof.
  intros Hinv Hstep. destruct Hstep as [s j q Hfresh Hunf|s j q st h Hfresh Hst Hh|s j r Hj].
  - destruct (new_job_spec q) as (Hact & Hsto & Hcb & Hfl & Hjp & Hcc).
    eapply (invariant_submit s _ j (with_in_use (new_job handler_for q) true));
      try done.
    + simpl. by rewrite Hcb, callback_index_make_callback, Hact.
    + simpl. by rewrite Hfl.
    + unfold held, active; simpl. solve_Permutation.
    + intros st i. simpl. by apply (inv_wait _ _ Hinv).
  - destruct (new_job_spec q) as (Hact & Hsto & Hcb & Hfl & Hjp & Hcc).
    eapply (invariant_submit s _ j
              (with_in_use (with_blocked (new_job handler_for q) true) true));
      try done.
    + simpl. by rewrite Hcb, callback_index_make_callback, Hact.
    + simpl. by rewrite Hfl.
    + unfold held, active; simpl. rewrite fmap_app. simpl. solve_Permutation.
    + intros st' i. simpl. rewrite elem_of_app, list_elem_of_singleton.
      intros [Hin|[= -> ->]]; [by eapply (inv_wait _ _ Hinv)|]. by rewrite Hh.
  - eapply invariant_update; [done..|]. split_and!; try done.
    simpl. by apply has_flag_fence_set_other.
Qed.

Lemma invariant_internal s s' :
  invariant s → internal_step s s' → invariant s'.
Proof.
  intros Hinv Hstep.
  destruct Hstep as [s j rest r Hp Hj Hfl Hunf Halone|s j rest r st h Hp Hj Hfl Hst Hh
                    |s j rest r st Hp Hj Hfl|s pre j post r p He Hj Hpc
                    |s pre j post err st data He|s pre p j post err st data Hcw Hfirst
                    |s j rest r Hc Hj].
  - by apply invariant_begin.
  - eapply (invariant_move (set_jobs (<[j := with_blocked r true]> (jobs s)) s));
      try done.
    + by eapply invariant_update.
    + unfold held, active; simpl. rewrite Hp, fmap_app. simpl. solve_Permutation.
    + intros st' i. simpl. rewrite elem_of_app, list_elem_of_singleton.
      intros [Hin|[= -> ->]]; [by eapply (inv_wait _ _ Hinv)|]. by rewrite Hh.
  - eapply (invariant_complete s); try done.
    + unfold active; simpl. by rewrite Hp.
    + intros i. simpl. split; [|tauto]. intros Hi. split; [done|]. intros ->.
      apply (pending_not_running s j Hinv); [|done]. rewrite Hp. apply elem_of_cons. by left.
  - eapply (invariant_move s); try done.
    + unfold held, active; simpl. rewrite He, fmap_app. simpl. solve_Permutation.
    + unfold running; simpl. rewrite He, fmap_app. simpl. solve_Permutation.
    + apply (inv_wait _ _ Hinv).
  - destruct (held_is_live s j Hinv) as [r Hj].
    { apply running_held. unfold running. rewrite He, !elem_of_app, elem_of_cons. tauto. }
    eapply (invariant_complete s); try done.
    + unfold active; simpl. rewrite He. solve_Permutation.
    + apply elem_of_removed; [by apply running_NoDup|].
      unfold running; simpl. rewrite He. solve_Permutation.
  - destruct (held_is_live s j Hinv) as [r Hj].
    { apply running_held. unfold running. rewrite Hcw, fmap_app, !elem_of_app. simpl.
      rewrite elem_of_cons. tauto. }
    eapply (invariant_complete s); try done.
    + unfold active; simpl. rewrite Hcw, !fmap_app. simpl. solve_Permutation.
    + apply elem_of_removed; [by apply running_NoDup|].
      unfold running; simpl. rewrite Hcw, !fmap_app. simpl. solve_Permutation.
  - by apply invariant_dispatch.
Qed.

Lemma invariant_reachable s : reachable handler_for s → invariant s.
Proof.
  revert s. apply rtc_ind_r.
  - apply invariant_initial.
  - intros s1 s2 _ Hstep IH.
    destruct Hstep; [by eapply invariant_external | by eapply invariant_internal].
Qed.

(** ** The fence *)

(** While a fence is raised, the only job of the storage being performed
    is its holder; and a job of a kind that raises a fence is performed
    only as the holder of the fence of its storage. *)
Lemma fence_excludes s :
  reachable handler_for s →
  (∀ st h i r, fences s !! st = Some h → i ∈ running s → jobs s !! i = Some r →
               storage r = Some st → i = h)
  ∧ (∀ st i r, i ∈ running s → jobs s !! i = Some r →
               raises_fence (action r) = true → storage r = Some st →
               fences s !! st = Some i ∧ has_flag fence (flags r) = true).
Proof.
  intros Hinv%invariant_reachable. split.
  - apply (inv_exclusive _ _ Hinv).
  - intros st i r Hi Hr Hkind Hst.
    assert (Hfo : fence_of r = Some st) by (unfold fence_of; by rewrite Hkind).
    pose proof (inv_fencing _ _ Hinv st i r Hi Hr Hfo) as Hf. split; [done|].
    destruct (inv_holder _ _ Hinv st i Hf) as (_ & r' & Hr' & _ & Hfl). congruence.
Qed.

(** ** Progress and termination *)

(** While a record is held, the execution context or the dispatcher can
    take a step. *)
Lemma internal_progress s :
  invariant s → held s ≠ [] → ∃ s', internal_step s s'.
Proof.
  intros Hinv Hheld.
  destruct (completed s) as [|j rest] eqn:Hc.
  2:{ destruct (held_is_live s j Hinv) as [r Hj].
      { unfold held. rewrite Hc, !elem_of_app, elem_of_cons. tauto. }
      eexists. by eapply dispatch. }
  destruct (executing s) as [|j rest] eqn:He.
  2:{ eexists. by eapply (perform s [] j rest success no_error (un_links None)). }
  destruct (cache_wait s) as [|[p j] rest] eqn:Hcw.
  2:{ eexists. eapply (flush s [] p j rest success no_error (un_links None)); [done|].
      by intros ?%elem_of_nil. }
  assert (Hrun : running s = []) by (unfold running; by rewrite He, Hcw).
  assert (Hunf : ∀ st, fences s !! st = None).
  { intros st. destruct (fences s !! st) as [h|] eqn:Hh; [|done].
    destruct (inv_holder _ _ Hinv st h Hh) as [Hin _].
    rewrite Hrun in Hin. by apply elem_of_nil in Hin. }
  destruct (pending s) as [|j rest] eqn:Hp.
  2:{ destruct (held_is_live s j Hinv) as [r Hj].
      { unfold held, active. rewrite Hp, !elem_of_app, elem_of_cons. tauto. }
      destruct (has_flag aborted (flags r)) eqn:Hfl.
      - eexists. by eapply (dequeue_aborted s j rest r no_error).
      - eexists. eapply dequeue_run; try done.
        intros st i ri _ Hi. rewrite Hrun in Hi. by apply elem_of_nil in Hi. }
  destruct (fence_wait s) as [|[st j] rest] eqn:Hfw.
  { destruct Hheld. unfold held, active. by rewrite Hc, Hp, He, Hcw, Hfw. }
  destruct (inv_wait _ _ Hinv st j) as [h Hh].
  { rewrite Hfw. apply elem_of_cons. by left. }
  by rewrite Hunf in Hh.
Qed.

Lemma work_left_complete j o s0 :
  (work_left (complete j o s0) ≤ work_left s0 + 2 * length (fence_wait s0) + 1)%nat.
Proof.
  unfold complete. destruct (jobs s0 !! j) as [r|]; [|lia].
  destruct (has_flag fence (flags r)); [destruct (storage r) as [sto|]|];
    unfold work_left, unfinished; simpl; rewrite ?length_app, ?length_fmap; simpl;
    try lia.
  pose proof (fence_release_length sto (fence_wait s0)) as Hlen.
  revert Hlen.
  generalize (length (filter (λ e, e.1 = sto) (fence_wait s0))).
  generalize (length (filter (λ e, e.1 ≠ sto) (fence_wait s0))).
  generalize (length (fence_wait s0)). intros f w2 w1 <-. nia.
Qed.

(** Every such step leaves less work. *)
Lemma internal_step_work_left s s' :
  internal_step s s' → (work_left s' < work_left s)%nat.
Proof.
  intros Hstep.
  destruct Hstep as [s j rest r Hp Hj Hfl Hunf Halone|s j rest r st h Hp Hj Hfl Hst Hh
                    |s j rest r st Hp Hj Hfl|s pre j post r p He Hj Hpc
                    |s pre j post err st data He|s pre p j post err st data Hcw Hfirst
                    |s j rest r Hc Hj].
  - unfold begin. destruct (fence_of r);
      unfold work_left, unfinished; simpl; rewrite Hp, ?length_app; simpl; nia.
  - unfold work_left, unfinished; simpl. rewrite Hp, ?length_app. simpl. nia.
  - pose proof (work_left_complete j (short_circuited st) (set_pending rest s)) as Hle.
    unfold work_left, unfinished in *; simpl in *. rewrite Hp. simpl. nia.
  - unfold work_left, unfinished; simpl. rewrite He, ?length_app. simpl. nia.
  - pose proof (work_left_complete j (performed err st data)
                  (set_executing (pre ++ post) s)) as Hle.
    unfold work_left, unfinished in *; simpl in *. rewrite He.
    rewrite ?length_app in *. simpl. nia.
  - pose proof (work_left_complete j (performed err st data)
                  (set_cache_wait (pre ++ post) s)) as Hle.
    unfold work_left, unfinished in *; simpl in *. rewrite Hcw.
    rewrite ?length_app in *. simpl. nia.
  - unfold work_left, unfinished; simpl. rewrite Hc, ?length_app. simpl. lia.
Qed.

Lemma submitted_complete j o s0 : submitted (complete j o s0) = submitted s0.
Proof.
  unfold complete. destruct (jobs s0 !! j) as [r|]; [|done].
  by destruct (has_flag fence (flags r)); [destruct (storage r)|].
Qed.

Lemma internal_step_submitted s s' : internal_step s s' → submitted s' = submitted s.
Proof.
  intros Hstep. destruct Hstep; simpl; rewrite ?submitted_complete; try done.
  unfold begin. by destruct (fence_of r).
Qed.

Lemma nsteps_internal n s s' :
  nsteps internal_step n s s' →
  (n + work_left s' ≤ work_left s)%nat ∧ submitted s' = submitted s
  ∧ (reachable handler_for s → reachable handler_for s').
Proof.
  induction 1 as [|n s1 s2 s3 Hstep _ (IHn & IHs & IHr)]; [done|].
  pose proof (internal_step_work_left _ _ Hstep).
  split_and!; [lia|by rewrite IHs, (internal_step_submitted _ _ Hstep)|].
  intros Hreach. apply IHr. eapply rtc_r; [done|]. by right.
Qed.

(** ** Counting invocations *)

Lemma times_called_not_called s j :
  ¬ (j ∈ (calls s).*1) → times_called s j = 0%nat.
Proof.
  unfold times_called. induction (calls s) as [|[i c] l IH]; [done|].
  rewrite fmap_cons, not_elem_of_cons. simpl. intros [Hne Hnin].
  rewrite filter_cons_False by (simpl; congruence). by apply IH.
Qed.

Lemma times_called_called s j :
  NoDup (calls s).*1 → j ∈ (calls s).*1 → times_called s j = 1%nat.
Proof.
  unfold times_called. induction (calls s) as [|[i c] l IH]; [by intros _ ?%elem_of_nil|].
  rewrite fmap_cons, NoDup_cons, elem_of_cons. simpl. intros [Hi Hnd] Hin.
  destruct (decide (i = j)) as [->|Hne].
  - rewrite filter_cons_True by done. simpl. f_equal.
    by apply (times_called_not_called (set_calls l s)).
  - rewrite filter_cons_False by done. apply IH; [done|]. naive_solver.
Qed.

Lemma times_called_le_1 s j : NoDup (calls s).*1 → (times_called s j ≤ 1)%nat.
Proof.
  intros Hnd. destruct (decide (j ∈ (calls s).*1)).
  - by rewrite times_called_called.
  - by rewrite times_called_not_called; [lia|].
Qed.
End Preservation.

(** ** Queues *)

Lemma elem_of_queue_contents s q j :
  j ∈ queue_contents s q ↔
  match q with
  | pending_work => j ∈ pending s
  | cache_piece_wait p => (p, j) ∈ cache_wait s
  | fence_wait_of st => (st, j) ∈ fence_wait s
  end.
Proof.
  destruct q as [|p|st]; simpl; [done| |].
  - rewrite list_elem_of_fmap. split.
    + intros ([p' j'] & -> & Hin). apply list_elem_of_filter in Hin as [Heq Hin].
      simpl in *. by subst.
    + intros Hin. exists (p, j). split; [done|]. by apply list_elem_of_filter.
  - rewrite list_elem_of_fmap. split.
    + intros ([p' j'] & -> & Hin). apply list_elem_of_filter in Hin as [Heq Hin].
      simpl in *. by subst.
    + intros Hin. exists (st, j). split; [done|]. by apply list_elem_of_filter.
Qed.

Lemma queue_contents_held s q j : j ∈ queue_contents s q → j ∈ held s.
Proof.
  rewrite elem_of_queue_contents. unfold held, active. destruct q; intros Hin.
  - set_solver.
  - apply (list_elem_of_fmap_2 snd) in Hin. set_solver.
  - apply (list_elem_of_fmap_2 snd) in Hin. set_solver.
Qed.

(** ** The job system's claims *)

Lemma NoDup_fst_functional {A B} (l : list (A * B)) x y1 y2 :
  NoDup l.*1 → (x, y1) ∈ l → (x, y2) ∈ l → y1 = y2.
Proof.
  induction l as [|[a b] l IH]; [by intros _ ?%elem_of_nil|].
  rewrite fmap_cons, NoDup_cons, !elem_of_cons. simpl.
  intros [Hnin Hnd] [?|H1] [?|H2]; simplify_eq; try done.
  - destruct Hnin. by apply (list_elem_of_fmap_2 fst) in H2.
  - destruct Hnin. by apply (list_elem_of_fmap_2 fst) in H1.
  - by apply IH.
Qed.

Lemma NoDup_snd_functional {A B} (l : list (A * B)) x1 x2 y :
  NoDup l.*2 → (x1, y) ∈ l → (x2, y) ∈ l → x1 = x2.
Proof.
  induction l as [|[a b] l IH]; [by intros _ ?%elem_of_nil|].
  rewrite fmap_cons, NoDup_cons, !elem_of_cons. simpl.
  intros [Hnin Hnd] [?|H1] [?|H2]; simplify_eq; try done.
  - destruct Hnin. by apply (list_elem_of_fmap_2 snd) in H2.
  - destruct Hnin. by apply (list_elem_of_fmap_2 snd) in H1.
  - by apply IH.
Qed.

Lemma quiescent_nothing_held handler_for s :
  invariant handler_for s → quiescent s → held s = [].
Proof.
  intros Hinv Hq. destruct (decide (held s = [])) as [|Hne]; [done|].
  destruct (internal_progress handler_for s Hinv Hne) as [s' Hstep].
  by destruct (Hq s').
Qed.

(** C6. In every state the job system reaches, for a pairing of kinds
    and callback alternatives that gives each kind the alternative of
    its family: no callback has been invoked more than once; each
    invocation was for a submitted job, on a record that carried the
    outcome the execution context had ended the job with (its error,
    its status and, for an operation that was performed, its result
    data), that was posted and whose [callback_called] was not set, of
    the alternative the record holds, which is the alternative of the
    kind the job was submitted with, that of the kind's family (a job
    has one kind, and is ended once); a submitted job is still held, or
    its callback was invoked exactly once (no job is dropped); while a
    job is held, a step of the execution context or the dispatcher is
    possible; and every run of such steps is at most [work_left] long
    and, when it can go no further, has invoked the callback of every
    submitted job exactly once. *)
Theorem callback_exactly_once (handler_for : job_action_t → handler_kind)
    (s : system) :
  respects_families handler_for →
  reachable handler_for s →
  (∀ j, (times_called s j ≤ 1)%nat)
  ∧ (∀ j k r, (j, (k, r)) ∈ calls s →
       (j, action r) ∈ submitted s
       ∧ (∃ o, (j, o) ∈ finished s ∧ carries r o)
       ∧ job_posted r = true ∧ callback_called r = false
       ∧ k = callback_index (callback r) ∧ k = handler_for (action r)
       ∧ (∀ k', family_of (action r) = Some k' → k = k'))
  ∧ (∀ j o1 o2, (j, o1) ∈ finished s → (j, o2) ∈ finished s → o1 = o2)
  ∧ (∀ j a1 a2, (j, a1) ∈ submitted s → (j, a2) ∈ submitted s → a1 = a2)
  ∧ (∀ j, j ∈ (submitted s).*1 → j ∈ held s ∨ times_called s j = 1%nat)
  ∧ (held s ≠ [] → ∃ s', internal_step s s')
  ∧ (∀ n s', nsteps internal_step n s s' →
       (n ≤ work_left s)%nat
       ∧ (quiescent s' → ∀ j, j ∈ (submitted s).*1 → times_called s' j = 1%nat)).
Proof.
  intros Hfam Hreach. pose proof (invariant_reachable handler_for s Hreach) as Hinv.
  pose proof (inv_nodup _ _ Hinv) as [_ [_ Hnd]]%NoDup_app.
  split_and!.
  - intros j. by apply times_called_le_1.
  - intros j k r Hin.
    destruct (inv_calls _ _ Hinv j k r Hin) as (? & ? & Hk & ? & ? & ?).
    split_and!; try done. intros k' Hk'. rewrite Hk. by apply Hfam.
  - intros j o1 o2. apply NoDup_fst_functional, (inv_finished_once _ _ Hinv).
  - intros j a1 a2. apply NoDup_fst_functional, (inv_submitted_once _ _ Hinv).
  - intros j Hj. apply (inv_submitted _ _ Hinv) in Hj as [Hj|Hj]; [by left|right].
    by apply times_called_called.
  - by apply (internal_progress handler_for).
  - intros n s' Hrun.
    destruct (nsteps_internal handler_for n s s' Hrun) as (Hle & Hsub & Hreach').
    split; [lia|]. intros Hq j Hj.
    pose proof (invariant_reachable handler_for s' (Hreach' Hreach)) as Hinv'.
    pose proof (inv_nodup _ _ Hinv') as [_ [_ Hnd']]%NoDup_app.
    rewrite <- Hsub in Hj. apply (inv_submitted _ _ Hinv') in Hj as [Hj|Hj].
    + rewrite (quiescent_nothing_held handler_for s' Hinv' Hq) in Hj.
      by apply elem_of_nil in Hj.
    + by apply times_called_called.
Qed.

Lemma example_handler_for_families : respects_families example_handler_for.
Proof. intros a k Ha. destruct a; simpl in Ha; by simplify_eq. Defined.

Lemma example_state_reachable : reachable example_handler_for example_state.
Proof.
  apply rtc_once. left.
  apply (submit_pending example_handler_for initial 0%nat example_request).
  - split; [reflexivity|]. simpl. apply not_elem_of_nil.
  - intros st Hst. discriminate Hst.
Defined.

Lemma callback_exactly_once_example :
  (∀ j, (times_called example_state j ≤ 1)%nat)
  ∧ (∀ j k r, (j, (k, r)) ∈ calls example_state →
       (j, action r) ∈ submitted example_state
       ∧ (∃ o, (j, o) ∈ finished example_state ∧ carries r o)
       ∧ job_posted r = true ∧ callback_called r = false
       ∧ k = callback_index (callback r) ∧ k = example_handler_for (action r)
       ∧ (∀ k', family_of (action r) = Some k' → k = k'))
  ∧ (∀ j o1 o2, (j, o1) ∈ finished example_state →
       (j, o2) ∈ finished example_state → o1 = o2)
  ∧ (∀ j a1 a2, (j, a1) ∈ submitted example_state →
       (j, a2) ∈ submitted example_state → a1 = a2)
  ∧ (∀ j, j ∈ (submitted example_state).*1 →
       j ∈ held example_state ∨ times_called example_state j = 1%nat)
  ∧ (held example_state ≠ [] → ∃ s', internal_step example_state s')
  ∧ (∀ n s', nsteps internal_step n example_state s' →
       (n ≤ work_left example_state)%nat
       ∧ (quiescent s' → ∀ j, j ∈ (submitted example_state).*1 →
          times_called s' j = 1%nat)).
Proof.
  apply (callback_exactly_once example_handler_for example_state).
  - apply example_handler_for_families.
  - apply example_state_reachable.
Defined.

(** C7. In every state the job system reaches, a record is linked into
    at most one queue (the pending-work queue, the wait queue of a cache
    piece, or the wait queue of a storage's fence) and at most once into
    it; a record in a queue is not being performed, is not completed and
    has not been called back; and after any step, a record that the step
    moved from a queue to another is no longer in the first. *)
Theorem job_in_one_queue (handler_for : job_action_t → handler_kind)
    (s : system) :
  reachable handler_for s →
  (∀ j q1 q2, j ∈ queue_contents s q1 → j ∈ queue_contents s q2 → q1 = q2)
  ∧ (∀ q, NoDup (queue_contents s q))
  ∧ (∀ j q, j ∈ queue_contents s q →
       ¬ (j ∈ executing s) ∧ ¬ (j ∈ completed s) ∧ times_called s j = 0%nat)
  ∧ (∀ s' j q q', step handler_for s s' →
       j ∈ queue_contents s q → j ∈ queue_contents s' q' → q ≠ q' →
       ¬ (j ∈ queue_contents s' q)).
Proof.
  assert (Hone : ∀ s, reachable handler_for s →
    ∀ j q1 q2, j ∈ queue_contents s q1 → j ∈ queue_contents s q2 → q1 = q2).
  { clear s. intros s Hreach j q1 q2.
    pose proof (invariant_reachable handler_for s Hreach) as Hinv.
    pose proof (inv_nodup _ _ Hinv) as Hnd. unfold held, active in Hnd.
    rewrite !NoDup_app in Hnd.
    destruct Hnd as [[(_ & Hp & Hcw & Hc & _) (Ha & Hfw & Hf & _)] _].
    rewrite !elem_of_queue_contents.
    destruct q1 as [|p1|st1], q2 as [|p2|st2]; intros H1 H2; try done.
    - apply (list_elem_of_fmap_2 snd) in H2. set_solver.
    - apply (list_elem_of_fmap_2 snd) in H2. set_solver.
    - apply (list_elem_of_fmap_2 snd) in H1. set_solver.
    - f_equal. by eapply NoDup_snd_functional.
    - apply (list_elem_of_fmap_2 snd) in H1, H2. set_solver.
    - apply (list_elem_of_fmap_2 snd) in H1. set_solver.
    - apply (list_elem_of_fmap_2 snd) in H1, H2. set_solver.
    - f_equal. by eapply NoDup_snd_functional. }
  intros Hreach. pose proof (invariant_reachable handler_for s Hreach) as Hinv.
  pose proof (inv_nodup _ _ Hinv) as Hnd. unfold held, active in Hnd.
  rewrite !NoDup_app in Hnd.
  destruct Hnd as [[(Hpn & Hp & Hcwn & Hc & Hen) (Ha & Hfwn & Hf & Hcn)] [Hcalls _]].
  split_and!.
  - by apply Hone.
  - intros [|p|st]; simpl; [done| |].
    + eapply sublist_NoDup; [exact Hcwn|]. apply fmap_sublist, sublist_filter.
    + eapply sublist_NoDup; [exact Hfwn|]. apply fmap_sublist, sublist_filter.
  - intros j q Hq. pose proof (queue_contents_held s q j Hq) as Hheld.
    apply elem_of_queue_contents in Hq. split_and!.
    + destruct q; [|apply (list_elem_of_fmap_2 snd) in Hq..]; set_solver.
    + destruct q; [|apply (list_elem_of_fmap_2 snd) in Hq..]; set_solver.
    + apply times_called_not_called. intros Hin. by apply (Hcalls j).
  - intros s' j q q' Hstep _ Hq' Hne Hq. apply Hne.
    eapply (Hone s'); [|done..]. by eapply rtc_r.
Qed.

Lemma job_in_one_queue_example :
  (∀ j q1 q2, j ∈ queue_contents example_state q1 →
     j ∈ queue_contents example_state q2 → q1 = q2)
  ∧ (∀ q, NoDup (queue_contents example_state q))
  ∧ (∀ j q, j ∈ queue_contents example_state q →
       ¬ (j ∈ executing example_state) ∧ ¬ (j ∈ completed example_state)
       ∧ times_called example_state j = 0%nat)
  ∧ (∀ s' j q q', step example_handler_for example_state s' →
       j ∈ queue_contents example_state q → j ∈ queue_contents s' q' → q ≠ q' →
       ¬ (j ∈ queue_contents s' q)).
Proof.
  apply (job_in_one_queue example_handler_for example_state).
  apply rtc_once. left.
  apply (submit_pending example_handler_for initial 0%nat example_request).
  - split; [reflexivity|]. simpl. apply not_elem_of_nil.
  - intros st Hst. discriminate Hst.
Defined.

(** ** Examples

    A job that runs to its callback, which receives the result of the
    operation; a job that arrives while a move holds the fence of its
    storage, deferred and released when the move completes; and a job
    enqueued before the move begins, queued on the wait queue when it is
    dequeued under the fence. *)

Example job_runs_to_callback :
  ∃ s, nsteps internal_step 3 example_state s
       ∧ held s = [] ∧ times_called s 0 = 1%nat
       ∧ (calls s).*2.*1 = [k_write]
       ∧ (λ r, (error r, ret r, d r)) <$> (calls s).*2.*2
         = [(success, no_error, Some (un_io {| offset := 0; buffer_size := 16384;
                                                buffer_offset := 0 |}))].
Proof.
  eexists. split.
  - eapply nsteps_l.
    { eapply (dequeue_run example_state 0%nat []);
        [reflexivity|reflexivity|reflexivity| |].
      - intros st Hst. discriminate Hst.
      - intros st i ri Hfo. discriminate Hfo. }
    eapply nsteps_l.
    { eapply (perform _ [] 0%nat [] success no_error
                (un_io {| offset := 0; buffer_size := 16384; buffer_offset := 0 |})).
      reflexivity. }
    eapply nsteps_l.
    { eapply (dispatch _ 0%nat []); reflexivity. }
    apply nsteps_O.
  - vm_compute. done.
Qed.

Example fence_defers_and_releases :
  let move := {| rq_action := move_storage; rq_argument := arg_string [47; 116];
                 rq_storage := Some 7%nat; rq_handler := Some 0%nat;
                 rq_target := None; rq_d := None;
                 rq_move_flags := always_replace_files |} in
  let rd := {| rq_action := read; rq_argument := arg_disk_buffer_holder None;
               rq_storage := Some 7%nat; rq_handler := Some 1%nat;
               rq_target := Some 5; rq_d := None;
               rq_move_flags := always_replace_files |} in
  ∃ s1 s2 s3 s4,
    reachable example_handler_for s1
    ∧ pending s1 = [0%nat; 1%nat] ∧ fences s1 !! 7%nat = None
    ∧ nsteps internal_step 2 s1 s2
    ∧ executing s2 = [0%nat] ∧ fence_wait s2 = [(7%nat, 1%nat)]
    ∧ fences s2 !! 7%nat = Some 0%nat
    ∧ external_step example_handler_for s2 s3
    ∧ fence_wait s3 = [(7%nat, 1%nat); (7%nat, 2%nat)] ∧ pending s3 = []
    ∧ nsteps internal_step 1 s3 s4
    ∧ pending s4 = [1%nat; 2%nat] ∧ fence_wait s4 = [] ∧ completed s4 = [0%nat]
    ∧ fences s4 !! 7%nat = None.
Proof.
  intros move rd. eexists _, _, _, _. split_and!.
  - eapply rtc_l.
    { left. apply (submit_pending _ initial 0%nat move); [|done].
      split; [done|]. apply not_elem_of_nil. }
    eapply rtc_l; [|apply rtc_refl].
    left. apply (submit_pending _ _ 1%nat rd); [|done].
    split; [done|]. simpl. by intros [?|?%elem_of_nil]%elem_of_cons.
  - reflexivity.
  - reflexivity.
  - eapply nsteps_l.
    { eapply (dequeue_run _ 0%nat [1%nat]);
        [reflexivity|reflexivity|reflexivity| |].
      - intros st Hst. reflexivity.
      - intros st i ri _ Hi. by apply elem_of_nil in Hi. }
    eapply nsteps_l.
    { eapply (defer _ 1%nat [] _ 7%nat 0%nat); reflexivity. }
    apply nsteps_O.
  - reflexivity.
  - reflexivity.
  - reflexivity.
  - apply (submit_blocked _ _ 2%nat rd 7%nat 0%nat); try done.
    split; [done|]. simpl.
    intros [?|[?|?%elem_of_nil]%elem_of_cons]%elem_of_cons; done.
  - reflexivity.
  - reflexivity.
  - eapply nsteps_l.
    { eapply (perform _ [] 0%nat [] success no_error (un_links None)). reflexivity. }
    apply nsteps_O.
  - reflexivity.
  - reflexivity.
  - reflexivity.
  - reflexivity.
Qed.

(** * Properties of the session delegate *)

(** C10. For a delegate whose class does not override
    [checkDownloadLimit], whatever else it overrides, the call returns
    [true] for every receipt, channel id and downloaded size, and
    changes nothing; for a delegate whose class does not override
    [onPiece], whatever else it overrides, the call changes nothing, for
    any piece size. *)
Theorem delegate_defaults (World : Type) (cls : SessionDelegate.derived_class World)
    (w : World) (reciept : list Z) (downloadChannelId : DiskIoJob.sha256_hash)
    (downloadedSize pieceSize : Z) :
  (SessionDelegate.override_checkDownloadLimit World cls = None →
   SessionDelegate.checkDownloadLimit World cls w reciept downloadChannelId downloadedSize
   = (true, w))
  ∧ (SessionDelegate.override_onPiece World cls = None →
     SessionDelegate.onPiece World cls w pieceSize = w).
Proof.
  unfold SessionDelegate.checkDownloadLimit, SessionDelegate.onPiece.
  split; by intros ->.
Qed.

Lemma delegate_defaults_example :
  let client := {| SessionDelegate.override_checkDownloadLimit := None;
                   SessionDelegate.override_onPiece := Some (λ w n, (w + Z.to_nat n)%nat) |} in
  let replicator :=
    {| SessionDelegate.override_checkDownloadLimit :=
         Some (λ w _ _ size, (size <=? 1000, w));
       SessionDelegate.override_onPiece := None |} in
  SessionDelegate.checkDownloadLimit nat client 7%nat [1; 2; 3] (replicate 32 0) 1048576
  = (true, 7%nat)
  ∧ SessionDelegate.onPiece nat replicator 7%nat 16384 = 7%nat.
Proof.
  split.
  - apply (delegate_defaults nat
             {| SessionDelegate.override_checkDownloadLimit := None;
                SessionDelegate.override_onPiece := Some (λ w n, (w + Z.to_nat n)%nat) |}
             7%nat [1; 2; 3] (replicate 32 0) 1048576 0). reflexivity.
  - apply (delegate_defaults nat
             {| SessionDelegate.override_checkDownloadLimit :=
                  Some (λ w _ _ size, (size <=? 1000, w));
                SessionDelegate.override_onPiece := None |}
             7%nat [] [] 0 16384). reflexivity.
Defined.

(** * Properties of the hexadecimal strings *)

Import Io BigEndian HexString.

Lemma hex_chars_lookup k :
  0 ≤ k < 16 → hex_chars !! Z.to_nat k = Some (hex_digit k).
Proof.
  intros Hk.
  assert (k = 0 ∨ k = 1 ∨ k = 2 ∨ k = 3 ∨ k = 4 ∨ k = 5 ∨ k = 6 ∨ k = 7 ∨ k = 8
          ∨ k = 9 ∨ k = 10 ∨ k = 11 ∨ k = 12 ∨ k = 13 ∨ k = 14 ∨ k = 15) as Hcases by lia.
  repeat (destruct Hcases as [->|Hcases]; [reflexivity|]). by subst.
Qed.

Lemma hex_digit_range k :
  0 ≤ k < 16 → 48 ≤ hex_digit k ≤ 57 ∨ 97 ≤ hex_digit k ≤ 102.
Proof. intros Hk. unfold hex_digit. case_decide; lia. Qed.

Lemma hex_digit_char sg k :
  0 ≤ k < 16 → static_cast (byte_type sg) (hex_digit k) = hex_digit k.
Proof.
  intros Hk. apply static_cast_id. pose proof (hex_digit_range k Hk).
  destruct sg; [change (-128 ≤ hex_digit k ≤ 127)|change (0 ≤ hex_digit k ≤ 255)]; lia.
Qed.

Lemma hex_value_digit k : 0 ≤ k < 16 → hex_value (hex_digit k) = Some k.
Proof.
  intros Hk. unfold hex_value, hex_digit.
  repeat case_decide; try lia; f_equal; lia.
Qed.

Lemma high_nibble c : Z.shiftr (static_cast uint8_t c) 4 = c mod 256 / 16.
Proof. by rewrite static_cast_uint8, Z.shiftr_div_pow2. Qed.

Lemma low_nibble c : Z.land (static_cast uint8_t c) 15 = c mod 256 mod 16.
Proof.
  rewrite static_cast_uint8. change 15 with (Z.ones 4). by rewrite Z.land_ones.
Qed.

Lemma nibble_ranges c : 0 ≤ c mod 256 / 16 < 16 ∧ 0 ≤ c mod 256 mod 16 < 16.
Proof. Z.div_mod_to_equations. lia. Qed.

Lemma insert_two {A} (l : list A) k a b :
  (k + 2 ≤ length l)%nat →
  <[S k := b]> (<[k := a]> l) = take k l ++ a :: b :: drop (k + 2) l.
Proof.
  intros Hlen. rewrite (insert_take_drop l k a) by lia.
  rewrite insert_app_r_alt by (rewrite length_take; lia).
  rewrite length_take, Nat.min_l by lia.
  replace (S k - k)%nat with 1%nat by lia. cbn [insert list_insert].
  destruct (lookup_lt_is_Some_2 l (S k)) as [x Hx]; [lia|].
  rewrite (drop_S l x (S k) Hx). cbn [insert list_insert].
  do 3 f_equal. f_equal. lia.
Qed.

Lemma hex_of_cons c l : hex_of (c :: l) = hex_of_byte c ++ hex_of l.
Proof. reflexivity. Qed.

Lemma hex_of_app a b : hex_of (a ++ b) = hex_of a ++ hex_of b.
Proof. unfold hex_of. apply bind_app. Qed.

Lemma hex_of_length l : length (hex_of l) = (2 * length l)%nat.
Proof. induction l as [|c l IH]; [done|]. rewrite hex_of_cons. simpl. lia. Qed.

Lemma hex_of_uint8 l : hex_of (static_cast uint8_t <$> l) = hex_of l.
Proof.
  induction l as [|c l IH]; [done|].
  rewrite fmap_cons, !hex_of_cons, IH. f_equal.
  unfold hex_of_byte. by rewrite static_cast_uint8, Z.mod_mod.
Qed.

Lemma unhex_hex_of l : unhex (hex_of l) = Some ((λ c, c mod 256) <$> l).
Proof.
  induction l as [|c l IH]; [done|].
  rewrite hex_of_cons. unfold hex_of_byte. cbn [app unhex].
  destruct (nibble_ranges c) as [Hhi Hlo].
  rewrite !hex_value_digit by done. cbn [mbind option_bind]. rewrite IH.
  cbn [mbind option_bind fmap list_fmap]. do 2 f_equal.
  Z.div_mod_to_equations. lia.
Qed.

Lemma hex_of_lookup l i c :
  l !! i = Some c →
  hex_of l !! (2 * i)%nat = Some (hex_digit (c mod 256 / 16))
  ∧ hex_of l !! (2 * i + 1)%nat = Some (hex_digit (c mod 256 mod 16)).
Proof.
  revert i. induction l as [|x l IH]; intros i Hi; [done|].
  rewrite hex_of_cons. destruct i as [|i]; simpl in Hi.
  - by injection Hi as ->.
  - replace (2 * S i)%nat with (S (S (2 * i))) by lia.
    replace (S (S (2 * i)) + 1)%nat with (S (S (2 * i + 1))) by lia.
    simpl. by apply IH.
Qed.

Lemma hex_of_digits l : Forall (λ c, 48 ≤ c ≤ 57 ∨ 97 ≤ c ≤ 102) (hex_of l).
Proof.
  induction l as [|c l IH]; [constructor|].
  rewrite hex_of_cons. destruct (nibble_ranges c).
  unfold hex_of_byte. cbn [app].
  apply Forall_cons. split; [by apply hex_digit_range|].
  apply Forall_cons. split; [by apply hex_digit_range|done].
Qed.

Lemma store_Some {sg} buf o i v :
  (o + i < length buf)%nat →
  store (Pointer (sg:=sg) buf o) i v
  = Some (Pointer (<[(o + i)%nat := static_cast (byte_type sg) v]> buf) o).
Proof. intros Hi. unfold store; cbn [buffer offset]. by rewrite decide_True. Qed.

Lemma post_incr_Some idx :
  Z.of_nat idx + 1 ≤ 2147483647 → post_incr idx = Some (S idx).
Proof. intros Hi. unfold post_incr. by rewrite decide_True. Qed.

(** The loop, from iteration [i] on. *)
Lemma toString_loop_spec {cfg : BuildConfig} n inbuf oi outbuf oo i :
  (oi + i + n ≤ length inbuf)%nat →
  (oo + 2 * (i + n) ≤ length outbuf)%nat →
  2 * Z.of_nat (i + n) ≤ 2147483647 →
  toString_loop n (Pointer inbuf oi) i (2 * i) (Pointer outbuf oo)
  = Some (Pointer (take (oo + 2 * i) outbuf ++ hex_of (take n (drop (oi + i) inbuf))
                     ++ drop (oo + 2 * i + 2 * n) outbuf) oo).
Proof.
  revert outbuf i. induction n as [|n IH]; intros outbuf i Hin Hout Hmax.
  - cbn [toString_loop take]. rewrite Nat.add_0_r. cbn [hex_of mbind]. simpl.
    by rewrite take_drop.
  - cbn [toString_loop]. unfold index; cbn [buffer offset].
    destruct (lookup_lt_is_Some_2 inbuf (oi + i)) as [b Hb]; [lia|].
    rewrite Hb. cbn [mbind option_bind].
    destruct (nibble_ranges b) as [Hhi Hlo].
    rewrite high_nibble, low_nibble, !hex_chars_lookup by done.
    cbn [mbind option_bind].
    rewrite store_Some by lia. cbn [mbind option_bind].
    rewrite post_incr_Some by lia. cbn [mbind option_bind].
    rewrite store_Some by (rewrite length_insert; lia). cbn [mbind option_bind].
    rewrite post_incr_Some by lia. cbn [mbind option_bind].
    replace (S (S (2 * i))) with (2 * S i)%nat by lia.
    rewrite IH by (rewrite ?length_insert; lia).
    rewrite !hex_digit_char by done.
    replace (oo + S (2 * i))%nat with (S (oo + 2 * i)) by lia.
    rewrite insert_two by lia.
    rewrite (drop_S inbuf b (oi + i) Hb). cbn [take]. rewrite hex_of_cons.
    unfold hex_of_byte. f_equal. f_equal.
    replace (oo + 2 * S i)%nat with (oo + 2 * i + 2)%nat by lia.
    rewrite take_app_add' by (rewrite length_take; lia).
    replace (oo + 2 * i + 2 + 2 * n)%nat with (oo + 2 * i + (2 + 2 * n))%nat by lia.
    rewrite drop_app_add' by (rewrite length_take; lia).
    replace (2 + 2 * n)%nat with (S (S (2 * n))) by lia.
    cbn [take drop]. rewrite take_0, drop_drop, <- !app_assoc. cbn [app].
    replace (oi + S i)%nat with (S (oi + i)) by lia.
    do 5 f_equal. lia.
Qed.

Lemma toString_spec {cfg : BuildConfig} inbuf oi outbuf oo n :
  (oi + n ≤ length inbuf)%nat →
  (oo + 2 * n ≤ length outbuf)%nat →
  Z.of_nat n ≤ 1073741823 →
  toString (Pointer inbuf oi) (Z.of_nat n) (Pointer outbuf oo)
  = Some (Pointer (take oo outbuf ++ hex_of (take n (drop oi inbuf))
                     ++ drop (oo + 2 * n) outbuf) oo).
Proof.
  intros Hin Hout Hmax. unfold toString. rewrite Nat2Z.id.
  pose proof (toString_loop_spec n inbuf oi outbuf oo 0) as Hloop.
  rewrite !Nat.add_0_r in Hloop. apply Hloop; simpl; lia.
Qed.

Lemma static_cast_size_count (n : nat) :
  Z.of_nat n ≤ 1073741823 →
  Z.to_nat (static_cast size_t (2 * Z.of_nat n)) = (2 * n)%nat.
Proof.
  intros Hn. rewrite static_cast_id; [lia|].
  change (0 ≤ 2 * Z.of_nat n ≤ 18446744073709551615). lia.
Qed.

Lemma toHex_spec {cfg : BuildConfig} cbuf o len :
  (o + len ≤ length cbuf)%nat →
  Z.of_nat len ≤ 1073741823 →
  toHex (Pointer cbuf o) len = Some (hex_of (take len (drop o cbuf))).
Proof.
  intros Hin Hmax. unfold toHex. case_decide as Hlen.
  - cbv zeta. rewrite static_cast_int_count, static_cast_size_count by lia.
    cbn [buffer offset].
    rewrite toString_spec by (rewrite ?length_fmap, ?length_replicate; lia).
    cbn [mbind option_bind buffer]. f_equal.
    rewrite take_0, (drop_ge (replicate _ _)) by (rewrite length_replicate; lia).
    rewrite app_nil_r. cbn [app].
    by rewrite <- fmap_drop, <- fmap_take, hex_of_uint8.
  - by replace len with 0%nat by lia.
Qed.

Lemma toString_array_spec {cfg : BuildConfig} in_ :
  Z.of_nat (length in_) ≤ 1073741823 →
  toString_array in_ = Some (hex_of in_).
Proof.
  intros Hmax. unfold toString_array. case_decide as Hlen.
  - cbv zeta. rewrite static_cast_int_count, static_cast_size_count by lia.
    rewrite toString_spec by (rewrite ?length_replicate; lia).
    cbn [mbind option_bind buffer]. f_equal.
    rewrite take_0, (drop_ge (replicate _ _)) by (rewrite length_replicate; lia).
    rewrite app_nil_r. cbn [app drop]. by rewrite firstn_all.
  - by destruct in_; [|simpl in Hlen; lia].
Qed.

(** X14. [toString] on a raw buffer writes the [2 * len] characters of
    [out] from [out[0]] on, two for each of the [len] bytes of [in], the
    digit of the high nibble first, then that of the low nibble; it
    changes no other character of [out] (it writes no terminator), and
    for [len ≤ 0] it writes nothing. *)
Theorem toString_writes_digits {cfg : BuildConfig} (inbuf outbuf : list Z)
    (oi oo n : nat) :
  (oi + n ≤ length inbuf)%nat →
  (oo + 2 * n ≤ length outbuf)%nat →
  Z.of_nat n ≤ 1073741823 →
  (∃ out',
     toString (Pointer inbuf oi) (Z.of_nat n) (Pointer outbuf oo)
     = Some (Pointer out' oo)
     ∧ length out' = length outbuf
     ∧ (∀ j, (j < oo ∨ oo + 2 * n ≤ j)%nat → out' !! j = outbuf !! j)
     ∧ (∀ i c, (i < n)%nat → inbuf !! (oi + i)%nat = Some c →
          out' !! (oo + 2 * i)%nat
          = Some (hex_digit (Z.shiftr (static_cast uint8_t c) 4))
          ∧ out' !! (oo + 2 * i + 1)%nat
            = Some (hex_digit (Z.land (static_cast uint8_t c) 15))))
  ∧ (∀ len, len ≤ 0 →
       toString (Pointer inbuf oi) len (Pointer outbuf oo) = Some (Pointer outbuf oo)).
Proof.
  intros Hin Hout Hmax. split.
  - eexists. split; [by apply toString_spec|].
    assert (Hhex : length (hex_of (take n (drop oi inbuf))) = (2 * n)%nat).
    { rewrite hex_of_length, length_take, length_drop. lia. }
    split_and!.
    + rewrite !length_app, length_take, Hhex, length_drop. lia.
    + intros j [Hj|Hj].
      * rewrite lookup_app_l by (rewrite length_take; lia). by apply lookup_take_lt.
      * rewrite lookup_app_r by (rewrite length_take; lia).
        rewrite lookup_app_r by (rewrite length_take, Hhex; lia).
        rewrite lookup_drop, length_take, Hhex. f_equal. lia.
    + intros i c Hi Hc. rewrite high_nibble, low_nibble.
      assert (Hci : take n (drop oi inbuf) !! i = Some c).
      { rewrite lookup_take_lt by done. by rewrite lookup_drop. }
      destruct (hex_of_lookup _ i c Hci) as [Hhi Hlo].
      assert (Htake : length (take oo outbuf) = oo) by (rewrite length_take; lia).
      split.
      * rewrite lookup_app_r by lia. rewrite lookup_app_l by lia.
        rewrite Htake. by replace (oo + 2 * i - oo)%nat with (2 * i)%nat by lia.
      * rewrite lookup_app_r by lia. rewrite lookup_app_l by lia.
        rewrite Htake. by replace (oo + 2 * i + 1 - oo)%nat with (2 * i + 1)%nat by lia.
  - intros len Hlen. unfold toString.
    by replace (Z.to_nat len) with 0%nat by lia.
Qed.

Lemma toString_writes_digits_example :
  (∃ out',
     toString (cfg:=debug_build) (Pointer [9; 171; 205] 1) (Z.of_nat 2)
       (Pointer [1; 2; 3; 4; 5; 6] 1)
     = Some (Pointer out' 1)
     ∧ length out' = length [1; 2; 3; 4; 5; 6]
     ∧ (∀ j, (j < 1 ∨ 1 + 2 * 2 ≤ j)%nat → out' !! j = [1; 2; 3; 4; 5; 6] !! j)
     ∧ (∀ i c, (i < 2)%nat → [9; 171; 205] !! (1 + i)%nat = Some c →
          out' !! (1 + 2 * i)%nat
          = Some (hex_digit (Z.shiftr (static_cast uint8_t c) 4))
          ∧ out' !! (1 + 2 * i + 1)%nat
            = Some (hex_digit (Z.land (static_cast uint8_t c) 15))))
  ∧ (∀ len, len ≤ 0 →
       toString (cfg:=debug_build) (Pointer [9; 171; 205] 1) len
         (Pointer [1; 2; 3; 4; 5; 6] 1)
       = Some (Pointer [1; 2; 3; 4; 5; 6] 1)).
Proof.
  apply (toString_writes_digits (cfg:=debug_build) [9; 171; 205] [1; 2; 3; 4; 5; 6]
           1 1 2); simpl; lia.
Defined.

(** X15. [toHex] of [len] characters, for [len] at most [2^30 - 1] (so
    that the index [2 * len] stays within [int]), returns [2 * len]
    characters, the two digits of each byte in order, high nibble first,
    the character read as an unsigned byte; for [len = 0] it returns the
    empty string without reading [ptr]. *)
Theorem toHex_digits {cfg : BuildConfig} (cbuf : list Z) (o len : nat) :
  (o + len ≤ length cbuf)%nat →
  Z.of_nat len ≤ 1073741823 →
  (∃ text,
     toHex (Pointer cbuf o) len = Some text
     ∧ length text = (2 * len)%nat
     ∧ (∀ i c, (i < len)%nat → cbuf !! (o + i)%nat = Some c →
          text !! (2 * i)%nat = Some (hex_digit (Z.shiftr (static_cast uint8_t c) 4))
          ∧ text !! (2 * i + 1)%nat
            = Some (hex_digit (Z.land (static_cast uint8_t c) 15))))
  ∧ (∀ ptr, toHex ptr 0 = Some []).
Proof.
  intros Hin Hmax. split; [|done].
  eexists. split; [by apply toHex_spec|]. split.
  - rewrite hex_of_length, length_take, length_drop. lia.
  - intros i c Hi Hc. rewrite high_nibble, low_nibble.
    apply hex_of_lookup. rewrite lookup_take_lt by done. by rewrite lookup_drop.
Qed.

Lemma toHex_digits_example :
  (∃ text,
     toHex (cfg:=debug_build) (Pointer [0; -1; 16; -85] 1) 3 = Some text
     ∧ length text = (2 * 3)%nat
     ∧ (∀ i c, (i < 3)%nat → [0; -1; 16; -85] !! (1 + i)%nat = Some c →
          text !! (2 * i)%nat = Some (hex_digit (Z.shiftr (static_cast uint8_t c) 4))
          ∧ text !! (2 * i + 1)%nat
            = Some (hex_digit (Z.land (static_cast uint8_t c) 15))))
  ∧ (∀ ptr, toHex (cfg:=debug_build) ptr 0 = Some []).
Proof.
  apply (toHex_digits (cfg:=debug_build) [0; -1; 16; -85] 1 3); simpl; lia.
Defined.

(** X16. For [len] at most [2^30 - 1], every character [toHex] returns
    is one of [0-9a-f]: never an upper-case digit, never the zero
    [resize] filled the string with. *)
Theorem toHex_charset {cfg : BuildConfig} (cbuf : list Z) (o len : nat) (text : list Z) :
  (o + len ≤ length cbuf)%nat →
  Z.of_nat len ≤ 1073741823 →
  toHex (Pointer cbuf o) len = Some text →
  Forall (λ c, 48 ≤ c ≤ 57 ∨ 97 ≤ c ≤ 102) text.
Proof.
  intros Hin Hmax. rewrite toHex_spec by done. intros [= <-]. apply hex_of_digits.
Qed.

Lemma toHex_charset_example :
  Forall (λ c, 48 ≤ c ≤ 57 ∨ 97 ≤ c ≤ 102) [102; 102; 49; 48; 97; 98].
Proof.
  apply (toHex_charset (cfg:=debug_build) [0; -1; 16; -85] 1 3).
  - simpl. lia.
  - simpl. lia.
  - reflexivity.
Defined.

(** X17. For [len] at most [2^30 - 1], the text [toHex] returns reads
    back, two digits a byte, as the bytes it was made from; so two
    sequences of [len] bytes with the same text are the same. *)
Theorem toHex_unhex {cfg : BuildConfig} (cbuf : list Z) (o len : nat) :
  (o + len ≤ length cbuf)%nat →
  Z.of_nat len ≤ 1073741823 →
  (∃ text,
     toHex (Pointer cbuf o) len = Some text
     ∧ unhex text = Some (static_cast uint8_t <$> take len (drop o cbuf)))
  ∧ (∀ cbuf' o',
       (o' + len ≤ length cbuf')%nat →
       toHex (Pointer cbuf' o') len = toHex (Pointer cbuf o) len →
       static_cast uint8_t <$> take len (drop o' cbuf')
       = static_cast uint8_t <$> take len (drop o cbuf)).
Proof.
  intros Hin Hmax. split.
  - eexists. split; [by apply toHex_spec|]. apply unhex_hex_of.
  - intros cbuf' o' Hin'. rewrite !toHex_spec by done. intros [= Heq].
    apply (f_equal unhex) in Heq. rewrite !unhex_hex_of in Heq. by injection Heq.
Qed.

Lemma toHex_unhex_example :
  (∃ text,
     toHex (cfg:=debug_build) (Pointer [0; -1; 16; -85] 1) 3 = Some text
     ∧ unhex text = Some (static_cast uint8_t <$> take 3 (drop 1 [0; -1; 16; -85])))
  ∧ (∀ cbuf' o',
       (o' + 3 ≤ length cbuf')%nat →
       toHex (cfg:=debug_build) (Pointer cbuf' o') 3
       = toHex (cfg:=debug_build) (Pointer [0; -1; 16; -85] 1) 3 →
       static_cast uint8_t <$> take 3 (drop o' cbuf')
       = static_cast uint8_t <$> take 3 (drop 1 [0; -1; 16; -85])).
Proof.
  apply (toHex_unhex (cfg:=debug_build) [0; -1; 16; -85] 1 3); simpl; lia.
Defined.

(** X18. The text of a sequence of at most [2^30 - 1] bytes is the text
    of its first part followed by the text of the rest. *)
Theorem toHex_app {cfg : BuildConfig} (a b : list Z) :
  Z.of_nat (length a + length b) ≤ 1073741823 →
  ∃ ta tb,
    toHex (Pointer a 0) (length a) = Some ta
    ∧ toHex (Pointer b 0) (length b) = Some tb
    ∧ toHex (Pointer (a ++ b) 0) (length a + length b) = Some (ta ++ tb).
Proof.
  intros Hmax. exists (hex_of a), (hex_of b).
  rewrite !toHex_spec by (rewrite ?length_app; simpl; lia).
  rewrite !drop_0, <- length_app, !firstn_all. by rewrite hex_of_app.
Qed.

Lemma toHex_app_example :
  ∃ ta tb,
    toHex (cfg:=debug_build) (Pointer [-34; -83] 0) (length [-34; -83]) = Some ta
    ∧ toHex (cfg:=debug_build) (Pointer [-66; -17; 0] 0) (length [-66; -17; 0]) = Some tb
    ∧ toHex (cfg:=debug_build) (Pointer ([-34; -83] ++ [-66; -17; 0]) 0)
        (length [-34; -83] + length [-66; -17; 0]) = Some (ta ++ tb).
Proof.
  apply (toHex_app (cfg:=debug_build) [-34; -83] [-66; -17; 0]); simpl; lia.
Defined.

(** X19. [toString] on an array and [toHex] on the same bytes held as
    characters return the same text; the empty array gives the empty
    string. *)
Theorem toString_array_toHex {cfg : BuildConfig} (chars : list Z) :
  Z.of_nat (length chars) ≤ 1073741823 →
  toString_array (static_cast uint8_t <$> chars) = toHex (Pointer chars 0) (length chars)
  ∧ toString_array [] = Some [].
Proof.
  intros Hmax. split; [|done].
  rewrite toString_array_spec by (by rewrite length_fmap).
  rewrite toHex_spec by (simpl; lia).
  by rewrite drop_0, firstn_all, hex_of_uint8.
Qed.

Lemma toString_array_toHex_example :
  toString_array (cfg:=debug_build) (static_cast uint8_t <$> [-34; -83; 7])
  = toHex (cfg:=debug_build) (Pointer [-34; -83; 7] 0) (length [-34; -83; 7])
  ∧ toString_array (cfg:=debug_build) [] = Some [].
Proof.
  apply (toString_array_toHex (cfg:=debug_build) [-34; -83; 7]); simpl; lia.
Defined.

(** X20. Beyond [int]: when [len], passed on as an [int], is zero or
    negative there (as for [len = 2^31]), the loop of [toString] does
    not run, and [toHex] returns the string as [resize] left it, all
    zero characters and no digit, without reading [ptr]. *)
Theorem toHex_beyond_int {cfg : BuildConfig} (ptr : pointer char_is_signed) (len : nat) :
  (0 < len)%nat →
  static_cast int_t (Z.of_nat len) ≤ 0 →
  toHex ptr len
  = Some (replicate (Z.to_nat (static_cast size_t (2 * Z.of_nat len))) 0).
Proof.
  intros Hpos Hneg. unfold toHex, toString. rewrite decide_True by done. cbv zeta.
  by replace (Z.to_nat (static_cast int_t (Z.of_nat len))) with 0%nat by lia.
Qed.

Lemma toHex_beyond_int_example :
  toHex (cfg:=debug_build) (Pointer [1; 2] 0) (Z.to_nat 2147483648)
  = Some (replicate
            (Z.to_nat (static_cast size_t (2 * Z.of_nat (Z.to_nat 2147483648)))) 0)
  ∧ Z.to_nat (static_cast size_t (2 * Z.of_nat (Z.to_nat 2147483648)))
    = Z.to_nat 4294967296.
Proof.
  split.
  - apply (toHex_beyond_int (cfg:=debug_build)).
    + lia.
    + rewrite Z2Nat.id by lia. vm_compute. discriminate.
  - rewrite Z2Nat.id by lia. apply (f_equal Z.to_nat). reflexivity.
Defined.
